(** * monkey-kd: lexer, Pratt parser, AST rendering and evaluator

    A shallow embedding of the Go packages [token], [lexer], [ast] and
    [parser], followed by the properties of the specification proved (or
    refuted) on it.  Go strings are byte strings and are modelled by
    [string] (a list of 8-bit [ascii]); a [byte] is an [ascii]. *)

From Stdlib Require Import String Ascii List ZArith Bool Arith Lia.
Import ListNotations.

Local Open Scope string_scope.
Set Warnings "-register-all".

(** ** Package token *)

Module token.

(** [type TokenType string] *)
Definition TokenType := string.

Record Token := mkToken { Type_ : TokenType; Literal : string }.

Definition ILLEGAL : TokenType := "ILLEGAL".
Definition EOF : TokenType := "EOF".
Definition IDENTIFIER : TokenType := "IDENTIFIER".
Definition INT : TokenType := "INT".
Definition ASSIGN : TokenType := "=".
Definition PLUS : TokenType := "+".
Definition MINUS : TokenType := "-".
Definition BANG : TokenType := "!".
Definition ASTERISK : TokenType := "*".
Definition SLASH : TokenType := "/".
Definition LT : TokenType := "<".
Definition GT : TokenType := ">".
Definition COMMA : TokenType := ",".
Definition SEMICOLON : TokenType := ";".
Definition LPAREN : TokenType := "(".
Definition RPAREN : TokenType := ")".
Definition LBRACE : TokenType := "{".
Definition RBRACE : TokenType := "}".
Definition FUNCTION : TokenType := "FUNCTION".
Definition LET : TokenType := "LET".
Definition TRUE : TokenType := "TRUE".
Definition FALSE : TokenType := "FALSE".
Definition IF : TokenType := "IF".
Definition ELSE : TokenType := "ELSE".
Definition RETURN : TokenType := "RETURN".
Definition EQ : TokenType := "==".
Definition NOT_EQ : TokenType := "!=".

(** A Go [map[string]V] read only by key: an association list searched from
    the front, so that the latest binding of a key wins. *)
Fixpoint lookup {V : Type} (k : string) (m : list (string * V)) : option V :=
  match m with
  | [] => None
  | (k', v) :: m' => if String.eqb k k' then Some v else lookup k m'
  end.

Definition keywords : list (string * TokenType) :=
  [ ("fn", FUNCTION); ("let", LET); ("true", TRUE); ("false", FALSE);
    ("if", IF); ("else", ELSE); ("return", RETURN) ].

Definition LookupIdentifier (identifier : string) : TokenType :=
  match lookup identifier keywords with
  | Some tok => tok
  | None => IDENTIFIER
  end.

End token.

(** ** Package lexer *)

Module lexer.
Import token.

(** The cursor fields are Go [int]s that start at 0 and only ever grow by one
    per [readChar]; they are modelled by [nat] (a 64-bit cursor cannot wrap
    before 2^63 calls of [readChar]). *)
Record Lexer := mkLexer {
  input : string;
  position : nat;
  readPosition : nat;
  char : ascii
}.

Definition NUL : ascii := Ascii.zero.

(** [lex.input[i]], for an index that the caller has checked to be in range. *)
Definition byteAt (s : string) (i : nat) : ascii :=
  match String.get i s with
  | Some c => c
  | None => NUL
  end.

Definition readChar (lex : Lexer) : Lexer :=
  let c := if (String.length (input lex) <=? readPosition lex)%nat
           then NUL
           else byteAt (input lex) (readPosition lex) in
  {| input := input lex;
     position := readPosition lex;
     readPosition := readPosition lex + 1;
     char := c |}.

Definition New (input : string) : Lexer :=
  readChar {| input := input; position := 0; readPosition := 0; char := NUL |}.

Definition peekChar (lex : Lexer) : ascii :=
  if (String.length (input lex) <=? readPosition lex)%nat
  then NUL
  else byteAt (input lex) (readPosition lex).

Definition byte_le (a b : ascii) : bool := (nat_of_ascii a <=? nat_of_ascii b)%nat.

Definition isLetter (c : ascii) : bool :=
  (byte_le "a" c && byte_le c "z") || (byte_le "A" c && byte_le c "Z")
  || Ascii.eqb c "_".

Definition isDigit (c : ascii) : bool := byte_le "0" c && byte_le c "9".

Definition isWhitespace (c : ascii) : bool :=
  Ascii.eqb c " " || Ascii.eqb c "009" || Ascii.eqb c "010" || Ascii.eqb c "013".

(** [for cond(lex.char) { lex.readChar() }]: the loop shared by
    [skipWhitespace], [readIdentifier] and [readNumber].  The counter bounds
    the number of iterations; [readLoop_unfold] shows that the bound used
    below is never the reason the loop stops. *)
Fixpoint readWhile (cond : ascii -> bool) (n : nat) (lex : Lexer) : Lexer :=
  match n with
  | O => lex
  | S n' => if cond (char lex) then readWhile cond n' (readChar lex) else lex
  end.

Definition readLoop (cond : ascii -> bool) (lex : Lexer) : Lexer :=
  readWhile cond (S (String.length (input lex))) lex.

Definition skipWhitespace (lex : Lexer) : Lexer := readLoop isWhitespace lex.

(** [lex.input[from:to]] *)
Definition slice (s : string) (from to : nat) : string :=
  String.substring from (to - from) s.

Definition readIdentifier (lex : Lexer) : string * Lexer :=
  let pos := position lex in
  let lex' := readLoop isLetter lex in
  (slice (input lex') pos (position lex'), lex').

Definition readNumber (lex : Lexer) : string * Lexer :=
  let pos := position lex in
  let lex' := readLoop isDigit lex in
  (slice (input lex') pos (position lex'), lex').

(** [string(char)] for a byte: Go converts the integer to the UTF-8 encoding
    of that code point, one byte below 0x80 and two bytes from 0x80 on. *)
Definition string_of_byte (c : ascii) : string :=
  let n := nat_of_ascii c in
  if (n <? 128)%nat then String c EmptyString
  else String (ascii_of_nat (192 + n / 64))
         (String (ascii_of_nat (128 + n mod 64)) EmptyString).

Definition newToken (tokenType : TokenType) (c : ascii) : Token :=
  {| Type_ := tokenType; Literal := string_of_byte c |}.

Definition NextToken (lex0 : Lexer) : Token * Lexer :=
  let lex := skipWhitespace lex0 in
  let c := char lex in
  let single (t : TokenType) := (newToken t c, readChar lex) in
  if Ascii.eqb c "=" then
    if Ascii.eqb (peekChar lex) "=" then
      let lex1 := readChar lex in
      ({| Type_ := EQ; Literal := string_of_byte c ++ string_of_byte (char lex1) |},
       readChar lex1)
    else single ASSIGN
  else if Ascii.eqb c "+" then single PLUS
  else if Ascii.eqb c "-" then single MINUS
  else if Ascii.eqb c "!" then
    if Ascii.eqb (peekChar lex) "=" then
      let lex1 := readChar lex in
      ({| Type_ := NOT_EQ; Literal := string_of_byte c ++ string_of_byte (char lex1) |},
       readChar lex1)
    else single BANG
  else if Ascii.eqb c "/" then single SLASH
  else if Ascii.eqb c "*" then single ASTERISK
  else if Ascii.eqb c "<" then single LT
  else if Ascii.eqb c ">" then single GT
  else if Ascii.eqb c ";" then single SEMICOLON
  else if Ascii.eqb c "," then single COMMA
  else if Ascii.eqb c "(" then single LPAREN
  else if Ascii.eqb c ")" then single RPAREN
  else if Ascii.eqb c "{" then single LBRACE
  else if Ascii.eqb c "}" then single RBRACE
  else if Ascii.eqb c NUL then ({| Type_ := EOF; Literal := "" |}, readChar lex)
  else if isLetter c then
    let (lit, lex1) := readIdentifier lex in
    ({| Type_ := LookupIdentifier lit; Literal := lit |}, lex1)
  else if isDigit c then
    let (lit, lex1) := readNumber lex in
    ({| Type_ := INT; Literal := lit |}, lex1)
  else single ILLEGAL.

(** The first [n] tokens that successive calls of [NextToken] return. *)
Fixpoint tokens (n : nat) (lex : Lexer) : list Token :=
  match n with
  | O => []
  | S n' => let (tok, lex') := NextToken lex in tok :: tokens n' lex'
  end.

(** The lexer after [n] calls of [NextToken]. *)
Fixpoint afterTokens (n : nat) (lex : Lexer) : Lexer :=
  match n with
  | O => lex
  | S n' => afterTokens n' (snd (NextToken lex))
  end.

End lexer.

(** ** Package ast *)

Module ast.
Import token.

(** An interface value ([Expression], [Statement]) or a pointer that may be
    [nil] is an [option]; a slice that may be [nil] is an [option (list _)].
    A [Statement] interface value carries its dynamic type and a pointer,
    which may itself be [nil] (a typed nil stored in an interface is not
    the [nil] interface). *)
Record Identifier := mkIdentifier { IdentToken : Token; IdentValue : string }.

Inductive Expression : Type :=
| Ident (i : Identifier)
| IntegerLiteral (tok : Token) (value : Z)
| PrefixExpression (tok : Token) (operator : string) (Right : option Expression)
| InfixExpression (tok : Token) (Left : option Expression) (operator : string)
    (Right : option Expression)
| Boolean (tok : Token) (value : bool)
| IfExpression (tok : Token) (condition : option Expression)
    (consequence alternative : option BlockStatement)
| FunctionLiteral (tok : Token) (parameters : option (list Identifier))
    (body : option BlockStatement)
| CallExpression (tok : Token) (function : option Expression)
    (arguments : option (list (option Expression)))
with Statement : Type :=
| LetStmt (p : option LetStatement)
| ReturnStmt (p : option ReturnStatement)
| ExpressionStmt (p : option ExpressionStatement)
| BlockStmt (p : option BlockStatement)
with LetStatement : Type :=
| mkLet (tok : Token) (name : option Identifier) (value : option Expression)
with ReturnStatement : Type :=
| mkReturn (tok : Token) (returnValue : option Expression)
with ExpressionStatement : Type :=
| mkExpressionStatement (tok : Token) (expression : option Expression)
with BlockStatement : Type :=
| mkBlock (tok : Token) (statements : list Statement).

Record Program := mkProgram { Statements : list Statement }.

(** [strings.Join(elems, sep)] *)
Fixpoint join (elems : list string) (sep : string) : string :=
  match elems with
  | [] => ""
  | [e] => e
  | e :: rest => e ++ sep ++ join rest sep
  end.

(** A [String()] method returns [None] where the Go method panics on a nil
    dereference (a method called on a [nil] interface, a field read through a
    [nil] pointer). *)
Definition ret (s : string) : option string := Some s.

Definition bind {A B : Type} (m : option A) (k : A -> option B) : option B :=
  match m with
  | Some a => k a
  | None => None
  end.

Notation "x <- m ;; k" := (bind m (fun x => k))
  (at level 61, m at next level, right associativity).

Definition IdentifierString (i : Identifier) : string := IdentValue i.

Fixpoint ExpressionString (e : Expression) : option string :=
  match e with
  | Ident i => ret (IdentifierString i)
  | IntegerLiteral tok _ => ret (Literal tok)
  | PrefixExpression _ operator Right =>
      r <- match Right with Some x => ExpressionString x | None => None end ;;
      ret ("(" ++ operator ++ r ++ ")")
  | InfixExpression _ Left operator Right =>
      l <- match Left with Some x => ExpressionString x | None => None end ;;
      r <- match Right with Some x => ExpressionString x | None => None end ;;
      ret ("(" ++ l ++ " " ++ operator ++ " " ++ r ++ ")")
  | Boolean tok _ => ret (Literal tok)
  | IfExpression _ condition consequence alternative =>
      c <- match condition with Some x => ExpressionString x | None => None end ;;
      t <- match consequence with Some b => BlockStatementString b | None => None end ;;
      match alternative with
      | Some b =>
          a <- BlockStatementString b ;;
          ret ("if" ++ c ++ " " ++ t ++ "else " ++ a)
      | None => ret ("if" ++ c ++ " " ++ t)
      end
  | FunctionLiteral tok parameters body =>
      let params :=
        match parameters with
        | Some ps => map IdentifierString ps
        | None => []
        end in
      b <- match body with Some b => BlockStatementString b | None => None end ;;
      ret (Literal tok ++ "(" ++ join params ", " ++ ") " ++ b)
  | CallExpression _ function arguments =>
      args <- match arguments with
              | Some l =>
                  (fix each (l : list (option Expression)) : option (list string) :=
                     match l with
                     | [] => Some []
                     | a :: l' =>
                         s <- match a with Some x => ExpressionString x | None => None end ;;
                         ss <- each l' ;;
                         Some (s :: ss)
                     end) l
              | None => Some []
              end ;;
      f <- match function with Some x => ExpressionString x | None => None end ;;
      ret (f ++ "(" ++ join args ", " ++ ")")
  end
with StatementString (s : Statement) : option string :=
  match s with
  | LetStmt (Some l) => LetStatementString l
  | ReturnStmt (Some r) => ReturnStatementString r
  | ExpressionStmt (Some x) => ExpressionStatementString x
  | BlockStmt (Some b) => BlockStatementString b
  | _ => None
  end
with LetStatementString (l : LetStatement) : option string :=
  match l with
  | mkLet tok name value =>
      n <- match name with Some i => ret (IdentifierString i) | None => None end ;;
      match value with
      | Some x =>
          v <- ExpressionString x ;;
          ret ((Literal tok ++ " ") ++ n ++ " = " ++ v ++ ";")
      | None => ret ((Literal tok ++ " ") ++ n ++ " = " ++ ";")
      end
  end
with ReturnStatementString (r : ReturnStatement) : option string :=
  match r with
  | mkReturn tok returnValue =>
      match returnValue with
      | Some x =>
          v <- ExpressionString x ;;
          ret ((Literal tok ++ " ") ++ v ++ ";")
      | None => ret ((Literal tok ++ " ") ++ ";")
      end
  end
with ExpressionStatementString (x : ExpressionStatement) : option string :=
  match x with
  | mkExpressionStatement _ expression =>
      match expression with
      | Some e => ExpressionString e
      | None => ret ""
      end
  end
with BlockStatementString (b : BlockStatement) : option string :=
  match b with
  | mkBlock _ statements =>
      (fix each (l : list Statement) : option string :=
         match l with
         | [] => ret ""
         | s :: l' =>
             x <- StatementString s ;;
             xs <- each l' ;;
             ret (x ++ xs)
         end) statements
  end.

Fixpoint StatementsString (l : list Statement) : option string :=
  match l with
  | [] => ret ""
  | s :: l' =>
      x <- StatementString s ;;
      xs <- StatementsString l' ;;
      ret (x ++ xs)
  end.

Definition ProgramString (prog : Program) : option string :=
  StatementsString (Statements prog).

End ast.

(** ** Go's strconv (standard library, outside the repository)

    [parseIntegerLiteral] calls [strconv.ParseInt(s, 0, 64)] and formats its
    error with the verb [%q] ([strconv.Quote]).  Both are modelled after the
    library's algorithm; [Quote] is exact on every string whose runes are
    below U+0100 or are bytes of no valid encoding (see [isPrintHigh]). *)

Module strconv.

Local Open Scope Z_scope.

Definition code (c : ascii) : Z := Z.of_nat (nat_of_ascii c).

(** [lower(c) = c | ('x' - 'X')] *)
Definition lower (c : ascii) : Z := Z.lor (code c) 32.

Inductive NumResult : Type :=
| Num (n : Z)
| ErrSyntax
| ErrRange.

Definition maxUint64 : Z := 2 ^ 64 - 1.

(** The digit loop of [ParseUint]: [n] is the value so far, [underscores]
    whether an underscore was skipped. *)
Fixpoint parseDigits (base : Z) (s : string) (n : Z) (underscores : bool)
  : NumResult * bool :=
  match s with
  | EmptyString => (Num n, underscores)
  | String c rest =>
      if Ascii.eqb c "_" then parseDigits base rest n true
      else
        let d :=
          if (code "0" <=? code c) && (code c <=? code "9") then Some (code c - code "0")
          else if (code "a" <=? lower c) && (lower c <=? code "z")
               then Some (lower c - code "a" + 10)
               else None in
        match d with
        | None => (ErrSyntax, underscores)
        | Some d =>
            if base <=? d then (ErrSyntax, underscores)
            else if maxUint64 / base + 1 <=? n then (ErrRange, underscores)
            else if maxUint64 <? n * base + d then (ErrRange, underscores)
            else parseDigits base rest (n * base + d) underscores
        end
  end.

(** The scan of [underscoreOK] from index [i] on; [saw] is the class of the
    last character: [0] beginning, [1] digit or base prefix, [2] underscore,
    [3] none of these. *)
Fixpoint underscoreScan (hex : bool) (s : string) (saw : nat) : bool :=
  match s with
  | EmptyString => negb (Nat.eqb saw 2)
  | String c rest =>
      if ((code "0" <=? code c) && (code c <=? code "9"))
         || (hex && (code "a" <=? lower c) && (lower c <=? code "f"))
      then underscoreScan hex rest 1%nat
      else if Ascii.eqb c "_"
           then if Nat.eqb saw 1 then underscoreScan hex rest 2%nat else false
           else if Nat.eqb saw 2 then false
                else underscoreScan hex rest 3%nat
  end.

Definition isPrefixLetter (c : ascii) : bool :=
  (lower c =? code "b") || (lower c =? code "o") || (lower c =? code "x").

Definition underscoreOK (s : string) : bool :=
  let s1 :=
    match s with
    | String c rest => if Ascii.eqb c "-" || Ascii.eqb c "+" then rest else s
    | EmptyString => s
    end in
  match s1 with
  | String "0" (String c rest) =>
      if isPrefixLetter c
      then underscoreScan (lower c =? code "x") rest 1%nat
      else underscoreScan false s1 0%nat
  | _ => underscoreScan false s1 0%nat
  end.

(** [ParseUint(s, 0, 64)]; [s0] is the whole argument of [ParseInt], which
    [underscoreOK] inspects. *)
Definition ParseUint (s : string) : NumResult :=
  match s with
  | EmptyString => ErrSyntax
  | String c0 rest0 =>
      let '(base, digits) :=
        if Ascii.eqb c0 "0" then
          match rest0 with
          | String c1 rest1 =>
              if (3 <=? String.length s)%nat && (lower c1 =? code "b") then (2, rest1)
              else if (3 <=? String.length s)%nat && (lower c1 =? code "o") then (8, rest1)
              else if (3 <=? String.length s)%nat && (lower c1 =? code "x") then (16, rest1)
              else (8, rest0)
          | EmptyString => (8, rest0)
          end
        else (10, s) in
      match parseDigits base digits 0 false with
      | (Num n, underscores) =>
          if underscores && negb (underscoreOK s) then ErrSyntax else Num n
      | (e, _) => e
      end
  end.

(** [ParseInt(s, 0, 64)]: the value when the returned error is [nil]. *)
Definition ParseInt (s : string) : option Z :=
  match s with
  | EmptyString => None
  | String c rest =>
      let '(neg, s1) :=
        if Ascii.eqb c "+" then (false, rest)
        else if Ascii.eqb c "-" then (true, rest)
        else (false, s) in
      match ParseUint s1 with
      | Num un =>
          let cutoff := 2 ^ 63 in
          if negb neg && (cutoff <=? un) then None
          else if neg && (cutoff <? un) then None
          else Some (if neg then - un else un)
      | _ => None
      end
  end.

Definition hexDigit (n : Z) : ascii :=
  match String.get (Z.to_nat n) "0123456789abcdef" with
  | Some c => c
  | None => "0"%char
  end.

Definition backslash : ascii := ascii_of_nat 92.
Definition dquote : ascii := ascii_of_nat 34.

(** One rune below 0x80 in [strconv.Quote]'s output ([appendEscapedRune]):
    the quote and the backslash behind a backslash, a printable byte as it
    is, the seven escapes with a letter, and [\x] with two hexadecimal
    digits for the other control bytes. *)
Definition quoteASCII (c : ascii) : string :=
  let n := code c in
  let esc (x : ascii) := String backslash (String x EmptyString) in
  if (n =? 34) || (n =? 92) then esc c
  else if (32 <=? n) && (n <=? 126) then String c EmptyString
  else if n =? 7 then esc "a"%char
  else if n =? 8 then esc "b"%char
  else if n =? 12 then esc "f"%char
  else if n =? 10 then esc "n"%char
  else if n =? 13 then esc "r"%char
  else if n =? 9 then esc "t"%char
  else if n =? 11 then esc "v"%char
  else String backslash (String "x" (String (hexDigit (n / 16))
         (String (hexDigit (n mod 16)) EmptyString))).

(** [\x] and the two hexadecimal digits of a byte that starts no valid
    UTF-8 encoding. *)
Definition quoteInvalidByte (c : ascii) : string :=
  String backslash (String "x" (String (hexDigit (code c / 16))
    (String (hexDigit (code c mod 16)) EmptyString))).

Definition inRange (c : ascii) (lo hi : Z) : bool :=
  (lo <=? code c) && (code c <=? hi).

(** [utf8.DecodeRuneInString] on a string whose first byte [b0] is 0x80 or
    more, [rest] being the bytes behind it: the rune and the number of bytes
    of [rest] that belong to its encoding, or [None] where Go returns
    ([RuneError], 1), no valid encoding starting at [b0]. *)
Definition decodeRune (b0 : Z) (rest : string) : option (Z * nat) :=
  if (194 <=? b0) && (b0 <=? 223) then
    match rest with
    | String c1 _ =>
        if inRange c1 128 191
        then Some ((b0 mod 32) * 64 + code c1 mod 64, 1%nat)
        else None
    | EmptyString => None
    end
  else if (224 <=? b0) && (b0 <=? 239) then
    match rest with
    | String c1 (String c2 _) =>
        if inRange c1 (if b0 =? 224 then 160 else 128)
                      (if b0 =? 237 then 159 else 191)
           && inRange c2 128 191
        then Some ((b0 mod 16) * 4096 + (code c1 mod 64) * 64 + code c2 mod 64,
                   2%nat)
        else None
    | _ => None
    end
  else if (240 <=? b0) && (b0 <=? 244) then
    match rest with
    | String c1 (String c2 (String c3 _)) =>
        if inRange c1 (if b0 =? 240 then 144 else 128)
                      (if b0 =? 244 then 143 else 191)
           && inRange c2 128 191 && inRange c3 128 191
        then Some ((b0 mod 8) * 262144 + (code c1 mod 64) * 4096
                   + (code c2 mod 64) * 64 + code c3 mod 64, 3%nat)
        else None
    | _ => None
    end
  else None.

(** [strconv.IsPrint] on a rune from U+0080 on.  Below U+0100 this is the
    function's own test for Latin-1.  From U+0100 on Go looks the rune up in
    tables generated from the Unicode data of its release; they are not
    reproduced here, and such a rune is taken to be printable (as the
    letters, marks, numbers, punctuation and symbols are).  The statements
    below that give the text of a quoted string are about ASCII strings. *)
Definition isPrintHigh (r : Z) : bool :=
  if r <=? 255 then (161 <=? r) && negb (r =? 173) else true.

(** [\u] with four hexadecimal digits below U+10000, [\U] with eight from
    there on: a rune that is not printable. *)
Definition quoteRune (r : Z) : string :=
  let digits (shifts : list Z) :=
    string_of_list_ascii (map (fun s => hexDigit ((r / 2 ^ s) mod 16)) shifts) in
  if r <? 65536
  then String backslash (String "u" (digits [12; 8; 4; 0]))
  else String backslash (String "U" (digits [28; 24; 20; 16; 12; 8; 4; 0])).

(** The loop of [strconv.Quote] over the runes of [s]; [skip] counts the
    bytes ahead that belong to the rune just written. *)
Fixpoint quoteRunes (skip : nat) (s : string) : string :=
  match s with
  | EmptyString => EmptyString
  | String c rest =>
      match skip with
      | S skip' => quoteRunes skip' rest
      | O =>
          if code c <? 128 then quoteASCII c ++ quoteRunes 0 rest
          else
            match decodeRune (code c) rest with
            | None => quoteInvalidByte c ++ quoteRunes 0 rest
            | Some (r, n) =>
                (if isPrintHigh r
                 then String c (String.substring 0 n rest)
                 else quoteRune r)
                ++ quoteRunes n rest
            end
      end
  end.

Definition Quote (s : string) : string :=
  String dquote (quoteRunes 0 s ++ String dquote EmptyString).

End strconv.

(** ** Package parser *)

Module parser.
Import token lexer ast.

Local Open Scope Z_scope.

Definition LOWEST : Z := 1.
Definition EQUALS : Z := 2.
Definition LESSGREATER : Z := 3.
Definition SUM : Z := 4.
Definition PRODUCT : Z := 5.
Definition PREFIX : Z := 6.
Definition CALL : Z := 7.

Definition precedences : list (TokenType * Z) :=
  [ (EQ, EQUALS); (NOT_EQ, EQUALS); (LT, LESSGREATER); (GT, LESSGREATER);
    (PLUS, SUM); (MINUS, SUM); (SLASH, PRODUCT); (ASTERISK, PRODUCT);
    (LPAREN, CALL) ].

(** The method values stored in the two handler maps, by the method's name. *)
Inductive prefixParseFn : Type :=
| fn_parseIdentifier
| fn_parseIntegerLiteral
| fn_parsePrefixExpression
| fn_parseBoolean
| fn_parseGroupedExpression
| fn_parseIfExpression
| fn_parseFunctionLiteral.

Inductive infixParseFn : Type :=
| fn_parseInfixExpression
| fn_parseCallExpression.

Record Parser := mkParser {
  lex : Lexer;
  curToken : Token;
  peekToken : Token;
  errors : list string;
  prefixParseFns : list (TokenType * prefixParseFn);
  infixParseFns : list (TokenType * infixParseFn)
}.

Definition registerPrefix (p : Parser) (tokenType : TokenType) (fn : prefixParseFn)
  : Parser :=
  {| lex := lex p; curToken := curToken p; peekToken := peekToken p;
     errors := errors p;
     prefixParseFns := (tokenType, fn) :: prefixParseFns p;
     infixParseFns := infixParseFns p |}.

Definition registerInfix (p : Parser) (tokenType : TokenType) (fn : infixParseFn)
  : Parser :=
  {| lex := lex p; curToken := curToken p; peekToken := peekToken p;
     errors := errors p;
     prefixParseFns := prefixParseFns p;
     infixParseFns := (tokenType, fn) :: infixParseFns p |}.

Definition nextToken (p : Parser) : Parser :=
  let (tok, lex') := NextToken (lex p) in
  {| lex := lex'; curToken := peekToken p; peekToken := tok;
     errors := errors p;
     prefixParseFns := prefixParseFns p;
     infixParseFns := infixParseFns p |}.

(** The zero value of [token.Token], held by [curToken] and [peekToken]
    before the two initial [nextToken] calls. *)
Definition zeroToken : Token := {| Type_ := ""; Literal := "" |}.

Definition New (lex : Lexer) : Parser :=
  let parse :=
    {| lex := lex; curToken := zeroToken; peekToken := zeroToken; errors := [];
       prefixParseFns := []; infixParseFns := [] |} in
  let parse := registerPrefix parse IDENTIFIER fn_parseIdentifier in
  let parse := registerPrefix parse INT fn_parseIntegerLiteral in
  let parse := registerPrefix parse BANG fn_parsePrefixExpression in
  let parse := registerPrefix parse MINUS fn_parsePrefixExpression in
  let parse := registerPrefix parse TRUE fn_parseBoolean in
  let parse := registerPrefix parse FALSE fn_parseBoolean in
  let parse := registerPrefix parse LPAREN fn_parseGroupedExpression in
  let parse := registerPrefix parse IF fn_parseIfExpression in
  let parse := registerPrefix parse FUNCTION fn_parseFunctionLiteral in
  let parse := registerInfix parse PLUS fn_parseInfixExpression in
  let parse := registerInfix parse MINUS fn_parseInfixExpression in
  let parse := registerInfix parse SLASH fn_parseInfixExpression in
  let parse := registerInfix parse ASTERISK fn_parseInfixExpression in
  let parse := registerInfix parse EQ fn_parseInfixExpression in
  let parse := registerInfix parse NOT_EQ fn_parseInfixExpression in
  let parse := registerInfix parse LT fn_parseInfixExpression in
  let parse := registerInfix parse GT fn_parseInfixExpression in
  let parse := registerInfix parse LPAREN fn_parseCallExpression in
  nextToken (nextToken parse).

Definition curTokenIs (p : Parser) (tok : TokenType) : bool :=
  String.eqb (Type_ (curToken p)) tok.

Definition peekTokenIs (p : Parser) (tok : TokenType) : bool :=
  String.eqb (Type_ (peekToken p)) tok.

Definition addError (p : Parser) (msg : string) : Parser :=
  {| lex := lex p; curToken := curToken p; peekToken := peekToken p;
     errors := (errors p ++ [msg])%list;
     prefixParseFns := prefixParseFns p;
     infixParseFns := infixParseFns p |}.

Definition peekErrorMessage (tok got : TokenType) : string :=
  "expected next token to be " ++ tok ++ ", got " ++ got ++ " instead".

Definition peekError (p : Parser) (tok : TokenType) : Parser :=
  addError p (peekErrorMessage tok (Type_ (peekToken p))).

Definition expectPeek (p : Parser) (tok : TokenType) : bool * Parser :=
  if peekTokenIs p tok then (true, nextToken p) else (false, peekError p tok).

Definition Errors (p : Parser) : list string := errors p.

Definition noPrefixParseFnError (p : Parser) (tt : TokenType) : Parser :=
  addError p ("no prefix parse function for " ++ tt ++ " found").

Definition peekPrecedence (p : Parser) : Z :=
  match lookup (Type_ (peekToken p)) precedences with
  | Some prec => prec
  | None => LOWEST
  end.

Definition curPrecedence (p : Parser) : Z :=
  match lookup (Type_ (curToken p)) precedences with
  | Some prec => prec
  | None => LOWEST
  end.

(** A parse method run with a bound on the depth of calls and loop
    iterations below it: [Done a p] is the method's result [a] and the
    parser it leaves, [OutOfFuel] says that the bound was too small. *)
Inductive Outcome (A : Type) : Type :=
| Done (a : A) (p : Parser)
| OutOfFuel.
Arguments Done {A} a p.
Arguments OutOfFuel {A}.

Definition andThen {A B : Type} (o : Outcome A) (k : A -> Parser -> Outcome B)
  : Outcome B :=
  match o with
  | Done a p => k a p
  | OutOfFuel => OutOfFuel
  end.

Notation "'let*' ( x , p ) := o 'in' k" := (andThen o (fun x p => k))
  (at level 10, x name, p name, o at level 100, k at level 200).

Definition identifierOfCurToken (p : Parser) : Identifier :=
  {| IdentToken := curToken p; IdentValue := Literal (curToken p) |}.

Definition parseIdentifier (p : Parser) : option Expression :=
  Some (Ident (identifierOfCurToken p)).

Definition integerErrorMessage (literal : string) : string :=
  "could not parse " ++ strconv.Quote literal ++ " as integer".

Definition parseIntegerLiteral (p : Parser) : option Expression * Parser :=
  match strconv.ParseInt (Literal (curToken p)) with
  | None => (None, addError p (integerErrorMessage (Literal (curToken p))))
  | Some value => (Some (IntegerLiteral (curToken p) value), p)
  end.

Definition parseBoolean (p : Parser) : option Expression :=
  Some (Boolean (curToken p) (curTokenIs p TRUE)).

(** [for !parse.curTokenIs(token.SEMICOLON) { parse.nextToken() }], the loop
    that ends [parseLetStatement] and [parseReturnStatement]. *)
Fixpoint skipToSemicolon (fuel : nat) (p : Parser) : Outcome unit :=
  match fuel with
  | O => OutOfFuel
  | S fuel' =>
      if negb (curTokenIs p SEMICOLON)
      then skipToSemicolon fuel' (nextToken p)
      else Done tt p
  end.

(** The [for parse.peekTokenIs(token.COMMA)] loop of [parseFunctionParameters]. *)
Fixpoint parseFunctionParameters_loop (fuel : nat) (identifiers : list Identifier)
  (p : Parser) : Outcome (list Identifier) :=
  match fuel with
  | O => OutOfFuel
  | S fuel' =>
      if peekTokenIs p COMMA then
        let p1 := nextToken (nextToken p) in
        parseFunctionParameters_loop fuel' (identifiers ++ [identifierOfCurToken p1])%list p1
      else Done identifiers p
  end.

Definition parseFunctionParameters (fuel : nat) (p : Parser)
  : Outcome (option (list Identifier)) :=
  if peekTokenIs p RPAREN then Done (Some []) (nextToken p)
  else
    let p1 := nextToken p in
    let* (identifiers, p2) :=
      parseFunctionParameters_loop fuel [identifierOfCurToken p1] p1 in
    let (ok, p3) := expectPeek p2 RPAREN in
    if negb ok then Done None p3 else Done (Some identifiers) p3.

(** The mutually recursive parse methods.  Each call and each loop iteration
    runs what it calls with one unit of fuel less. *)
Fixpoint parseStatement (fuel : nat) (p : Parser) : Outcome (option Statement) :=
  match fuel with
  | O => OutOfFuel
  | S fuel' =>
      if String.eqb (Type_ (curToken p)) LET then
        let* (stmt, p1) := parseLetStatement fuel' p in
        Done (Some (LetStmt stmt)) p1
      else if String.eqb (Type_ (curToken p)) RETURN then
        let* (stmt, p1) := parseReturnStatement fuel' p in
        Done (Some (ReturnStmt stmt)) p1
      else
        let* (stmt, p1) := parseExpressionStatement fuel' p in
        Done (Some (ExpressionStmt stmt)) p1
  end

with parseLetStatement (fuel : nat) (p : Parser) : Outcome (option LetStatement) :=
  match fuel with
  | O => OutOfFuel
  | S fuel' =>
      let tok := curToken p in
      let (ok, p1) := expectPeek p IDENTIFIER in
      if negb ok then Done None p1 else
      let name := identifierOfCurToken p1 in
      let (ok, p2) := expectPeek p1 ASSIGN in
      if negb ok then Done None p2 else
      let p3 := nextToken p2 in
      let* (value, p4) := parseExpression fuel' LOWEST p3 in
      let* (_, p5) := skipToSemicolon fuel' p4 in
      Done (Some (mkLet tok (Some name) value)) p5
  end

with parseReturnStatement (fuel : nat) (p : Parser) : Outcome (option ReturnStatement) :=
  match fuel with
  | O => OutOfFuel
  | S fuel' =>
      let tok := curToken p in
      let p1 := nextToken p in
      let* (returnValue, p2) := parseExpression fuel' LOWEST p1 in
      let* (_, p3) := skipToSemicolon fuel' p2 in
      Done (Some (mkReturn tok returnValue)) p3
  end

with parseExpressionStatement (fuel : nat) (p : Parser)
  : Outcome (option ExpressionStatement) :=
  match fuel with
  | O => OutOfFuel
  | S fuel' =>
      let tok := curToken p in
      let* (expression, p1) := parseExpression fuel' LOWEST p in
      let p2 := if peekTokenIs p1 SEMICOLON then nextToken p1 else p1 in
      Done (Some (mkExpressionStatement tok expression)) p2
  end

with parseExpression (fuel : nat) (precedence : Z) (p : Parser)
  : Outcome (option Expression) :=
  match fuel with
  | O => OutOfFuel
  | S fuel' =>
      match lookup (Type_ (curToken p)) (prefixParseFns p) with
      | None => Done None (noPrefixParseFnError p (Type_ (curToken p)))
      | Some prefix =>
          let* (leftExpression, p1) :=
            match prefix with
            | fn_parseIdentifier => Done (parseIdentifier p) p
            | fn_parseIntegerLiteral =>
                let (e, p') := parseIntegerLiteral p in Done e p'
            | fn_parsePrefixExpression => parsePrefixExpression fuel' p
            | fn_parseBoolean => Done (parseBoolean p) p
            | fn_parseGroupedExpression => parseGroupedExpression fuel' p
            | fn_parseIfExpression => parseIfExpression fuel' p
            | fn_parseFunctionLiteral => parseFunctionLiteral fuel' p
            end in
          parseExpression_loop fuel' precedence leftExpression p1
      end
  end

with parseExpression_loop (fuel : nat) (precedence : Z)
  (leftExpression : option Expression) (p : Parser) : Outcome (option Expression) :=
  match fuel with
  | O => OutOfFuel
  | S fuel' =>
      if negb (peekTokenIs p SEMICOLON) && (precedence <? peekPrecedence p) then
        match lookup (Type_ (peekToken p)) (infixParseFns p) with
        | None => Done leftExpression p
        | Some infix =>
            let p1 := nextToken p in
            let* (leftExpression', p2) :=
              match infix with
              | fn_parseInfixExpression => parseInfixExpression fuel' leftExpression p1
              | fn_parseCallExpression => parseCallExpression fuel' leftExpression p1
              end in
            parseExpression_loop fuel' precedence leftExpression' p2
        end
      else Done leftExpression p
  end

with parsePrefixExpression (fuel : nat) (p : Parser) : Outcome (option Expression) :=
  match fuel with
  | O => OutOfFuel
  | S fuel' =>
      let tok := curToken p in
      let operator := Literal (curToken p) in
      let p1 := nextToken p in
      let* (rhs, p2) := parseExpression fuel' PREFIX p1 in
      Done (Some (PrefixExpression tok operator rhs)) p2
  end

with parseInfixExpression (fuel : nat) (lhs : option Expression) (p : Parser)
  : Outcome (option Expression) :=
  match fuel with
  | O => OutOfFuel
  | S fuel' =>
      let tok := curToken p in
      let operator := Literal (curToken p) in
      let precedence := curPrecedence p in
      let p1 := nextToken p in
      let* (rhs, p2) := parseExpression fuel' precedence p1 in
      Done (Some (InfixExpression tok lhs operator rhs)) p2
  end

with parseGroupedExpression (fuel : nat) (p : Parser) : Outcome (option Expression) :=
  match fuel with
  | O => OutOfFuel
  | S fuel' =>
      let p1 := nextToken p in
      let* (exp, p2) := parseExpression fuel' LOWEST p1 in
      let (ok, p3) := expectPeek p2 RPAREN in
      if negb ok then Done None p3 else Done exp p3
  end

with parseIfExpression (fuel : nat) (p : Parser) : Outcome (option Expression) :=
  match fuel with
  | O => OutOfFuel
  | S fuel' =>
      let tok := curToken p in
      let (ok, p1) := expectPeek p LPAREN in
      if negb ok then Done None p1 else
      let p2 := nextToken p1 in
      let* (condition, p3) := parseExpression fuel' LOWEST p2 in
      let (ok, p4) := expectPeek p3 RPAREN in
      if negb ok then Done None p4 else
      let (ok, p5) := expectPeek p4 LBRACE in
      if negb ok then Done None p5 else
      let* (consequence, p6) := parseBlockStatement fuel' p5 in
      if peekTokenIs p6 ELSE then
        let p7 := nextToken p6 in
        let (ok, p8) := expectPeek p7 LBRACE in
        if negb ok then Done None p8 else
        let* (alternative, p9) := parseBlockStatement fuel' p8 in
        Done (Some (IfExpression tok condition consequence alternative)) p9
      else Done (Some (IfExpression tok condition consequence None)) p6
  end

with parseFunctionLiteral (fuel : nat) (p : Parser) : Outcome (option Expression) :=
  match fuel with
  | O => OutOfFuel
  | S fuel' =>
      let tok := curToken p in
      let (ok, p1) := expectPeek p LPAREN in
      if negb ok then Done None p1 else
      let* (parameters, p2) := parseFunctionParameters fuel' p1 in
      let (ok, p3) := expectPeek p2 LBRACE in
      if negb ok then Done None p3 else
      let* (body, p4) := parseBlockStatement fuel' p3 in
      Done (Some (FunctionLiteral tok parameters body)) p4
  end

with parseBlockStatement (fuel : nat) (p : Parser) : Outcome (option BlockStatement) :=
  match fuel with
  | O => OutOfFuel
  | S fuel' =>
      let tok := curToken p in
      let p1 := nextToken p in
      let* (statements, p2) := parseBlockStatement_loop fuel' [] p1 in
      Done (Some (mkBlock tok statements)) p2
  end

with parseBlockStatement_loop (fuel : nat) (statements : list Statement) (p : Parser)
  : Outcome (list Statement) :=
  match fuel with
  | O => OutOfFuel
  | S fuel' =>
      if negb (curTokenIs p RBRACE) && negb (curTokenIs p EOF) then
        let* (stmt, p1) := parseStatement fuel' p in
        let statements' :=
          match stmt with
          | Some s => (statements ++ [s])%list
          | None => statements
          end in
        parseBlockStatement_loop fuel' statements' (nextToken p1)
      else Done statements p
  end

with parseCallExpression (fuel : nat) (function : option Expression) (p : Parser)
  : Outcome (option Expression) :=
  match fuel with
  | O => OutOfFuel
  | S fuel' =>
      let tok := curToken p in
      let* (arguments, p1) := parseCallArguments fuel' p in
      Done (Some (CallExpression tok function arguments)) p1
  end

with parseCallArguments (fuel : nat) (p : Parser)
  : Outcome (option (list (option Expression))) :=
  match fuel with
  | O => OutOfFuel
  | S fuel' =>
      if peekTokenIs p RPAREN then Done (Some []) (nextToken p)
      else
        let p1 := nextToken p in
        let* (arg, p2) := parseExpression fuel' LOWEST p1 in
        let* (args, p3) := parseCallArguments_loop fuel' [arg] p2 in
        let (ok, p4) := expectPeek p3 RPAREN in
        if negb ok then Done None p4 else Done (Some args) p4
  end

with parseCallArguments_loop (fuel : nat) (args : list (option Expression))
  (p : Parser) : Outcome (list (option Expression)) :=
  match fuel with
  | O => OutOfFuel
  | S fuel' =>
      if peekTokenIs p COMMA then
        let p1 := nextToken (nextToken p) in
        let* (arg, p2) := parseExpression fuel' LOWEST p1 in
        parseCallArguments_loop fuel' (args ++ [arg])%list p2
      else Done args p
  end.

(** The [for] loop of [ParseProgram]. *)
Fixpoint ParseProgram_loop (fuel : nat) (statements : list Statement) (p : Parser)
  : Outcome (list Statement) :=
  match fuel with
  | O => OutOfFuel
  | S fuel' =>
      if negb (String.eqb (Type_ (curToken p)) EOF) then
        let* (stmt, p1) := parseStatement fuel' p in
        let statements' :=
          match stmt with
          | Some s => (statements ++ [s])%list
          | None => statements
          end in
        ParseProgram_loop fuel' statements' (nextToken p1)
      else Done statements p
  end.

Definition ParseProgram (fuel : nat) (p : Parser) : Outcome Program :=
  let* (statements, p') := ParseProgram_loop fuel [] p in
  Done {| Statements := statements |} p'.

(** What [repl.Start] does with a line before it evaluates it: a fresh
    lexer and parser, then [ParseProgram]. *)
Definition parseSource (fuel : nat) (source : string) : Outcome Program :=
  ParseProgram fuel (New (lexer.New source)).

End parser.

(** ** Packages object and evaluator

    The repository's [object] and [evaluator] packages are not among the
    sources at hand (only [repl.Start] calls [object.NewEnvironment] and
    [evaluator.Eval]); they are modelled from the specification. *)

Module evaluator.
Import token ast.

Local Open Scope Z_scope.

(** A reference to an environment: its index in the store of environments.
    Environments are shared by reference between closures and call frames. *)
Definition EnvRef := nat.

(** The message of an [Error] value.  The specification fixes the kind of
    each message, not all of its text. *)
Inductive ErrorMessage : Type :=
| UnknownPrefixOperator (operator : string)
| UnknownInfixOperator (operator : string)
| TypeMismatch (operator : string)
| UnknownIdentifier (name : string)
| NotAFunction.

(** Modelled from the spec: the runtime values of section 3 (the [object]
    package is missing). *)
Inductive Object : Type :=
| Integer (value : Z)
| BooleanObject (value : bool)
| Null
| ReturnValue (value : Object)
| Function (parameters : list Identifier) (body : BlockStatement) (env : EnvRef)
| Error (message : ErrorMessage).

(** Modelled from the spec: an environment of section 3, a mapping from
    names to values and an optional enclosing environment (the [object]
    package is missing). *)
Record Environment := mkEnvironment {
  store : list (string * Object);
  outer : option EnvRef
}.

Definition Heap := list Environment.

Definition NewEnvironment (h : Heap) : EnvRef * Heap :=
  (List.length h, (h ++ [{| store := []; outer := None |}])%list).

Definition NewEnclosedEnvironment (enclosing : EnvRef) (h : Heap) : EnvRef * Heap :=
  (List.length h, (h ++ [{| store := []; outer := Some enclosing |}])%list).

Fixpoint updateAt (n : nat) (f : Environment -> Environment) (h : Heap) : Heap :=
  match h, n with
  | [], _ => []
  | e :: h', O => f e :: h'
  | e :: h', S n' => e :: updateAt n' f h'
  end.

(** Binding a name in one environment shadows what it held there. *)
Definition Set_ (env : EnvRef) (name : string) (v : Object) (h : Heap) : Heap :=
  updateAt env (fun e => {| store := (name, v) :: store e; outer := outer e |}) h.

(** Lookup through the chain: the environment, then the enclosing one, and
    so on.  The counter bounds the length of the chain that is followed. *)
Fixpoint Get (depth : nat) (env : EnvRef) (name : string) (h : Heap) : option Object :=
  match depth with
  | O => None
  | S depth' =>
      match nth_error h env with
      | None => None
      | Some e =>
          match lookup name (store e) with
          | Some v => Some v
          | None =>
              match outer e with
              | Some o => Get depth' o name h
              | None => None
              end
          end
      end
  end.

(** Only [false] and [Null] are falsy. *)
Definition isTruthy (o : Object) : bool :=
  match o with
  | Null => false
  | BooleanObject b => b
  | _ => true
  end.

Definition isError (o : Object) : bool :=
  match o with
  | Error _ => true
  | _ => false
  end.

(** Signed 64-bit wrap-around, the policy the specification defaults to. *)
Definition wrap64 (z : Z) : Z := (z + 2 ^ 63) mod 2 ^ 64 - 2 ^ 63.

(** What an evaluation step yields: a value (or none, for a statement that
    produces no value) and the store it leaves; [Unspecified] where the
    specification leaves the behaviour open (division by zero, arity
    mismatch, a node with a missing component); [NoFuel] when the bound on
    the recursion depth was too small. *)
Inductive Result (A : Type) : Type :=
| Value (a : A) (h : Heap)
| Unspecified
| NoFuel.
Arguments Value {A} a h.
Arguments Unspecified {A}.
Arguments NoFuel {A}.

(** A block in expression position: the specification does not say what a
    block that yields no value stands for there. *)
Definition needValue (r : Result (option Object)) : Result Object :=
  match r with
  | Value (Some v) h => Value v h
  | Value None _ => Unspecified
  | Unspecified => Unspecified
  | NoFuel => NoFuel
  end.

Definition sameKind (a b : Object) : bool :=
  match a, b with
  | Integer _, Integer _ | BooleanObject _, BooleanObject _ | Null, Null
  | ReturnValue _, ReturnValue _ | Function _ _ _, Function _ _ _
  | Error _, Error _ => true
  | _, _ => false
  end.

Definition evalPrefixExpression (operator : string) (right : Object) : Object :=
  if String.eqb operator "!" then BooleanObject (negb (isTruthy right))
  else if String.eqb operator "-" then
    match right with
    | Integer v => Integer (wrap64 (- v))
    | _ => Error (UnknownPrefixOperator operator)
    end
  else Error (UnknownPrefixOperator operator).

Definition evalIntegerInfixExpression (operator : string) (l r : Z) : option Object :=
  if String.eqb operator "+" then Some (Integer (wrap64 (l + r)))
  else if String.eqb operator "-" then Some (Integer (wrap64 (l - r)))
  else if String.eqb operator "*" then Some (Integer (wrap64 (l * r)))
  else if String.eqb operator "/" then
    if r =? 0 then None else Some (Integer (wrap64 (Z.quot l r)))
  else if String.eqb operator "<" then Some (BooleanObject (l <? r))
  else if String.eqb operator ">" then Some (BooleanObject (r <? l))
  else if String.eqb operator "==" then Some (BooleanObject (l =? r))
  else if String.eqb operator "!=" then Some (BooleanObject (negb (l =? r)))
  else Some (Error (UnknownInfixOperator operator)).

(** [None] where the specification leaves the result open. *)
Definition evalInfixExpression (operator : string) (l r : Object) : option Object :=
  match l, r with
  | Integer a, Integer b => evalIntegerInfixExpression operator a b
  | BooleanObject a, BooleanObject b =>
      if String.eqb operator "==" then Some (BooleanObject (Bool.eqb a b))
      else if String.eqb operator "!=" then Some (BooleanObject (negb (Bool.eqb a b)))
      else Some (Error (UnknownInfixOperator operator))
  | _, _ =>
      if sameKind l r then Some (Error (UnknownInfixOperator operator))
      else Some (Error (TypeMismatch operator))
  end.

(** Positional binding of parameters to arguments; [None] on an arity
    mismatch, which the specification leaves open. *)
Fixpoint bindParameters (env : EnvRef) (parameters : list Identifier)
  (args : list Object) (h : Heap) : option Heap :=
  match parameters, args with
  | [], [] => Some h
  | prm :: parameters', a :: args' =>
      bindParameters env parameters' args' (Set_ env (IdentValue prm) a h)
  | _, _ => None
  end.

Definition unwrapReturnValue (o : option Object) : option Object :=
  match o with
  | Some (ReturnValue v) => Some v
  | _ => o
  end.

Definition stops (o : option Object) : bool :=
  match o with
  | Some (ReturnValue _) | Some (Error _) => true
  | _ => false
  end.

(** Modelled from the spec: [Eval] of section 4.4, one function per kind of
    node (the [evaluator] package is missing). *)
Fixpoint evalExpression (fuel : nat) (e : Expression) (env : EnvRef) (h : Heap)
  : Result Object :=
  match fuel with
  | O => NoFuel
  | S fuel' =>
      match e with
      | IntegerLiteral _ v => Value (Integer v) h
      | Boolean _ b => Value (BooleanObject b) h
      | Ident i =>
          match Get (S (List.length h)) env (IdentValue i) h with
          | Some v => Value v h
          | None => Value (Error (UnknownIdentifier (IdentValue i))) h
          end
      | PrefixExpression _ operator (Some r) =>
          match evalExpression fuel' r env h with
          | Value rv h1 =>
              if isError rv then Value rv h1
              else Value (evalPrefixExpression operator rv) h1
          | Unspecified => Unspecified
          | NoFuel => NoFuel
          end
      | InfixExpression _ (Some l) operator (Some r) =>
          match evalExpression fuel' l env h with
          | Value lv h1 =>
              if isError lv then Value lv h1 else
              match evalExpression fuel' r env h1 with
              | Value rv h2 =>
                  if isError rv then Value rv h2 else
                  match evalInfixExpression operator lv rv with
                  | Some v => Value v h2
                  | None => Unspecified
                  end
              | Unspecified => Unspecified
              | NoFuel => NoFuel
              end
          | Unspecified => Unspecified
          | NoFuel => NoFuel
          end
      | IfExpression _ (Some c) (Some consequence) alternative =>
          match evalExpression fuel' c env h with
          | Value cv h1 =>
              if isError cv then Value cv h1
              else if isTruthy cv then needValue (evalBlock fuel' consequence env h1)
              else match alternative with
                   | Some a => needValue (evalBlock fuel' a env h1)
                   | None => Value Null h1
                   end
          | Unspecified => Unspecified
          | NoFuel => NoFuel
          end
      | FunctionLiteral _ (Some parameters) (Some body) =>
          Value (Function parameters body env) h
      | CallExpression _ (Some f) (Some arguments) =>
          match evalExpression fuel' f env h with
          | Value fv h1 =>
              if isError fv then Value fv h1 else
              match fv with
              | Function parameters body captured =>
                  match evalExpressions fuel' arguments env h1 with
                  | Value (inl args) h2 =>
                      let (callEnv, h3) := NewEnclosedEnvironment captured h2 in
                      match bindParameters callEnv parameters args h3 with
                      | Some h4 =>
                          match evalBlock fuel' body callEnv h4 with
                          | Value r h5 => needValue (Value (unwrapReturnValue r) h5)
                          | Unspecified => Unspecified
                          | NoFuel => NoFuel
                          end
                      | None => Unspecified
                      end
                  | Value (inr err) h2 => Value err h2
                  | Unspecified => Unspecified
                  | NoFuel => NoFuel
                  end
              | _ => Value (Error NotAFunction) h1
              end
          | Unspecified => Unspecified
          | NoFuel => NoFuel
          end
      | _ => Unspecified
      end
  end

(** Arguments, left to right: the values, or the first [Error]. *)
with evalExpressions (fuel : nat) (es : list (option Expression)) (env : EnvRef)
  (h : Heap) : Result (list Object + Object) :=
  match fuel with
  | O => NoFuel
  | S fuel' =>
      match es with
      | [] => Value (inl []) h
      | None :: _ => Unspecified
      | Some e :: es' =>
          match evalExpression fuel' e env h with
          | Value v h1 =>
              if isError v then Value (inr v) h1 else
              match evalExpressions fuel' es' env h1 with
              | Value (inl vs) h2 => Value (inl (v :: vs)) h2
              | r => r
              end
          | Unspecified => Unspecified
          | NoFuel => NoFuel
          end
      end
  end

with evalStatement (fuel : nat) (s : Statement) (env : EnvRef) (h : Heap)
  : Result (option Object) :=
  match fuel with
  | O => NoFuel
  | S fuel' =>
      match s with
      | LetStmt (Some (mkLet _ (Some name) (Some value))) =>
          match evalExpression fuel' value env h with
          | Value v h1 =>
              if isError v then Value (Some v) h1
              else Value None (Set_ env (IdentValue name) v h1)
          | Unspecified => Unspecified
          | NoFuel => NoFuel
          end
      | ReturnStmt (Some (mkReturn _ (Some value))) =>
          match evalExpression fuel' value env h with
          | Value v h1 =>
              if isError v then Value (Some v) h1
              else Value (Some (ReturnValue v)) h1
          | Unspecified => Unspecified
          | NoFuel => NoFuel
          end
      | ReturnStmt (Some (mkReturn _ None)) => Value (Some (ReturnValue Null)) h
      | ExpressionStmt (Some (mkExpressionStatement _ (Some e))) =>
          match evalExpression fuel' e env h with
          | Value v h1 => Value (Some v) h1
          | Unspecified => Unspecified
          | NoFuel => NoFuel
          end
      | BlockStmt (Some b) => evalBlock fuel' b env h
      | _ => Unspecified
      end
  end

with evalBlock (fuel : nat) (b : BlockStatement) (env : EnvRef) (h : Heap)
  : Result (option Object) :=
  match fuel with
  | O => NoFuel
  | S fuel' =>
      match b with
      | mkBlock _ statements => evalStatements fuel' statements None env h
      end
  end

(** Statements in order; [last] is the value of the statement before. *)
with evalStatements (fuel : nat) (l : list Statement) (last : option Object)
  (env : EnvRef) (h : Heap) : Result (option Object) :=
  match fuel with
  | O => NoFuel
  | S fuel' =>
      match l with
      | [] => Value last h
      | s :: l' =>
          match evalStatement fuel' s env h with
          | Value v h1 =>
              if stops v then Value v h1
              else evalStatements fuel' l' v env h1
          | Unspecified => Unspecified
          | NoFuel => NoFuel
          end
      end
  end.

Definition evalProgram (fuel : nat) (prog : Program) (env : EnvRef) (h : Heap)
  : Result (option Object) :=
  evalStatements fuel (Statements prog) None env h.

End evaluator.

(** ** The pipeline of [repl.Start] on one line in a fresh environment *)

Module repl.
Import parser evaluator.

(** The value (if any) that evaluating [source] yields; [None] when the
    fuel is too small, when the parser recorded errors (the line is then not
    evaluated) or when the evaluation is left open by the specification. *)
Definition evalSource (fuel : nat) (source : string) : option (option Object) :=
  match parseSource fuel source with
  | Done prog p =>
      match Errors p with
      | [] =>
          let (env, h) := NewEnvironment [] in
          match evalProgram fuel prog env h with
          | Value v _ => Some v
          | _ => None
          end
      | _ => None
      end
  | OutOfFuel => None
  end.

End repl.

(** * Notions used in the statements *)

Import token lexer ast parser evaluator repl.

(** What holds of every lexer that [New] and [NextToken] produce: the read
    cursor is one ahead, and the current byte is the byte of the input at
    the cursor, or the sentinel past the end. *)
Definition cursor_ok (lex : Lexer) : Prop :=
  readPosition lex = S (position lex) /\
  char lex = if (String.length (input lex) <=? position lex)%nat
             then NUL
             else byteAt (input lex) (position lex).

(** The end-of-input token. *)
Definition EOFToken : Token := {| Type_ := EOF; Literal := "" |}.

(** The statement of monotonicity for the sixteen mutually recursive
    methods, at one amount [n] of fuel. *)
Definition parse_mono_at (n : nat) : Prop :=
  (forall m p a q, n <= m ->
     parseStatement n p = Done a q -> parseStatement m p = Done a q) /\
  (forall m p a q, n <= m ->
     parseLetStatement n p = Done a q -> parseLetStatement m p = Done a q) /\
  (forall m p a q, n <= m ->
     parseReturnStatement n p = Done a q -> parseReturnStatement m p = Done a q) /\
  (forall m p a q, n <= m ->
     parseExpressionStatement n p = Done a q ->
     parseExpressionStatement m p = Done a q) /\
  (forall m prec p a q, n <= m ->
     parseExpression n prec p = Done a q -> parseExpression m prec p = Done a q) /\
  (forall m prec l p a q, n <= m ->
     parseExpression_loop n prec l p = Done a q ->
     parseExpression_loop m prec l p = Done a q) /\
  (forall m p a q, n <= m ->
     parsePrefixExpression n p = Done a q -> parsePrefixExpression m p = Done a q) /\
  (forall m l p a q, n <= m ->
     parseInfixExpression n l p = Done a q -> parseInfixExpression m l p = Done a q) /\
  (forall m p a q, n <= m ->
     parseGroupedExpression n p = Done a q ->
     parseGroupedExpression m p = Done a q) /\
  (forall m p a q, n <= m ->
     parseIfExpression n p = Done a q -> parseIfExpression m p = Done a q) /\
  (forall m p a q, n <= m ->
     parseFunctionLiteral n p = Done a q -> parseFunctionLiteral m p = Done a q) /\
  (forall m p a q, n <= m ->
     parseBlockStatement n p = Done a q -> parseBlockStatement m p = Done a q) /\
  (forall m l p a q, n <= m ->
     parseBlockStatement_loop n l p = Done a q ->
     parseBlockStatement_loop m l p = Done a q) /\
  (forall m f p a q, n <= m ->
     parseCallExpression n f p = Done a q -> parseCallExpression m f p = Done a q) /\
  (forall m p a q, n <= m ->
     parseCallArguments n p = Done a q -> parseCallArguments m p = Done a q) /\
  (forall m l p a q, n <= m ->
     parseCallArguments_loop n l p = Done a q ->
     parseCallArguments_loop m l p = Done a q).

(** What the parse methods read of a parser: the lexer and the two
    buffered tokens. *)
Definition window (p : Parser) : Lexer * Token * Token :=
  (lex p, curToken p, peekToken p).

(** The parser after [k] calls of [nextToken]. *)
Fixpoint advance (k : nat) (p : Parser) : Parser :=
  match k with
  | O => p
  | S k' => advance k' (nextToken p)
  end.

(** [q] reads what [p] reads after some number of [nextToken] calls. *)
Definition reaches (p q : Parser) : Prop :=
  exists k, window q = window (advance k p).

(** Every method leaves a parser that the one it was given reaches: the
    statement for the sixteen mutually recursive methods, at fuel [n]. *)
Definition parse_reaches_at (n : nat) : Prop :=
  (forall p a q, parseStatement n p = Done a q -> reaches p q) /\
  (forall p a q, parseLetStatement n p = Done a q -> reaches p q) /\
  (forall p a q, parseReturnStatement n p = Done a q -> reaches p q) /\
  (forall p a q, parseExpressionStatement n p = Done a q -> reaches p q) /\
  (forall prec p a q, parseExpression n prec p = Done a q -> reaches p q) /\
  (forall prec l p a q, parseExpression_loop n prec l p = Done a q -> reaches p q) /\
  (forall p a q, parsePrefixExpression n p = Done a q -> reaches p q) /\
  (forall l p a q, parseInfixExpression n l p = Done a q -> reaches p q) /\
  (forall p a q, parseGroupedExpression n p = Done a q -> reaches p q) /\
  (forall p a q, parseIfExpression n p = Done a q -> reaches p q) /\
  (forall p a q, parseFunctionLiteral n p = Done a q -> reaches p q) /\
  (forall p a q, parseBlockStatement n p = Done a q -> reaches p q) /\
  (forall l p a q, parseBlockStatement_loop n l p = Done a q -> reaches p q) /\
  (forall f p a q, parseCallExpression n f p = Done a q -> reaches p q) /\
  (forall p a q, parseCallArguments n p = Done a q -> reaches p q) /\
  (forall l p a q, parseCallArguments_loop n l p = Done a q -> reaches p q).

(** No token from the current one on is a semicolon. *)
Definition no_semicolon_ahead (p : Parser) : Prop :=
  forall k, curTokenIs (advance k p) SEMICOLON = false.

(** A parser at rest past the end of the input: the lexer is exhausted and
    the lookahead is the end-of-input token. *)
Definition at_rest (p : Parser) : Prop :=
  cursor_ok (lex p) /\
  String.length (input (lex p)) <= position (lex p) /\
  Type_ (peekToken p) = EOF.

(** A check that decides [no_semicolon_ahead] for a source text: none of
    the first [k0] tokens is a semicolon, and after them the parser is at
    rest. *)
Definition noSemicolonWithin (k0 : nat) (src : string) : bool :=
  let p := New (lexer.New src) in
  forallb (fun k => negb (curTokenIs (advance k p) SEMICOLON)) (seq 0 (S k0))
  && (String.length src <=? position (lex (advance k0 p)))%nat
  && String.eqb (Type_ (peekToken (advance k0 p))) EOF.

(** The nodes that the parser builds from lexed tokens, for the statements
    about concrete sources: an integer literal, an identifier, an infix
    expression, an expression statement and a call. *)
Definition intLit (literal : string) (value : Z) : Expression :=
  IntegerLiteral {| Type_ := INT; Literal := literal |} value.

Definition ident (name : string) : Expression :=
  Ident {| IdentToken := {| Type_ := IDENTIFIER; Literal := name |};
           IdentValue := name |}.

Definition infix (l : Expression) (operator : string) (r : Expression) : Expression :=
  InfixExpression {| Type_ := operator; Literal := operator |}
    (Some l) operator (Some r).

Definition exprStmt (tok : Token) (e : Expression) : Statement :=
  ExpressionStmt (Some (mkExpressionStatement tok (Some e))).

(** The eight operators that [parseInfixExpression] handles. *)
Definition infixOperators : list string :=
  ["+"; "-"; "*"; "/"; "=="; "!="; "<"; ">"].

Definition callOf (f : Expression) (args : option (list (option Expression)))
  : Expression :=
  CallExpression {| Type_ := LPAREN; Literal := "(" |} (Some f) args.

(** The parser of "add(1 2" when [parseCallArguments] is called: current
    token "(" and lookahead "1". *)
Definition atCallArguments : Parser := nextToken (New (lexer.New "add(1 2")).

(** Every byte is a decimal digit. *)
Fixpoint allDigits (s : string) : bool :=
  match s with
  | EmptyString => true
  | String c rest => isDigit c && allDigits rest
  end.

(** A run of digits that is not empty and does not start with 0. *)
Definition isDecimalRun (s : string) : bool :=
  match s with
  | EmptyString => false
  | String c _ => negb (Ascii.eqb c "0") && allDigits s
  end.

(** The number that the digits of [s] denote in base 10, after [acc]. *)
Fixpoint decimalValue (acc : Z) (s : string) : Z :=
  match s with
  | EmptyString => acc
  | String c rest => decimalValue (acc * 10 + (strconv.code c - 48))%Z rest
  end.

(** The parser of the source "9223372036854775808" (2^63), as
    [parseIntegerLiteral] finds it. *)
Definition atOverflow : Parser := New (lexer.New "9223372036854775808").

(** More fuel never changes a value of the evaluator: the statement for
    its five mutually recursive functions, at fuel [n]. *)
Definition eval_mono_at (n : nat) : Prop :=
  (forall m e env h v h', n <= m ->
     evalExpression n e env h = Value v h' ->
     evalExpression m e env h = Value v h') /\
  (forall m es env h v h', n <= m ->
     evalExpressions n es env h = Value v h' ->
     evalExpressions m es env h = Value v h') /\
  (forall m s env h v h', n <= m ->
     evalStatement n s env h = Value v h' ->
     evalStatement m s env h = Value v h') /\
  (forall m b env h v h', n <= m ->
     evalBlock n b env h = Value v h' ->
     evalBlock m b env h = Value v h') /\
  (forall m l last env h v h', n <= m ->
     evalStatements n l last env h = Value v h' ->
     evalStatements m l last env h = Value v h').

(** The handler tables are those that [New] registers. *)
Definition handlersOfNew (p : Parser) : Prop :=
  prefixParseFns p = prefixParseFns (New (lexer.New "")) /\
  infixParseFns p = infixParseFns (New (lexer.New "")).

(** The lookahead ends an expression parsed at precedence [prec]: it is a
    semicolon or binds no tighter than [prec]. *)
Definition expressionEnds (prec : Z) (p : Parser) : Prop :=
  negb (peekTokenIs p SEMICOLON) && (prec <? peekPrecedence p)%Z = false.

(** The let statement of "let x = 1 + 2;". *)
Definition let_x_1_2 : LetStatement :=
  mkLet {| Type_ := LET; Literal := "let" |}
    (Some {| IdentToken := {| Type_ := IDENTIFIER; Literal := "x" |};
             IdentValue := "x" |})
    (Some (infix (intLit "1" 1) "+" (intLit "2" 2))).

(** The tokens whose literal is fixed by their kind: operators, delimiters,
    end of input and keywords. *)
Definition fixedTokens : list (TokenType * string) :=
  [ (ASSIGN, "="); (PLUS, "+"); (MINUS, "-"); (BANG, "!"); (ASTERISK, "*");
    (SLASH, "/"); (LT, "<"); (GT, ">"); (COMMA, ","); (SEMICOLON, ";");
    (LPAREN, "("); (RPAREN, ")"); (LBRACE, "{"); (RBRACE, "}");
    (EQ, "=="); (NOT_EQ, "!="); (EOF, "");
    (FUNCTION, "fn"); (LET, "let"); (TRUE, "true"); (FALSE, "false");
    (IF, "if"); (ELSE, "else"); (RETURN, "return") ].

(** Every byte is a letter or an underscore. *)
Fixpoint allLetters (s : string) : bool :=
  match s with
  | EmptyString => true
  | String c rest => isLetter c && allLetters rest
  end.

(** [fmt.Printf("%+v\n", tok)] for a [token.Token]: the line printed. *)
Definition printToken (tok : Token) : string :=
  "{Type:" ++ Type_ tok ++ " Literal:" ++ Literal tok ++ "}"
  ++ String (ascii_of_nat 10) EmptyString.

(** The loop of [StartLexer] over one line,
    [for tok := lex.NextToken(); tok.Type != token.EOF; tok = lex.NextToken()],
    with the lines it prints; [None] when the bound on the iterations is
    too small. *)
Fixpoint StartLexer_loop (fuel : nat) (lex : Lexer) : option (list string) :=
  match fuel with
  | O => None
  | S fuel' =>
      let (tok, lex') := NextToken lex in
      if negb (String.eqb (Type_ tok) EOF)
      then option_map (cons (printToken tok)) (StartLexer_loop fuel' lex')
      else Some []
  end.

Definition StartLexer_line (fuel : nat) (line : string) : option (list string) :=
  StartLexer_loop fuel (lexer.New line).

(** [q] is [p] moved forward: its window is that of [p] after some
    [nextToken] calls, its errors are those of [p] followed by new ones, and
    its handler tables are those of [p]. *)
Definition grows (p q : Parser) : Prop :=
  reaches p q /\
  (exists es, errors q = (errors p ++ es)%list) /\
  prefixParseFns q = prefixParseFns p /\
  infixParseFns q = infixParseFns p.

(** The statement for the sixteen mutually recursive methods, at fuel [n]. *)
Definition parse_grows_at (n : nat) : Prop :=
  (forall p a q, parseStatement n p = Done a q -> grows p q) /\
  (forall p a q, parseLetStatement n p = Done a q -> grows p q) /\
  (forall p a q, parseReturnStatement n p = Done a q -> grows p q) /\
  (forall p a q, parseExpressionStatement n p = Done a q -> grows p q) /\
  (forall prec p a q, parseExpression n prec p = Done a q -> grows p q) /\
  (forall prec l p a q, parseExpression_loop n prec l p = Done a q -> grows p q) /\
  (forall p a q, parsePrefixExpression n p = Done a q -> grows p q) /\
  (forall l p a q, parseInfixExpression n l p = Done a q -> grows p q) /\
  (forall p a q, parseGroupedExpression n p = Done a q -> grows p q) /\
  (forall p a q, parseIfExpression n p = Done a q -> grows p q) /\
  (forall p a q, parseFunctionLiteral n p = Done a q -> grows p q) /\
  (forall p a q, parseBlockStatement n p = Done a q -> grows p q) /\
  (forall l p a q, parseBlockStatement_loop n l p = Done a q -> grows p q) /\
  (forall f p a q, parseCallExpression n f p = Done a q -> grows p q) /\
  (forall p a q, parseCallArguments n p = Done a q -> grows p q) /\
  (forall l p a q, parseCallArguments_loop n l p = Done a q -> grows p q).

Definition nerr (p : Parser) : nat := List.length (errors p).

(** [o] is a value, not the [None] of a panic or a nil *)
Definition present {A : Type} (o : option A) : Prop := exists a, o = Some a.

Definition goodE (o : option Expression) : Prop :=
  exists e, o = Some e /\ present (ExpressionString e).

Definition goodS (o : option Statement) : Prop :=
  exists s, o = Some s /\ present (StatementString s).

Definition goodLet (o : option LetStatement) : Prop :=
  exists s, o = Some s /\ present (LetStatementString s).

Definition goodReturn (o : option ReturnStatement) : Prop :=
  exists s, o = Some s /\ present (ReturnStatementString s).

Definition goodExpressionStatement (o : option ExpressionStatement) : Prop :=
  exists s, o = Some s /\ present (ExpressionStatementString s).

Definition goodB (o : option BlockStatement) : Prop :=
  exists b, o = Some b /\ present (BlockStatementString b).

Definition goodL (l : list Statement) : Prop := present (StatementsString l).

Definition goodArgs (l : list (option Expression)) : Prop := Forall goodE l.

(** The loop over the arguments in [CallExpression.String]. *)
Fixpoint ArgumentsString (l : list (option Expression)) : option (list string) :=
  match l with
  | [] => Some []
  | a :: l' =>
      s <- match a with Some x => ExpressionString x | None => None end ;;
      ss <- ArgumentsString l' ;;
      Some (s :: ss)
  end.

(** The statement for the sixteen mutually recursive methods, at fuel [n]:
    a method that returns without a new error returns a node whose [String]
    is defined. *)
Definition parse_good_at (n : nat) : Prop :=
  (forall p a q, parseStatement n p = Done a q -> nerr q = nerr p -> goodS a) /\
  (forall p a q, parseLetStatement n p = Done a q -> nerr q = nerr p -> goodLet a) /\
  (forall p a q, parseReturnStatement n p = Done a q -> nerr q = nerr p ->
     goodReturn a) /\
  (forall p a q, parseExpressionStatement n p = Done a q -> nerr q = nerr p ->
     goodExpressionStatement a) /\
  (forall prec p a q, parseExpression n prec p = Done a q -> nerr q = nerr p ->
     goodE a) /\
  (forall prec l p a q, parseExpression_loop n prec l p = Done a q ->
     nerr q = nerr p -> goodE l -> goodE a) /\
  (forall p a q, parsePrefixExpression n p = Done a q -> nerr q = nerr p -> goodE a) /\
  (forall l p a q, parseInfixExpression n l p = Done a q -> nerr q = nerr p ->
     goodE l -> goodE a) /\
  (forall p a q, parseGroupedExpression n p = Done a q -> nerr q = nerr p -> goodE a) /\
  (forall p a q, parseIfExpression n p = Done a q -> nerr q = nerr p -> goodE a) /\
  (forall p a q, parseFunctionLiteral n p = Done a q -> nerr q = nerr p -> goodE a) /\
  (forall p a q, parseBlockStatement n p = Done a q -> nerr q = nerr p -> goodB a) /\
  (forall l p a q, parseBlockStatement_loop n l p = Done a q -> nerr q = nerr p ->
     goodL l -> goodL a) /\
  (forall f p a q, parseCallExpression n f p = Done a q -> nerr q = nerr p ->
     goodE f -> goodE a) /\
  (forall p a q, parseCallArguments n p = Done a q -> nerr q = nerr p ->
     forall l, a = Some l -> goodArgs l) /\
  (forall l p a q, parseCallArguments_loop n l p = Done a q -> nerr q = nerr p ->
     goodArgs l -> goodArgs a).

(** Token number [i] of the source, counted from 0. *)
Definition tokAt (src : string) (i : nat) : Token :=
  fst (NextToken (afterTokens i (lexer.New src))).

(** The parser stands at token [j] of the source: the current token is
    token [j], the lookahead is token [j + 1], the lexer has produced both,
    and the handler tables are those of [New]. *)
Definition At (src : string) (j : nat) (p : Parser) : Prop :=
  curToken p = tokAt src j /\
  peekToken p = tokAt src (S j) /\
  lex p = afterTokens (S (S j)) (lexer.New src) /\
  handlersOfNew p.

(** A method called at token [j] returns, at that token or a later one. *)
Definition returnsFrom {A : Type} (src : string) (j : nat) (o : Outcome A) : Prop :=
  exists a j' q, o = Done a q /\ At src j' q /\ j <= j'.

(** No token of the source is the keyword [let] or [return]. *)
Definition noLetReturn (src : string) : Prop :=
  forall i, Type_ (tokAt src i) <> LET /\ Type_ (tokAt src i) <> RETURN.

(** The check that decides it: the tokens from number [len(src)] on are
    end-of-input tokens. *)
Definition noLetReturnTokens (src : string) : bool :=
  forallb (fun t => negb (String.eqb (Type_ t) LET) && negb (String.eqb (Type_ t) RETURN))
    (tokens (String.length src) (lexer.New src)).

(** With [r] tokens left, fuel [5 * r + b] is enough, [b] by method: the
    statement for the fourteen methods that such a source reaches, at fuel
    [n]. *)
Definition parse_returns_at (src : string) (n : nat) : Prop :=
  let N := String.length src in
  (forall j p, At src j p -> 5 * (N - j) + 3 < n ->
     returnsFrom src j (parseStatement n p)) /\
  (forall j p, At src j p -> 5 * (N - j) + 2 < n ->
     returnsFrom src j (parseExpressionStatement n p)) /\
  (forall prec j p, At src j p -> 5 * (N - j) + 1 < n ->
     returnsFrom src j (parseExpression n prec p)) /\
  (forall prec l j p, At src j p -> 5 * (N - j) < n ->
     returnsFrom src j (parseExpression_loop n prec l p)) /\
  (forall j p, At src j p -> j < N /\ 5 * (N - j) < n ->
     returnsFrom src j (parsePrefixExpression n p)) /\
  (forall l j p, At src j p -> j < N /\ 5 * (N - j) < n ->
     returnsFrom src j (parseInfixExpression n l p)) /\
  (forall j p, At src j p -> j < N /\ 5 * (N - j) < n ->
     returnsFrom src j (parseGroupedExpression n p)) /\
  (forall j p, At src j p -> 5 * (N - j) < n ->
     returnsFrom src j (parseIfExpression n p)) /\
  (forall j p, At src j p -> 5 * (N - j) < n ->
     returnsFrom src j (parseFunctionLiteral n p)) /\
  (forall j p, At src j p -> j < N /\ 5 * (N - j) < n ->
     returnsFrom src j (parseBlockStatement n p)) /\
  (forall l j p, At src j p -> 5 * (N - j) + 4 < n ->
     returnsFrom src j (parseBlockStatement_loop n l p)) /\
  (forall f j p, At src j p -> j < N /\ 5 * (N - j) + 2 < n ->
     returnsFrom src j (parseCallExpression n f p)) /\
  (forall j p, At src j p -> j < N /\ 5 * (N - j) + 1 < n ->
     returnsFrom src j (parseCallArguments n p)) /\
  (forall l j p, At src j p -> 5 * (N - j) < n ->
     returnsFrom src j (parseCallArguments_loop n l p)).

(** The entry of a binary operator in the precedence table. *)
Definition precedenceOf (op : string) : Z :=
  match lookup op precedences with
  | Some prec => prec
  | None => LOWEST
  end.

(** The source parses with the given fuel, without an error, to a program
    whose rendering is [out]. *)
Definition rendersAs (fuel : nat) (source out : string) : Prop :=
  exists prog q,
    parseSource fuel source = Done prog q /\
    Errors q = [] /\
    ProgramString prog = Some out.

(** The token kinds for which [New] registers a prefix handler. *)
Definition prefixKinds : list TokenType :=
  [IDENTIFIER; INT; BANG; MINUS; TRUE; FALSE; LPAREN; IF; FUNCTION].

(** The bytes of [s] from index [n] on: [s[n:]]. *)
Fixpoint dropBytes (n : nat) (s : string) : string :=
  match n, s with
  | O, _ => s
  | S n', String _ s' => dropBytes n' s'
  | S _, EmptyString => EmptyString
  end.

(** What the lexer has not read yet. *)
Definition remaining (l : Lexer) : string := dropBytes (position l) (input l).

(** The string without its blanks, tabs, line feeds and carriage returns. *)
Fixpoint stripWhitespace (s : string) : string :=
  match s with
  | EmptyString => EmptyString
  | String c s' =>
      if isWhitespace c then stripWhitespace s' else String c (stripWhitespace s')
  end.

(** Every byte is an ASCII byte other than the zero byte. *)
Fixpoint plain (s : string) : bool :=
  match s with
  | EmptyString => true
  | String c s' =>
      negb (Ascii.eqb c NUL) && (nat_of_ascii c <? 128)%nat && plain s'
  end.

(** Every byte satisfies [cond]. *)
Fixpoint allOf (cond : ascii -> bool) (s : string) : bool :=
  match s with
  | EmptyString => true
  | String c s' => cond c && allOf cond s'
  end.

(** The literals of the tokens, one after the other. *)
Fixpoint literals (toks : list Token) : string :=
  match toks with
  | [] => EmptyString
  | t :: toks' => Literal t ++ literals toks'
  end.

(** The statement is of the dynamic type that the current token selects,
    and an expression statement is never a nil pointer. *)
Definition statementFor (tok : Token) (s : Statement) : Prop :=
  match s with
  | LetStmt _ => Type_ tok = LET
  | ReturnStmt _ => Type_ tok = RETURN
  | ExpressionStmt (Some _) => Type_ tok <> LET /\ Type_ tok <> RETURN
  | _ => False
  end.

(** Every byte is a printable ASCII byte other than the double quote and
    the backslash: the bytes that [%q] writes as they are. *)
Fixpoint printableASCII (s : string) : bool :=
  match s with
  | EmptyString => true
  | String c rest =>
      ((32 <=? strconv.code c)%Z && (strconv.code c <=? 126)%Z
       && negb (strconv.code c =? 34)%Z && negb (strconv.code c =? 92)%Z)
      && printableASCII rest
  end.

(** The error message of [parseIntegerLiteral] for a literal that [%q]
    writes as it is: the literal stands between two double quotes. *)
Definition quotedLiteralMessage (literal : string) : string :=
  "could not parse "
  ++ String strconv.dquote (literal ++ String strconv.dquote " as integer").

(** The message without the quotes. *)
Definition unquotedLiteralMessage (literal : string) : string :=
  "could not parse " ++ literal ++ " as integer".

(** Every byte is an octal digit. *)
Fixpoint allOctal (s : string) : bool :=
  match s with
  | EmptyString => true
  | String c rest => byte_le "0" c && byte_le c "7" && allOctal rest
  end.

(** The number that the digits of [s] denote in base 8, after [acc]. *)
Fixpoint octalValue (acc : Z) (s : string) : Z :=
  match s with
  | EmptyString => acc
  | String c rest => octalValue (acc * 8 + (strconv.code c - 48))%Z rest
  end.

(** The operators and right operands that follow a left operand, every
    operator binary and of precedence [P].  From [p] the lookahead is the
    operator [op]; the expression behind it, parsed at precedence [P] (the
    call that [parseInfixExpression] makes for its right operand), is [e],
    and that parse leaves the parser [q], from which the chain goes on, up
    to the parser [pend]. *)
Inductive operands (P : Z) : Parser -> list (Token * Expression) -> Parser -> Prop :=
| operands_nil (p : Parser) : operands P p [] p
| operands_cons (p q pend : Parser) (op : Token) (e : Expression) (k : nat)
    (rest : list (Token * Expression)) :
    peekToken p = op ->
    In (Type_ op) infixOperators ->
    lookup (Type_ op) precedences = Some P ->
    parseExpression k P (nextToken (nextToken p)) = Done (Some e) q ->
    operands P q rest pend ->
    operands P p ((op, e) :: rest) pend.

(** The tree that nests to the left: [((l op1 e1) op2 e2) ...]. *)
Fixpoint leftNested (l : Expression) (rest : list (Token * Expression)) : Expression :=
  match rest with
  | [] => l
  | (op, e) :: rest' =>
      leftNested (InfixExpression op (Some l) (Literal op) (Some e)) rest'
  end.

(** Its rendering, from the rendering [s] of the left operand: every
    operator wraps what is to its left, and its right operand, in one pair
    of parentheses. *)
Fixpoint leftNestedString (s : option string) (rest : list (Token * Expression))
  : option string :=
  match rest with
  | [] => s
  | (op, e) :: rest' =>
      leftNestedString
        (l <- s ;;
         r <- ExpressionString e ;;
         ret ("(" ++ l ++ " " ++ Literal op ++ " " ++ r ++ ")"))
        rest'
  end.

(** The operands of "5 + 5 + 5 + 5 - 10" after the first. *)
Definition chain_5_5_5_5_10 : list (Token * Expression) :=
  [ ({| Type_ := PLUS; Literal := "+" |}, intLit "5" 5);
    ({| Type_ := PLUS; Literal := "+" |}, intLit "5" 5);
    ({| Type_ := PLUS; Literal := "+" |}, intLit "5" 5);
    ({| Type_ := MINUS; Literal := "-" |}, intLit "10" 10) ].

(** * Properties *)

(** ** The lexer *)

Section LexerLoops.

Variable cond : ascii -> bool.
Hypothesis cond_NUL : cond NUL = false.

Lemma readWhile_NUL (n : nat) (lex : Lexer) :
  char lex = NUL -> readWhile cond n lex = lex.
Proof.
  intros Hc. destruct n as [|n]; simpl; [reflexivity|].
  now rewrite Hc, cond_NUL.
Qed.

Lemma readChar_past_end (lex : Lexer) :
  String.length (input lex) <= readPosition lex -> char (readChar lex) = NUL.
Proof.
  intros H. unfold readChar; simpl.
  apply Nat.leb_le in H. now rewrite H.
Qed.

(** More iterations than bytes left change nothing. *)
Lemma readWhile_stable (n : nat) :
  forall lex, String.length (input lex) - readPosition lex < n ->
    readWhile cond (S n) lex = readWhile cond n lex.
Proof.
  induction n as [|n IH]; intros lex Hlt; [lia|].
  change (readWhile cond (S (S n)) lex)
    with (if cond (char lex) then readWhile cond (S n) (readChar lex) else lex).
  change (readWhile cond (S n) lex)
    with (if cond (char lex) then readWhile cond n (readChar lex) else lex).
  destruct (cond (char lex)); [|reflexivity].
  destruct (Nat.le_gt_cases (String.length (input lex)) (readPosition lex)) as [Hend|Hin].
  - rewrite !readWhile_NUL; auto using readChar_past_end.
  - apply IH. simpl. lia.
Qed.

(** The loop equation of [for cond(lex.char) { lex.readChar() }]. *)
Lemma readLoop_unfold (lex : Lexer) :
  readLoop cond lex = if cond (char lex) then readLoop cond (readChar lex) else lex.
Proof.
  unfold readLoop at 1.
  change (readWhile cond (S (String.length (input lex))) lex)
    with (if cond (char lex)
          then readWhile cond (String.length (input lex)) (readChar lex) else lex).
  destruct (cond (char lex)); [|reflexivity].
  unfold readLoop. change (input (readChar lex)) with (input lex).
  destruct (Nat.le_gt_cases (String.length (input lex)) (readPosition lex)) as [Hend|Hin].
  - rewrite !readWhile_NUL; auto using readChar_past_end.
  - symmetry. apply readWhile_stable. simpl. lia.
Qed.

End LexerLoops.

Lemma isWhitespace_NUL : isWhitespace NUL = false.
Proof. reflexivity. Qed.

Lemma isLetter_NUL : isLetter NUL = false.
Proof. reflexivity. Qed.

Lemma isDigit_NUL : isDigit NUL = false.
Proof. reflexivity. Qed.

Lemma cursor_ok_readChar (lex : Lexer) : cursor_ok (readChar lex).
Proof. split; simpl; [lia|reflexivity]. Qed.

Lemma cursor_ok_past_end (lex : Lexer) :
  cursor_ok lex -> String.length (input lex) <= position lex -> char lex = NUL.
Proof.
  intros [_ Hc] Hend. apply Nat.leb_le in Hend. now rewrite Hend in Hc.
Qed.

Lemma cursor_ok_New (src : string) : cursor_ok (lexer.New src).
Proof. apply cursor_ok_readChar. Qed.

Lemma cursor_ok_readWhile (cond : ascii -> bool) (n : nat) :
  forall lex, cursor_ok lex -> cursor_ok (readWhile cond n lex).
Proof.
  induction n as [|n IH]; intros lex H; simpl; [assumption|].
  destruct (cond (char lex)); [|assumption].
  apply IH, cursor_ok_readChar.
Qed.

Lemma cursor_ok_readLoop (cond : ascii -> bool) (lex : Lexer) :
  cursor_ok lex -> cursor_ok (readLoop cond lex).
Proof. apply cursor_ok_readWhile. Qed.

Lemma cursor_ok_NextToken (lex : Lexer) :
  cursor_ok lex -> cursor_ok (snd (NextToken lex)).
Proof.
  intros H. unfold NextToken.
  assert (Hs : cursor_ok (skipWhitespace lex)) by now apply cursor_ok_readLoop.
  set (l := skipWhitespace lex) in *.
  unfold readIdentifier, readNumber.
  repeat match goal with
         | |- context [if ?b then _ else _] => destruct b
         end;
    simpl; auto using cursor_ok_readChar, cursor_ok_readLoop.
Qed.

Lemma cursor_ok_afterTokens (n : nat) :
  forall lex, cursor_ok lex -> cursor_ok (afterTokens n lex).
Proof.
  induction n as [|n IH]; intros lex H; simpl; [assumption|].
  apply IH, cursor_ok_NextToken, H.
Qed.

Lemma input_readWhile (cond : ascii -> bool) (n : nat) :
  forall lex, input (readWhile cond n lex) = input lex.
Proof.
  induction n as [|n IH]; intros lex; simpl; [reflexivity|].
  destruct (cond (char lex)); [rewrite IH|]; reflexivity.
Qed.

Lemma input_NextToken (lex : Lexer) : input (snd (NextToken lex)) = input lex.
Proof.
  assert (Hs : input (skipWhitespace lex) = input lex) by apply input_readWhile.
  unfold NextToken, readIdentifier, readNumber.
  set (l := skipWhitespace lex) in *.
  repeat match goal with
         | |- context [if ?b then _ else _] => destruct b
         end;
    unfold readLoop, readChar; cbn [input snd]; now rewrite ?input_readWhile.
Qed.

Lemma input_afterTokens (n : nat) (src : string) :
  input (afterTokens n (lexer.New src)) = src.
Proof.
  change src with (input (lexer.New src)) at 2.
  generalize (lexer.New src). induction n as [|n IH]; intros lex; simpl; [reflexivity|].
  now rewrite IH, input_NextToken.
Qed.

(** Past the end, [NextToken] returns the end-of-input token and stays past
    the end. *)
Lemma NextToken_past_end (lex : Lexer) :
  cursor_ok lex -> String.length (input lex) <= position lex ->
  NextToken lex = (EOFToken, readChar lex).
Proof.
  intros Hok Hend. pose proof (cursor_ok_past_end lex Hok Hend) as Hc.
  unfold NextToken, skipWhitespace.
  rewrite readLoop_unfold by reflexivity.
  rewrite Hc, isWhitespace_NUL, Hc. reflexivity.
Qed.

Lemma afterTokens_past_end (k : nat) :
  forall lex, cursor_ok lex -> String.length (input lex) <= position lex ->
    cursor_ok (afterTokens k lex) /\
    input (afterTokens k lex) = input lex /\
    String.length (input lex) <= position (afterTokens k lex).
Proof.
  induction k as [|k IH]; intros lex Hok Hend; simpl; [auto|].
  rewrite NextToken_past_end by assumption. simpl.
  destruct (IH (readChar lex)) as (H1 & H2 & H3).
  - apply cursor_ok_readChar.
  - simpl. destruct Hok as [Hr _]. lia.
  - auto.
Qed.

(** C5.  Lexing "let five = 5;" yields LET("let"), IDENTIFIER("five"),
    ASSIGN("="), INT("5"), SEMICOLON(";") and then the end-of-input token. *)
Theorem lex_let_five :
  tokens 6 (lexer.New "let five = 5;") =
  [ {| Type_ := LET; Literal := "let" |};
    {| Type_ := IDENTIFIER; Literal := "five" |};
    {| Type_ := ASSIGN; Literal := "=" |};
    {| Type_ := INT; Literal := "5" |};
    {| Type_ := SEMICOLON; Literal := ";" |};
    {| Type_ := EOF; Literal := "" |} ].
Proof. vm_compute. reflexivity. Qed.

(** C6.  For every input, once the cursor of a lexer (made by [New] and
    advanced by any number [n] of [NextToken] calls) has passed the end of
    the input, every later call of [NextToken], after any number [k] of
    further calls, returns the end-of-input token: kind EOF, empty literal. *)
Theorem NextToken_EOF_forever (src : string) (n k : nat) :
  String.length src <= position (afterTokens n (lexer.New src)) ->
  fst (NextToken (afterTokens k (afterTokens n (lexer.New src)))) =
  {| Type_ := EOF; Literal := "" |}.
Proof.
  intros Hend.
  set (lex := afterTokens n (lexer.New src)) in *.
  assert (Hok : cursor_ok lex) by apply cursor_ok_afterTokens, cursor_ok_New.
  assert (Hin : input lex = src) by apply input_afterTokens.
  rewrite <- Hin in Hend.
  destruct (afterTokens_past_end k lex Hok Hend) as (H1 & H2 & H3).
  rewrite NextToken_past_end; [reflexivity|assumption|].
  rewrite H2. assumption.
Qed.

Lemma NextToken_EOF_forever_witness :
  String.length "a;" <= position (afterTokens 2 (lexer.New "a;")) /\
  fst (NextToken (afterTokens 3 (afterTokens 2 (lexer.New "a;")))) =
  {| Type_ := EOF; Literal := "" |}.
Proof.
  split.
  - vm_compute. repeat constructor.
  - apply (NextToken_EOF_forever "a;" 2 3). vm_compute. repeat constructor.
Defined.

(** ** The parser: more fuel never changes a result *)

Ltac unfold_parse :=
  cbn [parseStatement parseLetStatement parseReturnStatement
       parseExpressionStatement parseExpression parseExpression_loop
       parsePrefixExpression parseInfixExpression parseGroupedExpression
       parseIfExpression parseFunctionLiteral parseBlockStatement
       parseBlockStatement_loop parseCallExpression parseCallArguments
       parseCallArguments_loop] in *.

Lemma skipToSemicolon_mono (n : nat) :
  forall m p a q, n <= m ->
    skipToSemicolon n p = Done a q -> skipToSemicolon m p = Done a q.
Proof.
  induction n as [|n IH]; intros m p a q Hle H; [discriminate|].
  destruct m as [|m]; [lia|]. simpl in *.
  destruct (negb (curTokenIs p SEMICOLON)); [|assumption].
  apply IH; [lia|assumption].
Qed.

Lemma parseFunctionParameters_loop_mono (n : nat) :
  forall m ids p a q, n <= m ->
    parseFunctionParameters_loop n ids p = Done a q ->
    parseFunctionParameters_loop m ids p = Done a q.
Proof.
  induction n as [|n IH]; intros m ids p a q Hle H; [discriminate|].
  destruct m as [|m]; [lia|]. simpl in *.
  destruct (peekTokenIs p COMMA); [|assumption].
  apply IH; [lia|assumption].
Qed.

Lemma parseFunctionParameters_mono (n m : nat) (p : Parser) a q :
  n <= m ->
  parseFunctionParameters n p = Done a q -> parseFunctionParameters m p = Done a q.
Proof.
  intros Hle. unfold parseFunctionParameters.
  destruct (peekTokenIs p RPAREN); [auto|].
  destruct (parseFunctionParameters_loop n _ _) as [ids p2|] eqn:E; [|discriminate].
  rewrite (parseFunctionParameters_loop_mono _ _ _ _ _ _ Hle E). auto.
Qed.

(** One step through the body of a method: a call made with fuel [n] that
    returned is replayed with the larger fuel, a test is decided once for
    both runs. *)
Ltac replay Hle :=
  match goal with
  | _ => progress cbn [andThen] in *
  | H : andThen (match ?x with _ => _ end) _ = Done _ _ |- _ =>
      destruct x eqn:?
  | H : andThen ?o _ = Done _ _ |- _ =>
      let E := fresh "E" in
      destruct o as [? ?|] eqn:E; [|discriminate H];
      cbn [andThen] in H;
      first
        [ apply (skipToSemicolon_mono _ _ _ _ _ Hle) in E
        | apply (parseFunctionParameters_mono _ _ _ _ _ Hle) in E
        | match goal with
          | IHx : _ |- _ => eapply IHx in E; [|exact Hle]
          end ];
      rewrite E; clear E; cbn [andThen]
  | H : (if ?b then _ else _) = Done _ _ |- _ => destruct b eqn:?
  | H : match ?x with _ => _ end = Done _ _ |- _ => destruct x eqn:?
  | H : OutOfFuel = Done _ _ |- _ => discriminate H
  | H : Done _ _ = Done _ _ |- _ => exact H
  | H : _ = Done ?a ?q |- _ = Done ?a ?q =>
      match goal with
      | IHx : _ |- _ => eapply IHx; [exact Hle|exact H]
      end
  end.

Lemma parse_mono_all (n : nat) : parse_mono_at n.
Proof.
  induction n as [|n IH].
  - unfold parse_mono_at; repeat split; intros; discriminate.
  - destruct IH as (I1 & I2 & I3 & I4 & I5 & I6 & I7 & I8 & I9 & I10 & I11
                    & I12 & I13 & I14 & I15 & I16).
    unfold parse_mono_at; repeat split; intros m; intros;
      (destruct m as [|m]; [lia|]);
      match goal with Hm : S n <= S m |- _ => apply le_S_n in Hm end;
      match goal with
      | Hm : n <= m, H : _ = Done _ _ |- _ =>
          unfold_parse; repeat replay Hm
      end.
Qed.

Lemma ParseProgram_loop_mono (n : nat) :
  forall m l p a q, n <= m ->
    ParseProgram_loop n l p = Done a q -> ParseProgram_loop m l p = Done a q.
Proof.
  induction n as [|n IH]; intros m l p a q Hle H; [discriminate|].
  destruct m as [|m]; [lia|]. apply le_S_n in Hle. simpl in *.
  destruct (negb (Type_ (curToken p) =? EOF)%string); [|assumption].
  destruct (parseStatement n p) as [s p1|] eqn:E; [|discriminate].
  apply (proj1 (parse_mono_all n) m) in E; [|assumption].
  rewrite E. cbn [andThen] in *. now apply IH.
Qed.

(** If [ParseProgram] returns within some fuel, it returns the same program
    and the same parser within any larger fuel. *)
Lemma ParseProgram_mono (n m : nat) (p : Parser) (prog : Program) (q : Parser) :
  n <= m -> ParseProgram n p = Done prog q -> ParseProgram m p = Done prog q.
Proof.
  intros Hle. unfold ParseProgram.
  destruct (ParseProgram_loop n [] p) as [l p1|] eqn:E; [|discriminate].
  now rewrite (ParseProgram_loop_mono _ _ _ _ _ _ Hle E).
Qed.

(** ** The parser only moves forward through the tokens

    [window p] is what the parse methods read of a parser: the lexer and
    the two buffered tokens.  Every method leaves a parser whose window is
    that of the parser it was given, advanced by some number of tokens. *)

Lemma window_nextToken (p q : Parser) :
  window p = window q -> window (nextToken p) = window (nextToken q).
Proof.
  unfold window, nextToken. intros H. injection H as Hl Hc Hp.
  rewrite Hl, Hp. now destruct (NextToken (lex q)).
Qed.

Lemma window_advance (k : nat) :
  forall p q, window p = window q -> window (advance k p) = window (advance k q).
Proof.
  induction k as [|k IH]; intros p q H; simpl; [assumption|].
  apply IH, window_nextToken, H.
Qed.

Lemma advance_add (a b : nat) :
  forall p, advance (a + b) p = advance b (advance a p).
Proof. induction a as [|a IH]; intros p; simpl; [reflexivity|apply IH]. Qed.

Lemma reaches_refl (p : Parser) : reaches p p.
Proof. now exists 0. Qed.

Lemma reaches_trans (p q r : Parser) : reaches q r -> reaches p q -> reaches p r.
Proof.
  intros [b Hb] [a Ha]. exists (a + b).
  rewrite advance_add, Hb. now apply window_advance.
Qed.

Lemma reaches_nextToken (p q : Parser) : reaches p q -> reaches p (nextToken q).
Proof.
  intros H. apply reaches_trans with q; [|assumption]. now exists 1.
Qed.

Lemma reaches_addError (p q : Parser) (msg : string) :
  reaches p q -> reaches p (addError q msg).
Proof.
  intros H. apply reaches_trans with q; [|assumption]. now exists 0.
Qed.

Lemma reaches_expectPeek (p q q' : Parser) (tok : TokenType) (ok : bool) :
  expectPeek q tok = (ok, q') -> reaches p q -> reaches p q'.
Proof.
  unfold expectPeek, peekError. intros E H.
  destruct (peekTokenIs q tok); injection E as <- <-;
    auto using reaches_nextToken, reaches_addError.
Qed.

Lemma reaches_parseIntegerLiteral (p q q' : Parser) (e : option Expression) :
  parseIntegerLiteral q = (e, q') -> reaches p q -> reaches p q'.
Proof.
  unfold parseIntegerLiteral. intros E H.
  destruct (strconv.ParseInt _); injection E as <- <-;
    auto using reaches_addError.
Qed.

Lemma reaches_noPrefixParseFnError (p q : Parser) (tt : TokenType) :
  reaches p q -> reaches p (noPrefixParseFnError q tt).
Proof. apply reaches_addError. Qed.

(** Goals [reaches p q] are solved backwards from [q]: by the step that
    made [q], or by the fact recorded for the call that returned [q]. *)
Ltac solve_reach :=
  match goal with
  | |- reaches ?p ?p => apply reaches_refl
  | |- reaches _ (nextToken _) => apply reaches_nextToken; solve_reach
  | |- reaches _ (addError _ _) => apply reaches_addError; solve_reach
  | |- reaches _ (noPrefixParseFnError _ _) =>
      apply reaches_noPrefixParseFnError; solve_reach
  | H : expectPeek ?q _ = (_, ?q') |- reaches _ ?q' =>
      apply (reaches_expectPeek _ _ _ _ _ H); solve_reach
  | H : parseIntegerLiteral ?q = (_, ?q') |- reaches _ ?q' =>
      apply (reaches_parseIntegerLiteral _ _ _ _ H); solve_reach
  | H : reaches ?q ?q' |- reaches _ ?q' =>
      apply (reaches_trans _ _ _ H); solve_reach
  end.

Lemma skipToSemicolon_reaches (n : nat) :
  forall p a q, skipToSemicolon n p = Done a q -> reaches p q.
Proof.
  induction n as [|n IH]; intros p a q H; [discriminate|].
  simpl in H. destruct (negb (curTokenIs p SEMICOLON)).
  - apply IH in H. solve_reach.
  - injection H as _ <-. solve_reach.
Qed.

Lemma parseFunctionParameters_loop_reaches (n : nat) :
  forall ids p a q, parseFunctionParameters_loop n ids p = Done a q -> reaches p q.
Proof.
  induction n as [|n IH]; intros ids p a q H; [discriminate|].
  simpl in H. destruct (peekTokenIs p COMMA).
  - apply IH in H. solve_reach.
  - injection H as _ <-. solve_reach.
Qed.

Lemma parseFunctionParameters_reaches (n : nat) (p : Parser) a q :
  parseFunctionParameters n p = Done a q -> reaches p q.
Proof.
  unfold parseFunctionParameters. intros H.
  destruct (peekTokenIs p RPAREN).
  - injection H as _ <-. solve_reach.
  - destruct (parseFunctionParameters_loop n _ _) as [ids p2|] eqn:E; [|discriminate].
    apply parseFunctionParameters_loop_reaches in E. cbn [andThen] in H.
    destruct (expectPeek p2 RPAREN) as [ok p3] eqn:E3.
    destruct (negb ok); injection H as _ <-; solve_reach.
Qed.

(** One step through the body of a method that returned: each call in it
    returned, and is replaced by the fact that it only advanced. *)
Ltac follow :=
  match goal with
  | _ => progress cbn [andThen] in *
  | H : andThen (match ?x with _ => _ end) _ = Done _ _ |- _ =>
      destruct x eqn:?
  | H : andThen ?o _ = Done _ _ |- _ =>
      let E := fresh "E" in
      destruct o as [? ?|] eqn:E; [|discriminate H];
      cbn [andThen] in H;
      first
        [ apply skipToSemicolon_reaches in E
        | apply parseFunctionParameters_reaches in E
        | match goal with
          | IHx : _ |- _ => apply IHx in E
          end ]
  | H : (if ?b then _ else _) = Done _ _ |- _ => destruct b eqn:?
  | H : match ?x with _ => _ end = Done _ _ |- _ => destruct x eqn:?
  | H : OutOfFuel = Done _ _ |- _ => discriminate H
  | H : Done _ _ = Done _ _ |- _ => injection H as <- <-
  | H : ?f = Done _ ?q |- reaches _ ?q =>
      match goal with
      | IHx : _ |- _ => apply IHx in H
      end
  | |- context [if ?b then _ else _] => destruct b
  end.

Lemma parse_reaches_all (n : nat) : parse_reaches_at n.
Proof.
  induction n as [|n IH].
  - unfold parse_reaches_at; repeat split; intros; discriminate.
  - destruct IH as (I1 & I2 & I3 & I4 & I5 & I6 & I7 & I8 & I9 & I10 & I11
                    & I12 & I13 & I14 & I15 & I16).
    unfold parse_reaches_at; repeat split; intros;
      unfold_parse; repeat follow; solve_reach.
Qed.

(** ** Inputs on which [ParseProgram] does not return *)

Lemma no_semicolon_reaches (p q : Parser) :
  reaches p q -> no_semicolon_ahead p -> no_semicolon_ahead q.
Proof.
  intros [a Ha] Hp k.
  assert (H : window (advance k q) = window (advance (a + k) p)).
  { rewrite advance_add. now apply window_advance. }
  specialize (Hp (a + k)). unfold curTokenIs in *.
  unfold window in H. injection H as _ Hc _. now rewrite Hc.
Qed.

Lemma skipToSemicolon_never (fuel : nat) :
  forall p, no_semicolon_ahead p -> skipToSemicolon fuel p = OutOfFuel.
Proof.
  induction fuel as [|fuel IH]; intros p Hp; [reflexivity|].
  cbn [skipToSemicolon]. pose proof (Hp 0) as H0. cbn [advance] in H0.
  rewrite H0. cbn [negb].
  apply IH. intros k. apply (Hp (S k)).
Qed.

(** With no semicolon ahead, [parseReturnStatement] never returns. *)
Lemma parseReturnStatement_never (fuel : nat) (p : Parser) :
  no_semicolon_ahead p -> parseReturnStatement fuel p = OutOfFuel.
Proof.
  intros Hp. destruct fuel as [|fuel]; [reflexivity|].
  cbn [parseReturnStatement].
  destruct (parseExpression fuel LOWEST (nextToken p)) as [e p2|] eqn:E;
    [|reflexivity].
  cbn [andThen]. rewrite skipToSemicolon_never; [reflexivity|].
  apply (proj1 (proj2 (proj2 (proj2 (proj2 (parse_reaches_all fuel)))))) in E.
  apply no_semicolon_reaches with (nextToken p); [assumption|].
  apply no_semicolon_reaches with p; [|assumption]. now exists 1.
Qed.

(** With no semicolon ahead, [parseLetStatement] returns only through a
    failed [expectPeek]. *)
Lemma parseLetStatement_never (fuel : nat) (p : Parser) :
  no_semicolon_ahead p ->
  peekTokenIs p IDENTIFIER = true ->
  peekTokenIs (nextToken p) ASSIGN = true ->
  parseLetStatement fuel p = OutOfFuel.
Proof.
  intros Hp H1 H2. destruct fuel as [|fuel]; [reflexivity|].
  cbn [parseLetStatement]. unfold expectPeek. rewrite H1. cbn [negb].
  rewrite H2. cbn [negb].
  destruct (parseExpression fuel LOWEST _) as [e p4|] eqn:E; [|reflexivity].
  cbn [andThen]. rewrite skipToSemicolon_never; [reflexivity|].
  apply (proj1 (proj2 (proj2 (proj2 (proj2 (parse_reaches_all fuel)))))) in E.
  apply no_semicolon_reaches with (advance 3 p); [assumption|].
  apply no_semicolon_reaches with p; [|assumption]. now exists 3.
Qed.

(** The general form of the defect: on a parser whose remaining tokens hold
    no semicolon and whose current statement is a [return], or a [let] with
    its identifier and [=], [ParseProgram] does not return. *)
Lemma ParseProgram_never (fuel : nat) (p : Parser) :
  no_semicolon_ahead p ->
  curTokenIs p RETURN = true \/
  (curTokenIs p LET = true /\ peekTokenIs p IDENTIFIER = true /\
   peekTokenIs (nextToken p) ASSIGN = true) ->
  ParseProgram fuel p = OutOfFuel.
Proof.
  intros Hp Hcase. unfold ParseProgram.
  destruct fuel as [|fuel]; [reflexivity|]. cbn [ParseProgram_loop].
  assert (Hs : parseStatement fuel p = OutOfFuel).
  { destruct fuel as [|fuel]; [reflexivity|]. cbn [parseStatement].
    unfold curTokenIs in Hcase. destruct Hcase as [Hr|(Hl & H1 & H2)].
    - apply String.eqb_eq in Hr. rewrite Hr.
      change (String.eqb RETURN LET) with false. rewrite String.eqb_refl.
      rewrite parseReturnStatement_never by assumption. reflexivity.
    - rewrite Hl. rewrite parseLetStatement_never by assumption. reflexivity. }
  rewrite Hs.
  assert (Hne : String.eqb (Type_ (curToken p)) EOF = false).
  { unfold curTokenIs in Hcase.
    destruct Hcase as [Hr|(Hl & _)];
      [apply String.eqb_eq in Hr; now rewrite Hr
      |apply String.eqb_eq in Hl; now rewrite Hl]. }
  now rewrite Hne.
Qed.

Lemma at_rest_nextToken (p : Parser) :
  at_rest p -> at_rest (nextToken p) /\ Type_ (curToken (nextToken p)) = EOF.
Proof.
  intros (Hok & Hend & Hpeek). unfold at_rest, nextToken.
  rewrite NextToken_past_end by assumption. cbn [lex peekToken curToken].
  split; [split; [|split]|].
  - apply cursor_ok_readChar.
  - destruct Hok as [Hr _]. cbn. lia.
  - reflexivity.
  - assumption.
Qed.

Lemma at_rest_no_semicolon (p : Parser) :
  at_rest p -> curTokenIs p SEMICOLON = false -> no_semicolon_ahead p.
Proof.
  intros Hrest Hcur k. revert p Hrest Hcur.
  induction k as [|k IH]; intros p Hrest Hcur; [assumption|].
  cbn [advance]. destruct (at_rest_nextToken p Hrest) as [Hn Hc].
  apply IH; [assumption|]. unfold curTokenIs. now rewrite Hc.
Qed.

Lemma lex_nextToken (p : Parser) : lex (nextToken p) = snd (NextToken (lex p)).
Proof. unfold nextToken. now destruct (NextToken (lex p)). Qed.

Lemma lex_advance (k : nat) : forall p, lex (advance k p) = afterTokens k (lex p).
Proof.
  induction k as [|k IH]; intros p; simpl; [reflexivity|].
  now rewrite IH, lex_nextToken.
Qed.

Lemma afterTokens_add (a b : nat) :
  forall l, afterTokens (a + b) l = afterTokens b (afterTokens a l).
Proof. induction a as [|a IH]; intros l; simpl; [reflexivity|apply IH]. Qed.

Lemma lex_New (l : Lexer) : lex (New l) = afterTokens 2 l.
Proof. unfold New. rewrite !lex_nextToken. reflexivity. Qed.

Lemma noSemicolonWithin_sound (k0 : nat) (src : string) :
  noSemicolonWithin k0 src = true ->
  no_semicolon_ahead (New (lexer.New src)).
Proof.
  unfold noSemicolonWithin. set (p := New (lexer.New src)).
  intros H. apply andb_prop in H as [H Hpeek]. apply andb_prop in H as [Hall Hend].
  rewrite forallb_forall in Hall.
  assert (Hrest : at_rest (advance k0 p)).
  { assert (Hl : lex (advance k0 p) = afterTokens (2 + k0) (lexer.New src))
      by (subst p; now rewrite lex_advance, lex_New, afterTokens_add).
    split; [|split].
    - rewrite Hl. apply cursor_ok_afterTokens, cursor_ok_New.
    - rewrite Hl at 1. rewrite input_afterTokens. now apply Nat.leb_le.
    - now apply String.eqb_eq. }
  intros k. destruct (Nat.le_gt_cases k k0) as [Hle|Hgt].
  - specialize (Hall k). rewrite in_seq in Hall.
    apply negb_true_iff, Hall. lia.
  - replace k with (k0 + (k - k0)) by lia. rewrite advance_add.
    apply at_rest_no_semicolon; [assumption|].
    apply negb_true_iff, Hall, in_seq. lia.
Qed.

(** C1 fails on the code.  On "let x = 5" and on "return 5" (no semicolon
    before the end of the input) [ParseProgram] does not return, whatever
    the fuel: the loop [for !curTokenIs(SEMICOLON) { nextToken() }] of
    [parseLetStatement] and [parseReturnStatement] has no test for the
    end-of-input token, which the lexer then returns forever. *)
Theorem ParseProgram_diverges_without_semicolon (fuel : nat) :
  parseSource fuel "let x = 5" = OutOfFuel /\
  parseSource fuel "return 5" = OutOfFuel.
Proof.
  split; apply ParseProgram_never.
  - apply (noSemicolonWithin_sound 5). vm_compute. reflexivity.
  - right. vm_compute. auto.
  - apply (noSemicolonWithin_sound 3). vm_compute. reflexivity.
  - left. vm_compute. reflexivity.
Qed.

(** ** Precedence and associativity *)

(** When parsing returns within fuel [k], it returns the same within any
    larger fuel. *)
Lemma parseSource_mono (k n : nat) (src : string) (prog : Program) (q : Parser) :
  parseSource k src = Done prog q -> parseSource (k + n) src = Done prog q.
Proof. apply ParseProgram_mono, Nat.le_add_r. Qed.

(** C3.  Parsing "1 + 2 * 3;" (with any fuel from 11 on) records no error
    and produces the program of the one statement [1 + (2 * 3)], whose
    rendering is "(1 + (2 * 3))": the product is the right operand of the
    sum. *)
Theorem parse_sum_product (n : nat) :
  exists q,
    parseSource (11 + n) "1 + 2 * 3;" =
      Done {| Statements :=
                [exprStmt {| Type_ := INT; Literal := "1" |}
                   (infix (intLit "1" 1) "+"
                      (infix (intLit "2" 2) "*" (intLit "3" 3)))] |} q /\
    Errors q = [] /\
    ProgramString
      {| Statements :=
           [exprStmt {| Type_ := INT; Literal := "1" |}
              (infix (intLit "1" 1) "+"
                 (infix (intLit "2" 2) "*" (intLit "3" 3)))] |}
    = Some "(1 + (2 * 3))".
Proof.
  assert (E : exists q,
             parseSource 11 "1 + 2 * 3;" =
               Done {| Statements :=
                         [exprStmt {| Type_ := INT; Literal := "1" |}
                            (infix (intLit "1" 1) "+"
                               (infix (intLit "2" 2) "*" (intLit "3" 3)))] |} q /\
             Errors q = [])
    by (vm_compute; eexists; split; reflexivity).
  destruct E as (q & E & Herr). exists q.
  split; [exact (parseSource_mono 11 n _ _ _ E)|].
  split; [exact Herr|]. vm_compute. reflexivity.
Qed.

(** [parseInfixExpression] parses its right operand at the precedence of
    its own operator. *)
Lemma parseInfixExpression_precedence (fuel : nat) (l : option Expression)
  (p : Parser) :
  parseInfixExpression (S fuel) l p =
  let* (rhs, p2) := parseExpression fuel (curPrecedence p) (nextToken p) in
  Done (Some (InfixExpression (curToken p) l (Literal (curToken p)) rhs)) p2.
Proof. reflexivity. Qed.

(** Through the lexer, on three operands: for operators [o1] and [o2] with
    equal entries in the precedence table, "a o1 b o2 c" parses (with any
    fuel from 9 on, no error recorded) to the one statement [(a o1 b) o2 c],
    rendered "((a o1 b) o2 c)". *)
Lemma three_operands_left_assoc (o1 o2 : string) (n : nat) :
  In o1 infixOperators -> In o2 infixOperators ->
  lookup o1 precedences = lookup o2 precedences ->
  exists q,
    parseSource (9 + n) ("a " ++ o1 ++ " b " ++ o2 ++ " c") =
      Done {| Statements :=
                [exprStmt {| Type_ := IDENTIFIER; Literal := "a" |}
                   (infix (infix (ident "a") o1 (ident "b")) o2 (ident "c"))] |} q /\
    Errors q = [] /\
    ProgramString
      {| Statements :=
           [exprStmt {| Type_ := IDENTIFIER; Literal := "a" |}
              (infix (infix (ident "a") o1 (ident "b")) o2 (ident "c"))] |}
    = Some ("((a " ++ o1 ++ " b) " ++ o2 ++ " c)").
Proof.
  intros H1 H2 Hprec.
  assert (E : exists q,
             parseSource 9 ("a " ++ o1 ++ " b " ++ o2 ++ " c") =
               Done {| Statements :=
                         [exprStmt {| Type_ := IDENTIFIER; Literal := "a" |}
                            (infix (infix (ident "a") o1 (ident "b")) o2
                               (ident "c"))] |} q /\
             Errors q = [] /\
             ProgramString
               {| Statements :=
                    [exprStmt {| Type_ := IDENTIFIER; Literal := "a" |}
                       (infix (infix (ident "a") o1 (ident "b")) o2 (ident "c"))] |}
             = Some ("((a " ++ o1 ++ " b) " ++ o2 ++ " c)")).
  { unfold infixOperators in H1, H2. cbn [In] in H1, H2.
    repeat (destruct H1 as [<-|H1]; [|]); try contradiction;
      repeat (destruct H2 as [<-|H2]; [|]); try contradiction;
      try discriminate Hprec;
      vm_compute; eexists; repeat split; reflexivity. }
  destruct E as (q & E & Herr & Hstr). exists q.
  split; [exact (parseSource_mono 9 n _ _ _ E)|].
  split; [exact Herr|exact Hstr].
Qed.

(** The program of "a + b + c" renders as "((a + b) + c)". *)
Lemma a_plus_b_plus_c :
  exists q,
    parseSource 9 "a + b + c" =
      Done {| Statements :=
                [exprStmt {| Type_ := IDENTIFIER; Literal := "a" |}
                   (infix (infix (ident "a") "+" (ident "b")) "+" (ident "c"))] |} q /\
    Errors q = [] /\
    ProgramString
      {| Statements :=
           [exprStmt {| Type_ := IDENTIFIER; Literal := "a" |}
              (infix (infix (ident "a") "+" (ident "b")) "+" (ident "c"))] |}
    = Some "((a + b) + c)".
Proof.
  apply (three_operands_left_assoc "+" "+" 0).
  - simpl. auto.
  - simpl. auto.
  - reflexivity.
Qed.

Lemma curToken_nextToken (p : Parser) : curToken (nextToken p) = peekToken p.
Proof. unfold nextToken. now destruct (NextToken (lex p)). Qed.

Lemma prefixParseFns_nextToken (p : Parser) :
  prefixParseFns (nextToken p) = prefixParseFns p.
Proof. unfold nextToken. now destruct (NextToken (lex p)). Qed.

Lemma infixParseFns_nextToken (p : Parser) :
  infixParseFns (nextToken p) = infixParseFns p.
Proof. unfold nextToken. now destruct (NextToken (lex p)). Qed.

Lemma handlersOfNew_nextToken (p : Parser) :
  handlersOfNew p -> handlersOfNew (nextToken p).
Proof.
  unfold handlersOfNew.
  now rewrite prefixParseFns_nextToken, infixParseFns_nextToken.
Qed.

Lemma handlersOfNew_New (l : Lexer) : handlersOfNew (New l).
Proof.
  unfold handlersOfNew, New.
  now rewrite !prefixParseFns_nextToken, !infixParseFns_nextToken.
Qed.

Lemma infix_handler (p : Parser) (t : TokenType) :
  handlersOfNew p -> In t infixOperators ->
  lookup t (infixParseFns p) = Some fn_parseInfixExpression /\ t <> SEMICOLON.
Proof.
  intros [_ Hi] Hin. rewrite Hi. unfold infixOperators in Hin. cbn [In] in Hin.
  repeat (destruct Hin as [<-|Hin]; [split; [reflexivity|discriminate]|]).
  contradiction.
Qed.

(** ** [expectPeek] and the methods that call it *)

Lemma expectPeek_mismatch (p : Parser) (tok : TokenType) :
  peekTokenIs p tok = false ->
  expectPeek p tok =
  (false,
   addError p ("expected next token to be " ++ tok ++ ", got "
               ++ Type_ (peekToken p) ++ " instead")).
Proof. unfold expectPeek. now intros ->. Qed.

Lemma expectPeek_match (p : Parser) (tok : TokenType) :
  peekTokenIs p tok = true -> expectPeek p tok = (true, nextToken p).
Proof. unfold expectPeek. now intros ->. Qed.

Ltac run_expectPeek :=
  repeat first
    [ rewrite expectPeek_mismatch by assumption
    | rewrite expectPeek_match by assumption
    | match goal with
      | H : ?f = Done _ _ |- context [?f] => rewrite H
      | H : ?b = _ |- context [if ?b then _ else _] => rewrite H
      end
    | progress cbn [andThen negb] ].

Lemma parseLetStatement_no_identifier (fuel : nat) (p : Parser) :
  peekTokenIs p IDENTIFIER = false ->
  parseLetStatement (S fuel) p = Done None (peekError p IDENTIFIER).
Proof. intros H. cbn [parseLetStatement]. run_expectPeek. reflexivity. Qed.

Lemma parseLetStatement_no_assign (fuel : nat) (p : Parser) :
  peekTokenIs p IDENTIFIER = true ->
  peekTokenIs (nextToken p) ASSIGN = false ->
  parseLetStatement (S fuel) p = Done None (peekError (nextToken p) ASSIGN).
Proof. intros H1 H2. cbn [parseLetStatement]. run_expectPeek. reflexivity. Qed.

Lemma parseGroupedExpression_no_rparen (fuel : nat) (p p2 : Parser)
  (e : option Expression) :
  parseExpression fuel LOWEST (nextToken p) = Done e p2 ->
  peekTokenIs p2 RPAREN = false ->
  parseGroupedExpression (S fuel) p = Done None (peekError p2 RPAREN).
Proof. intros H1 H2. cbn [parseGroupedExpression]. run_expectPeek. reflexivity. Qed.

Lemma parseIfExpression_no_lparen (fuel : nat) (p : Parser) :
  peekTokenIs p LPAREN = false ->
  parseIfExpression (S fuel) p = Done None (peekError p LPAREN).
Proof. intros H. cbn [parseIfExpression]. run_expectPeek. reflexivity. Qed.

Lemma parseIfExpression_no_rparen (fuel : nat) (p p3 : Parser)
  (c : option Expression) :
  peekTokenIs p LPAREN = true ->
  parseExpression fuel LOWEST (nextToken (nextToken p)) = Done c p3 ->
  peekTokenIs p3 RPAREN = false ->
  parseIfExpression (S fuel) p = Done None (peekError p3 RPAREN).
Proof. intros H1 H2 H3. cbn [parseIfExpression]. run_expectPeek. reflexivity. Qed.

Lemma parseIfExpression_no_lbrace (fuel : nat) (p p3 : Parser)
  (c : option Expression) :
  peekTokenIs p LPAREN = true ->
  parseExpression fuel LOWEST (nextToken (nextToken p)) = Done c p3 ->
  peekTokenIs p3 RPAREN = true ->
  peekTokenIs (nextToken p3) LBRACE = false ->
  parseIfExpression (S fuel) p = Done None (peekError (nextToken p3) LBRACE).
Proof. intros H1 H2 H3 H4. cbn [parseIfExpression]. run_expectPeek. reflexivity. Qed.

Lemma parseIfExpression_no_else_lbrace (fuel : nat) (p p3 p6 : Parser)
  (c : option Expression) (b : option BlockStatement) :
  peekTokenIs p LPAREN = true ->
  parseExpression fuel LOWEST (nextToken (nextToken p)) = Done c p3 ->
  peekTokenIs p3 RPAREN = true ->
  peekTokenIs (nextToken p3) LBRACE = true ->
  parseBlockStatement fuel (nextToken (nextToken p3)) = Done b p6 ->
  peekTokenIs p6 ELSE = true ->
  peekTokenIs (nextToken p6) LBRACE = false ->
  parseIfExpression (S fuel) p = Done None (peekError (nextToken p6) LBRACE).
Proof.
  intros H1 H2 H3 H4 H5 H6 H7. cbn [parseIfExpression]. run_expectPeek. reflexivity.
Qed.

Lemma parseFunctionLiteral_no_lparen (fuel : nat) (p : Parser) :
  peekTokenIs p LPAREN = false ->
  parseFunctionLiteral (S fuel) p = Done None (peekError p LPAREN).
Proof. intros H. cbn [parseFunctionLiteral]. run_expectPeek. reflexivity. Qed.

Lemma parseFunctionLiteral_no_lbrace (fuel : nat) (p p2 : Parser)
  (ps : option (list Identifier)) :
  peekTokenIs p LPAREN = true ->
  parseFunctionParameters fuel (nextToken p) = Done ps p2 ->
  peekTokenIs p2 LBRACE = false ->
  parseFunctionLiteral (S fuel) p = Done None (peekError p2 LBRACE).
Proof. intros H1 H2 H3. cbn [parseFunctionLiteral]. run_expectPeek. reflexivity. Qed.

Lemma parseFunctionParameters_no_rparen (fuel : nat) (p p2 : Parser)
  (ids : list Identifier) :
  peekTokenIs p RPAREN = false ->
  parseFunctionParameters_loop fuel [identifierOfCurToken (nextToken p)]
    (nextToken p) = Done ids p2 ->
  peekTokenIs p2 RPAREN = false ->
  parseFunctionParameters fuel p = Done None (peekError p2 RPAREN).
Proof. intros H1 H2 H3. unfold parseFunctionParameters. run_expectPeek. reflexivity. Qed.

Lemma parseCallArguments_no_rparen (fuel : nat) (p p2 p3 : Parser)
  (a : option Expression) (args : list (option Expression)) :
  peekTokenIs p RPAREN = false ->
  parseExpression fuel LOWEST (nextToken p) = Done a p2 ->
  parseCallArguments_loop fuel [a] p2 = Done args p3 ->
  peekTokenIs p3 RPAREN = false ->
  parseCallArguments (S fuel) p = Done None (peekError p3 RPAREN).
Proof. intros H1 H2 H3 H4. cbn [parseCallArguments]. run_expectPeek. reflexivity. Qed.

(** What [parseCallExpression] does with the [nil] of [parseCallArguments]:
    it stores it and still returns the node. *)
Lemma parseCallExpression_keeps_nil (fuel : nat) (f : option Expression)
  (p q : Parser) :
  parseCallArguments fuel p = Done None q ->
  parseCallExpression (S fuel) f p = Done (Some (CallExpression (curToken p) f None)) q.
Proof. intros H. cbn [parseCallExpression]. run_expectPeek. reflexivity. Qed.

(** C2 fails on the code as stated.  On "add(1 2" the call to
    [expectPeek(RPAREN)] in [parseCallArguments] fails and records its
    message, and [parseCallExpression] still returns a node that is not nil:
    a [CallExpression] whose [Arguments] are [nil]; the program holds it. *)
Lemma call_expression_with_nil_arguments :
  exists q,
    parseSource 9 "add(1 2" =
      Done {| Statements :=
                [exprStmt {| Type_ := IDENTIFIER; Literal := "add" |}
                   (callOf (ident "add") None);
                 exprStmt {| Type_ := INT; Literal := "2" |} (intLit "2" 2)] |} q /\
    Errors q = ["expected next token to be ), got INT instead"].
Proof. vm_compute. eexists. split; reflexivity. Qed.

(** C2, amended.  When [expectPeek] is called with a required kind that the
    lookahead does not match, it returns false and records "expected next
    token to be X, got Y instead", leaving the tokens where they were; and
    each method that makes such a call ([parseLetStatement],
    [parseGroupedExpression], [parseIfExpression], [parseFunctionLiteral],
    [parseFunctionParameters], [parseCallArguments]) then returns nil at
    once, in the parser that [expectPeek] left. *)
Theorem expectPeek_failure_returns_nil :
  (forall p tok, peekTokenIs p tok = false ->
     expectPeek p tok = (false, peekError p tok) /\
     Errors (peekError p tok) =
       (Errors p ++ [("expected next token to be " ++ tok ++ ", got "
                      ++ Type_ (peekToken p) ++ " instead")%string])%list /\
     window (peekError p tok) = window p) /\
  (forall fuel p, peekTokenIs p IDENTIFIER = false ->
     parseLetStatement (S fuel) p = Done None (peekError p IDENTIFIER)) /\
  (forall fuel p, peekTokenIs p IDENTIFIER = true ->
     peekTokenIs (nextToken p) ASSIGN = false ->
     parseLetStatement (S fuel) p = Done None (peekError (nextToken p) ASSIGN)) /\
  (forall fuel p p2 e,
     parseExpression fuel LOWEST (nextToken p) = Done e p2 ->
     peekTokenIs p2 RPAREN = false ->
     parseGroupedExpression (S fuel) p = Done None (peekError p2 RPAREN)) /\
  (forall fuel p, peekTokenIs p LPAREN = false ->
     parseIfExpression (S fuel) p = Done None (peekError p LPAREN)) /\
  (forall fuel p p3 c, peekTokenIs p LPAREN = true ->
     parseExpression fuel LOWEST (nextToken (nextToken p)) = Done c p3 ->
     peekTokenIs p3 RPAREN = false ->
     parseIfExpression (S fuel) p = Done None (peekError p3 RPAREN)) /\
  (forall fuel p p3 c, peekTokenIs p LPAREN = true ->
     parseExpression fuel LOWEST (nextToken (nextToken p)) = Done c p3 ->
     peekTokenIs p3 RPAREN = true ->
     peekTokenIs (nextToken p3) LBRACE = false ->
     parseIfExpression (S fuel) p = Done None (peekError (nextToken p3) LBRACE)) /\
  (forall fuel p p3 p6 c b, peekTokenIs p LPAREN = true ->
     parseExpression fuel LOWEST (nextToken (nextToken p)) = Done c p3 ->
     peekTokenIs p3 RPAREN = true ->
     peekTokenIs (nextToken p3) LBRACE = true ->
     parseBlockStatement fuel (nextToken (nextToken p3)) = Done b p6 ->
     peekTokenIs p6 ELSE = true ->
     peekTokenIs (nextToken p6) LBRACE = false ->
     parseIfExpression (S fuel) p = Done None (peekError (nextToken p6) LBRACE)) /\
  (forall fuel p, peekTokenIs p LPAREN = false ->
     parseFunctionLiteral (S fuel) p = Done None (peekError p LPAREN)) /\
  (forall fuel p p2 ps, peekTokenIs p LPAREN = true ->
     parseFunctionParameters fuel (nextToken p) = Done ps p2 ->
     peekTokenIs p2 LBRACE = false ->
     parseFunctionLiteral (S fuel) p = Done None (peekError p2 LBRACE)) /\
  (forall fuel p p2 ids, peekTokenIs p RPAREN = false ->
     parseFunctionParameters_loop fuel [identifierOfCurToken (nextToken p)]
       (nextToken p) = Done ids p2 ->
     peekTokenIs p2 RPAREN = false ->
     parseFunctionParameters fuel p = Done None (peekError p2 RPAREN)) /\
  (forall fuel p p2 p3 a args, peekTokenIs p RPAREN = false ->
     parseExpression fuel LOWEST (nextToken p) = Done a p2 ->
     parseCallArguments_loop fuel [a] p2 = Done args p3 ->
     peekTokenIs p3 RPAREN = false ->
     parseCallArguments (S fuel) p = Done None (peekError p3 RPAREN)).
Proof.
  repeat match goal with |- _ /\ _ => split end;
    eauto using parseLetStatement_no_identifier, parseLetStatement_no_assign,
      parseGroupedExpression_no_rparen, parseIfExpression_no_lparen,
      parseIfExpression_no_rparen, parseIfExpression_no_lbrace,
      parseIfExpression_no_else_lbrace, parseFunctionLiteral_no_lparen,
      parseFunctionLiteral_no_lbrace, parseFunctionParameters_no_rparen,
      parseCallArguments_no_rparen.
  intros p tok H. split; [|split]; try reflexivity.
  now apply expectPeek_mismatch.
Qed.

Lemma expectPeek_failure_returns_nil_witness :
  peekTokenIs atCallArguments RPAREN = false /\
  peekTokenIs (nextToken atCallArguments) RPAREN = false /\
  parseCallArguments 3 atCallArguments =
    Done None (peekError (nextToken atCallArguments) RPAREN) /\
  Errors (peekError (nextToken atCallArguments) RPAREN) =
    ["expected next token to be ), got INT instead"].
Proof.
  split; [reflexivity|]. split; [reflexivity|]. split; [|reflexivity].
  refine (proj2 (proj2 (proj2 (proj2 (proj2 (proj2 (proj2 (proj2 (proj2 (proj2
            (proj2 expectPeek_failure_returns_nil))))))))))
            2 atCallArguments (nextToken atCallArguments)
            (nextToken atCallArguments)
            (Some (intLit "1" 1)) [Some (intLit "1" 1)] _ _ _ _);
    reflexivity.
Defined.

(** ** Let statements *)

Lemma LookupIdentifier_LET (s : string) : LookupIdentifier s = LET -> s = "let".
Proof.
  unfold LookupIdentifier, keywords. cbn [lookup].
  repeat match goal with
         | |- context [String.eqb s ?k] =>
             destruct (String.eqb_spec s k); [subst; cbn|]
         end; try discriminate; auto.
Qed.

(** A token of kind LET that the lexer returns has the literal "let". *)
Lemma NextToken_LET (l : Lexer) :
  Type_ (fst (NextToken l)) = LET -> Literal (fst (NextToken l)) = "let".
Proof.
  unfold NextToken, readIdentifier, readNumber, newToken.
  repeat match goal with
         | |- context [if ?b then _ else _] => destruct b
         end; cbn [fst Type_ Literal]; try discriminate.
  apply LookupIdentifier_LET.
Qed.

Lemma skipToSemicolon_stops (n : nat) :
  forall p a q, skipToSemicolon n p = Done a q -> curTokenIs q SEMICOLON = true.
Proof.
  induction n as [|n IH]; intros p a q H; [discriminate|].
  cbn [skipToSemicolon] in H.
  destruct (curTokenIs p SEMICOLON) eqn:Hc; cbn [negb] in H; [|eauto].
  now injection H as _ <-.
Qed.

(** C7.  Let [parseLetStatement] be called where [parseStatement] calls it,
    on a current token of kind LET that came from the lexer, and return a
    statement (not nil).  Then the tokens read were [let <ident> = ... ;]:
    an identifier and "=" followed, and the parser stopped on a semicolon.
    The statement's name is that identifier, its value [value] is what
    [parseExpression] returned for the tokens after "="; and when that
    expression [e] renders as [s], the statement renders as
    "let " + <ident> + " = " + s + ";". *)
Theorem LetStatement_rendering (fuel : nat) (p q : Parser) (l0 : Lexer)
  (stmt : LetStatement) :
  curToken p = fst (NextToken l0) ->
  Type_ (curToken p) = LET ->
  parseLetStatement fuel p = Done (Some stmt) q ->
  Type_ (peekToken p) = IDENTIFIER /\
  Type_ (peekToken (nextToken p)) = ASSIGN /\
  curTokenIs q SEMICOLON = true /\
  exists fuel' value p4,
    parseExpression fuel' LOWEST (nextToken (nextToken (nextToken p)))
      = Done value p4 /\
    stmt = mkLet (curToken p)
             (Some {| IdentToken := peekToken p;
                      IdentValue := Literal (peekToken p) |}) value /\
    forall e s, value = Some e -> ExpressionString e = Some s ->
      LetStatementString stmt
      = Some ("let " ++ Literal (peekToken p) ++ " = " ++ s ++ ";").
Proof.
  intros Hlexed Hlet Hparse.
  assert (Hlit : Literal (curToken p) = "let").
  { rewrite Hlexed in *. now apply NextToken_LET. }
  destruct fuel as [|fuel]; [discriminate|].
  cbn [parseLetStatement] in Hparse. unfold expectPeek in Hparse.
  destruct (peekTokenIs p IDENTIFIER) eqn:H1; [|discriminate].
  cbn [negb] in Hparse.
  destruct (peekTokenIs (nextToken p) ASSIGN) eqn:H2; [|discriminate].
  cbn [negb] in Hparse.
  destruct (parseExpression fuel LOWEST _) as [value p4|] eqn:E; [|discriminate].
  cbn [andThen] in Hparse.
  destruct (skipToSemicolon fuel p4) as [u p5|] eqn:Hskip; [|discriminate].
  cbn [andThen] in Hparse. injection Hparse as <- <-.
  split; [now apply String.eqb_eq|]. split; [now apply String.eqb_eq|].
  split; [exact (skipToSemicolon_stops _ _ _ _ Hskip)|].
  exists fuel, value, p4. split; [exact E|]. split.
  - unfold identifierOfCurToken. now rewrite curToken_nextToken.
  - intros e s -> Hs. cbn [LetStatementString]. unfold identifierOfCurToken.
    rewrite curToken_nextToken.
    cbn [ast.bind ret IdentifierString IdentValue]. rewrite Hs, Hlit.
    cbn [ast.bind ret]. reflexivity.
Qed.

Lemma LetStatement_rendering_witness :
  parseLetStatement 8 (New (lexer.New "let x = 1 + 2;")) =
    Done (Some let_x_1_2) (advance 6 (New (lexer.New "let x = 1 + 2;"))) /\
  LetStatementString let_x_1_2 = Some "let x = (1 + 2);".
Proof.
  assert (E : parseLetStatement 8 (New (lexer.New "let x = 1 + 2;")) =
              Done (Some let_x_1_2) (advance 6 (New (lexer.New "let x = 1 + 2;"))))
    by (vm_compute; reflexivity).
  split; [exact E|].
  destruct (LetStatement_rendering 8 (New (lexer.New "let x = 1 + 2;"))
              (advance 6 (New (lexer.New "let x = 1 + 2;")))
              (lexer.New "let x = 1 + 2;") let_x_1_2
              (eq_refl {| Type_ := LET; Literal := "let" |}) (eq_refl LET) E)
    as (_ & _ & _ & f & v & p4 & _ & Hs & Hr).
  pose proof (f_equal (fun l => match l with mkLet _ _ value => value end) Hs)
    as Hv.
  cbv beta iota delta [let_x_1_2] in Hv.
  exact (Hr _ "(1 + 2)" (eq_sym Hv) eq_refl).
Defined.

(** ** What the lexer reads as a number *)

Section LexerRuns.

Variable cond : ascii -> bool.
Hypothesis cond_NUL : cond NUL = false.

(** The bytes that the loop [for cond(lex.char) { lex.readChar() }] steps
    over lie inside the input and satisfy [cond]. *)
Lemma readWhile_run (n : nat) :
  forall lex, cursor_ok lex ->
    position lex <= position (readWhile cond n lex) /\
    forall i, position lex <= i < position (readWhile cond n lex) ->
      i < String.length (input lex) /\ cond (byteAt (input lex) i) = true.
Proof.
  induction n as [|n IH]; intros lex Hok; cbn [readWhile].
  - split; [lia|]. intros i Hi. lia.
  - destruct (cond (char lex)) eqn:Hc; [|split; [lia|intros i Hi; lia]].
    destruct (IH (readChar lex) (cursor_ok_readChar lex)) as [Hle Hrun].
    destruct Hok as [Hr Hchar].
    change (position (readChar lex)) with (readPosition lex) in *.
    change (input (readChar lex)) with (input lex) in *.
    assert (Hin : position lex < String.length (input lex)
                  /\ cond (byteAt (input lex) (position lex)) = true).
    { destruct (Nat.leb_spec (String.length (input lex)) (position lex)).
      - rewrite Hchar, cond_NUL in Hc. discriminate.
      - rewrite Hchar in Hc. auto. }
    split; [lia|]. intros i Hi.
    destruct (Nat.eq_dec i (position lex)) as [->|Hne]; [exact Hin|].
    apply Hrun. lia.
Qed.

End LexerRuns.

Lemma allDigits_get (t : string) :
  (forall i c, String.get i t = Some c -> isDigit c = true) -> allDigits t = true.
Proof.
  induction t as [|c t IH]; intros H; [reflexivity|].
  cbn [allDigits]. apply andb_true_intro. split.
  - apply (H 0). reflexivity.
  - apply IH. intros i c' Hi. apply (H (S i)). exact Hi.
Qed.

(** A slice of bytes that are all digits is a run of digits. *)
Lemma allDigits_slice (s : string) (from to : nat) :
  (forall i, from <= i < to ->
     i < String.length s /\ isDigit (byteAt s i) = true) ->
  allDigits (slice s from to) = true.
Proof.
  intros H. apply allDigits_get. intros i c Hi. unfold slice in Hi.
  destruct (Nat.lt_ge_cases i (to - from)) as [Hlt|Hge].
  - rewrite String.substring_correct1 in Hi by assumption.
    destruct (H (i + from)) as [_ Hd]; [lia|].
    unfold byteAt in Hd. now rewrite Hi in Hd.
  - rewrite String.substring_correct2 in Hi by assumption. discriminate.
Qed.

Lemma LookupIdentifier_not_INT (s : string) : LookupIdentifier s <> INT.
Proof.
  unfold LookupIdentifier, keywords. cbn [lookup].
  repeat match goal with
         | |- context [String.eqb s ?k] => destruct (String.eqb s k)
         end; discriminate.
Qed.

(** A token of kind INT that the lexer returns has a run of digits as its
    literal. *)
Lemma NextToken_INT (l : Lexer) :
  cursor_ok l -> Type_ (fst (NextToken l)) = INT ->
  allDigits (Literal (fst (NextToken l))) = true.
Proof.
  intros Hok. unfold NextToken.
  assert (Hs : cursor_ok (skipWhitespace l)) by now apply cursor_ok_readLoop.
  set (lx := skipWhitespace l) in *.
  unfold readIdentifier, readNumber, newToken.
  repeat match goal with
         | |- context [if ?b then _ else _] => destruct b
         end; cbn [fst Type_ Literal]; try discriminate.
  - intros H. now apply LookupIdentifier_not_INT in H.
  - intros _. unfold readLoop. rewrite input_readWhile.
    apply allDigits_slice. intros i Hi.
    exact (proj2 (readWhile_run isDigit isDigit_NUL _ lx Hs) i Hi).
Qed.

Lemma curToken_after_two (k : nat) (p : Parser) :
  curToken (advance k (nextToken (nextToken p)))
  = fst (NextToken (lex (advance k p))).
Proof.
  change (advance k (nextToken (nextToken p))) with (advance k (advance 2 p)).
  rewrite <- advance_add. replace (2 + k) with (k + 2) by lia.
  rewrite advance_add. cbn [advance]. rewrite curToken_nextToken.
  unfold nextToken. now destruct (NextToken (lex (advance k p))).
Qed.

(** Every token that a parser made by [New] ever holds as its current token
    came from the lexer, at a cursor that [New] and [NextToken] produce. *)
Lemma curToken_lexed (src : string) (k : nat) :
  exists l0, cursor_ok l0 /\
    curToken (advance k (New (lexer.New src))) = fst (NextToken l0).
Proof.
  unfold New. rewrite curToken_after_two. eexists. split; [|reflexivity].
  rewrite lex_advance. apply cursor_ok_afterTokens, cursor_ok_New.
Qed.

(** ** Integer conversion *)

Section Conversion.
Import strconv.
Local Open Scope Z_scope.

Lemma isDigit_code (c : ascii) : isDigit c = true -> 48 <= code c <= 57.
Proof.
  unfold isDigit, byte_le, code. intros H. apply andb_prop in H as [H1 H2].
  apply Nat.leb_le in H1, H2. cbn in H1, H2. lia.
Qed.

Lemma isDigit_not_underscore (c : ascii) : isDigit c = true -> Ascii.eqb c "_" = false.
Proof.
  intros H. destruct (Ascii.eqb_spec c "_") as [->|]; [discriminate H|reflexivity].
Qed.

Lemma decimalValue_ge (s : string) :
  forall acc, 0 <= acc -> allDigits s = true -> acc <= decimalValue acc s.
Proof.
  induction s as [|c rest IH]; intros acc Hacc Hd; cbn [decimalValue]; [lia|].
  cbn [allDigits] in Hd. apply andb_prop in Hd as [Hc Hrest].
  apply isDigit_code in Hc.
  specialize (IH (acc * 10 + (code c - 48)) ltac:(lia) Hrest). lia.
Qed.

Lemma parseDigits_decimal (s : string) :
  forall n u, allDigits s = true -> 0 <= n <= maxUint64 ->
    parseDigits 10 s n u =
    (if decimalValue n s <=? maxUint64 then Num (decimalValue n s) else ErrRange, u).
Proof.
  induction s as [|c rest IH]; intros n u Hd Hn.
  - cbn [parseDigits decimalValue].
    destruct (Z.leb_spec n maxUint64); [reflexivity|lia].
  - cbn [allDigits] in Hd. apply andb_prop in Hd as [Hc Hrest].
    pose proof (isDigit_code c Hc) as Hcode.
    pose proof (decimalValue_ge rest (n * 10 + (code c - 48)) ltac:(lia) Hrest)
      as Hge.
    cbn [parseDigits decimalValue]. rewrite (isDigit_not_underscore c Hc).
    change (code "0") with 48. change (code "9") with 57.
    replace ((48 <=? code c) && (code c <=? 57)) with true
      by (symmetry; apply andb_true_intro; split; apply Z.leb_le; lia).
    replace (10 <=? code c - 48) with false by (symmetry; apply Z.leb_gt; lia).
    unfold maxUint64 in *.
    change (2 ^ 64 - 1) with 18446744073709551615 in *.
    change (18446744073709551615 / 10 + 1) with 1844674407370955162.
    destruct (Z.leb_spec 1844674407370955162 n).
    + destruct (Z.leb_spec (decimalValue (n * 10 + (code c - 48)) rest)
                  18446744073709551615); [lia|reflexivity].
    + destruct (Z.ltb_spec 18446744073709551615 (n * 10 + (code c - 48))).
      * destruct (Z.leb_spec (decimalValue (n * 10 + (code c - 48)) rest)
                    18446744073709551615); [lia|reflexivity].
      * apply IH; [assumption|lia].
Qed.

(** On a decimal run, [ParseInt] succeeds exactly when the number is below
    2^63, and then returns that number. *)
Lemma ParseInt_decimal (s : string) :
  isDecimalRun s = true ->
  ParseInt s = if decimalValue 0 s <? 2 ^ 63 then Some (decimalValue 0 s) else None.
Proof.
  destruct s as [|c rest]; [discriminate|]. cbn [isDecimalRun].
  intros H. apply andb_prop in H as [Hz Hd]. apply negb_true_iff in Hz.
  pose proof Hd as Hd'. cbn [allDigits] in Hd'. apply andb_prop in Hd' as [Hc _].
  pose proof (isDigit_code c Hc) as Hcode.
  unfold ParseInt.
  replace (Ascii.eqb c "+") with false
    by (symmetry; apply Ascii.eqb_neq; intros ->;
        change (code "+") with 43 in Hcode; lia).
  replace (Ascii.eqb c "-") with false
    by (symmetry; apply Ascii.eqb_neq; intros ->;
        change (code "-") with 45 in Hcode; lia).
  unfold ParseUint. rewrite Hz.
  rewrite parseDigits_decimal by (auto; unfold maxUint64; lia).
  unfold maxUint64. change (2 ^ 64 - 1) with 18446744073709551615.
  change (2 ^ 63) with 9223372036854775808.
  destruct (Z.leb_spec (decimalValue 0 (String c rest)) 18446744073709551615).
  - cbn [andb negb].
    destruct (Z.leb_spec 9223372036854775808 (decimalValue 0 (String c rest)));
      destruct (Z.ltb_spec (decimalValue 0 (String c rest)) 9223372036854775808);
      try lia; reflexivity.
  - destruct (Z.ltb_spec (decimalValue 0 (String c rest)) 9223372036854775808);
      [lia|reflexivity].
Qed.

Lemma quoteASCII_printable (c : ascii) :
  (32 <=? code c) && (code c <=? 126) && negb (code c =? 34)
  && negb (code c =? 92) = true ->
  (code c <? 128) = true /\ quoteASCII c = String c EmptyString.
Proof.
  intros H. apply andb_prop in H as [H H4]. apply andb_prop in H as [H H3].
  apply andb_prop in H as [H1 H2]. apply negb_true_iff in H3, H4.
  apply Z.leb_le in H1, H2. split; [apply Z.ltb_lt; lia|].
  unfold quoteASCII. rewrite H3, H4. cbn [orb].
  replace ((32 <=? code c) && (code c <=? 126)) with true
    by (symmetry; apply andb_true_intro; split; apply Z.leb_le; lia).
  reflexivity.
Qed.

(** [%q] writes a printable ASCII string without a quote or a backslash as
    it is, between two double quotes. *)
Lemma Quote_printable (s : string) :
  printableASCII s = true ->
  Quote s = String dquote (s ++ String dquote EmptyString)%string.
Proof.
  intros H. unfold Quote. f_equal.
  induction s as [|c rest IH]; [reflexivity|].
  cbn [printableASCII] in H. apply andb_prop in H as [Hc Hrest].
  destruct (quoteASCII_printable c Hc) as [Hlt Hq].
  cbn [quoteRunes]. rewrite Hlt, Hq. cbn [append]. now rewrite IH.
Qed.

Lemma allDigits_printable (s : string) :
  allDigits s = true -> printableASCII s = true.
Proof.
  induction s as [|c rest IH]; intros H; [reflexivity|].
  cbn [allDigits] in H. apply andb_prop in H as [Hc Hrest].
  cbn [printableASCII]. rewrite (IH Hrest), andb_true_r.
  apply isDigit_code in Hc.
  repeat (apply andb_true_intro; split);
    first [apply Z.leb_le; lia | apply negb_true_iff, Z.eqb_neq; lia].
Qed.

Lemma parseDigits_nonneg (base : Z) (s : string) :
  forall n u m u', 0 <= base -> 0 <= n ->
    parseDigits base s n u = (Num m, u') -> 0 <= m.
Proof.
  induction s as [|c rest IH]; intros n u m u' Hb Hn H; cbn [parseDigits] in H.
  - injection H as <- _. assumption.
  - destruct (Ascii.eqb c "_"); [eauto|].
    destruct ((code "0" <=? code c) && (code c <=? code "9")) eqn:Hd.
    + apply andb_prop in Hd as [Hd _]. apply Z.leb_le in Hd.
      repeat match type of H with
             | (if ?b then _ else _) = _ => destruct b; try discriminate
             end.
      apply IH in H; [assumption|assumption|]. nia.
    + destruct ((code "a" <=? lower c) && (lower c <=? code "z")) eqn:Hl;
        [|discriminate].
      apply andb_prop in Hl as [Hl _]. apply Z.leb_le in Hl.
      repeat match type of H with
             | (if ?b then _ else _) = _ => destruct b; try discriminate
             end.
      apply IH in H; [assumption|assumption|]. nia.
Qed.

(** A value that [ParseInt] returns fits a signed 64-bit integer. *)
Lemma ParseInt_range (s : string) (v : Z) :
  ParseInt s = Some v -> - 2 ^ 63 <= v < 2 ^ 63.
Proof.
  unfold ParseInt. destruct s as [|c rest]; [discriminate|].
  set (ns := if Ascii.eqb c "+" then (false, rest)
             else if Ascii.eqb c "-" then (true, rest)
             else (false, String c rest)).
  destruct ns as [neg s1].
  destruct (ParseUint s1) as [un| |] eqn:E; try discriminate.
  assert (Hun : 0 <= un).
  { unfold ParseUint in E. destruct s1 as [|c0 rest0]; [discriminate|].
    match type of E with
    | (let '(b, d) := ?x in _) = _ => destruct x as [base digits] eqn:Ex
    end.
    destruct (parseDigits base digits 0 false) as [[m| |] us] eqn:Ep;
      try discriminate.
    assert (0 <= base).
    { repeat match type of Ex with
             | (if ?b then _ else _) = _ => destruct b
             | match ?r with _ => _ end = _ => destruct r
             end; injection Ex as <- _; lia. }
    apply parseDigits_nonneg in Ep; [|assumption|lia].
    destruct (us && negb (underscoreOK (String c0 rest0))); [discriminate|].
    now injection E as <-. }
  destruct neg; cbn [negb andb].
  - destruct (Z.ltb_spec (2 ^ 63) un); [discriminate|].
    intros Hv. injection Hv as <-. lia.
  - destruct (Z.leb_spec (2 ^ 63) un); [discriminate|].
    intros Hv. injection Hv as <-. lia.
Qed.

End Conversion.

(** ** The evaluator *)

Ltac eval_replay Hle :=
  match goal with
  | H : Value _ _ = Value _ _ |- _ => exact H
  | H : Unspecified = Value _ _ |- _ => discriminate H
  | H : NoFuel = Value _ _ |- _ => discriminate H
  | H : match ?x with _ => _ end = Value _ _ |- _ =>
      let E := fresh "E" in
      destruct x eqn:E; try discriminate H;
      try match goal with
          | IHx : _ |- _ => eapply IHx in E; [|exact Hle]; rewrite E
          end
  | H : _ = Value ?v ?h |- _ = Value ?v ?h =>
      match goal with
      | IHx : _ |- _ => eapply IHx; [exact Hle|exact H]
      end
  end.

Lemma eval_mono_all (n : nat) : eval_mono_at n.
Proof.
  induction n as [|n IH].
  - unfold eval_mono_at; repeat split; intros; discriminate.
  - destruct IH as (I1 & I2 & I3 & I4 & I5).
    unfold eval_mono_at; repeat split; intros m; intros;
      (destruct m as [|m]; [lia|]);
      match goal with Hm : S n <= S m |- _ => apply le_S_n in Hm end;
      cbn [evalExpression evalExpressions evalStatement evalBlock evalStatements]
        in *;
      unfold needValue in *;
      match goal with
      | Hm : n <= m |- _ => repeat eval_replay Hm
      end.
Qed.

Lemma evalProgram_mono (n m : nat) prog env h v h' :
  n <= m -> evalProgram n prog env h = Value v h' ->
  evalProgram m prog env h = Value v h'.
Proof. unfold evalProgram. apply (proj2 (proj2 (proj2 (proj2 (eval_mono_all n))))). Qed.

(** When a line evaluates to a result within fuel [k], it evaluates to the
    same result within any larger fuel. *)
Lemma evalSource_mono (k n : nat) (src : string) (v : option Object) :
  evalSource k src = Some v -> evalSource (k + n) src = Some v.
Proof.
  unfold evalSource. intros H.
  destruct (parseSource k src) as [prog q|] eqn:E; [|discriminate].
  rewrite (parseSource_mono k n _ _ _ E).
  destruct (Errors q); [|discriminate].
  destruct (NewEnvironment []) as [env h].
  destruct (evalProgram k prog env h) as [r h'| |] eqn:Ev; try discriminate.
  now rewrite (evalProgram_mono k (k + n) _ _ _ _ _ (Nat.le_add_r k n) Ev).
Qed.

(** C10.  Evaluating "5 + 5 + 5 + 5 - 10" in a fresh environment (with any
    fuel from 11 on) yields the value Integer 10. *)
Theorem eval_sum_chain (n : nat) :
  evalSource (11 + n) "5 + 5 + 5 + 5 - 10" = Some (Some (Integer 10)).
Proof. apply evalSource_mono. vm_compute. reflexivity. Qed.

(** ** Further examples of the specification, run on the model *)

Example parse_minus_a_times_b :
  exists prog q, parseSource 9 "-a * b" = Done prog q /\ Errors q = [] /\
    ProgramString prog = Some "((-a) * b)".
Proof. vm_compute. do 2 eexists. repeat split; reflexivity. Qed.

Example parse_bang_minus_a :
  exists prog q, parseSource 9 "!-a" = Done prog q /\ Errors q = [] /\
    ProgramString prog = Some "(!(-a))".
Proof. vm_compute. do 2 eexists. repeat split; reflexivity. Qed.

Example parse_let_renders :
  exists prog q, parseSource 9 "let  x =  1+2 ;" = Done prog q /\ Errors q = [] /\
    ProgramString prog = Some "let x = (1 + 2);".
Proof. vm_compute. do 2 eexists. repeat split; reflexivity. Qed.

Example eval_if_without_else :
  evalSource 20 "if (1 > 2) { 10 }" = Some (Some Null).
Proof. vm_compute. reflexivity. Qed.

Example eval_if_else :
  evalSource 20 "if (1 < 2) { 10 } else { 20 }" = Some (Some (Integer 10)).
Proof. vm_compute. reflexivity. Qed.

Example eval_function_call :
  evalSource 30 "let add = fn(x, y) { x + y; }; add(2, 3);" = Some (Some (Integer 5)).
Proof. vm_compute. reflexivity. Qed.

Example eval_closure :
  evalSource 40
    "let newAdder = fn(x) { fn(y) { x + y }; }; let addTwo = newAdder(2); addTwo(3);"
  = Some (Some (Integer 5)).
Proof. vm_compute. reflexivity. Qed.

Example eval_type_mismatch :
  evalSource 20 "5 + true;" = Some (Some (Error (TypeMismatch "+"))).
Proof. vm_compute. reflexivity. Qed.

Example eval_unknown_identifier :
  evalSource 20 "foobar" = Some (Some (Error (UnknownIdentifier "foobar"))).
Proof. vm_compute. reflexivity. Qed.

Example eval_return_stops_at_call :
  evalSource 40
    "let f = fn(x) { if (x > 1) { if (x > 2) { return 1; } } return 2; }; f(3) + 10;"
  = Some (Some (Integer 11)).
Proof. vm_compute. reflexivity. Qed.

(** A [nil] that [parseLetStatement] returns reaches [ParseProgram] inside a
    [Statement] interface, which is then not [nil]: the program keeps it,
    and its [String()] would dereference the [nil] pointer. *)
Example nil_let_statement_is_kept :
  exists q,
    parseSource 9 "let 5;" =
      Done {| Statements :=
                [LetStmt None;
                 exprStmt {| Type_ := INT; Literal := "5" |} (intLit "5" 5)] |} q /\
    Errors q = ["expected next token to be IDENTIFIER, got INT instead"] /\
    ProgramString
      {| Statements :=
           [LetStmt None;
            exprStmt {| Type_ := INT; Literal := "5" |} (intLit "5" 5)] |} = None.
Proof. vm_compute. eexists. repeat split; reflexivity. Qed.

(** A zero byte inside the input is read as the end-of-input token, and the
    lexer goes on behind it. *)
Example zero_byte_inside_input :
  tokens 3 (lexer.New (String "a" (String NUL (String "b" EmptyString)))) =
  [ {| Type_ := IDENTIFIER; Literal := "a" |};
    {| Type_ := EOF; Literal := "" |};
    {| Type_ := IDENTIFIER; Literal := "b" |} ].
Proof. vm_compute. reflexivity. Qed.


(** ** The lexer always moves on *)

Section LexerProgress.

Variable cond : ascii -> bool.
Hypothesis cond_NUL : cond NUL = false.

(** A loop that is entered steps over at least one byte. *)
Lemma readLoop_enters (lex : Lexer) :
  cursor_ok lex -> cond (char lex) = true ->
  S (position lex) <= position (readLoop cond lex).
Proof.
  intros Hok Hc. rewrite (readLoop_unfold cond cond_NUL), Hc.
  pose proof (proj1 (readWhile_run cond cond_NUL
                       (S (String.length (input (readChar lex))))
                       (readChar lex) (cursor_ok_readChar lex))) as H.
  unfold readLoop. destruct Hok as [Hr _].
  change (position (readChar lex)) with (readPosition lex) in H. lia.
Qed.

(** The loop stops on a byte that does not satisfy [cond]. *)
Lemma readWhile_exits (n : nat) :
  forall lex, String.length (input lex) - readPosition lex < n ->
    cond (char (readWhile cond n lex)) = false.
Proof.
  induction n as [|n IH]; intros lex Hlt; [lia|].
  cbn [readWhile]. destruct (cond (char lex)) eqn:Hc; [|exact Hc].
  destruct (Nat.le_gt_cases (String.length (input lex)) (readPosition lex))
    as [Hend|Hin].
  - rewrite (readWhile_NUL cond cond_NUL) by now apply readChar_past_end.
    now rewrite readChar_past_end.
  - apply IH. cbn. lia.
Qed.

Lemma readLoop_exits (lex : Lexer) : cond (char (readLoop cond lex)) = false.
Proof. apply readWhile_exits. lia. Qed.

End LexerProgress.

Lemma position_readLoop (cond : ascii -> bool) (lex : Lexer) :
  cond NUL = false -> cursor_ok lex -> position lex <= position (readLoop cond lex).
Proof. intros H Hok. exact (proj1 (readWhile_run cond H _ lex Hok)). Qed.

Lemma position_readChar (lex : Lexer) :
  cursor_ok lex -> position (readChar lex) = S (position lex).
Proof. intros [Hr _]. exact Hr. Qed.

(** Every call of [NextToken] moves the cursor forward. *)
Lemma NextToken_advances (l : Lexer) :
  cursor_ok l -> S (position l) <= position (snd (NextToken l)).
Proof.
  intros Hok.
  assert (Hs : cursor_ok (skipWhitespace l)) by now apply cursor_ok_readLoop.
  pose proof (position_readLoop isWhitespace l isWhitespace_NUL Hok) as Hle.
  unfold NextToken. fold (skipWhitespace l) in Hle.
  set (lx := skipWhitespace l) in *.
  pose proof (position_readChar lx Hs) as H1.
  pose proof (position_readChar (readChar lx) (cursor_ok_readChar lx)) as H2.
  unfold readIdentifier, readNumber.
  repeat match goal with
         | |- context [if ?b then _ else _] => destruct b eqn:?
         end; cbn [snd]; try lia.
  - pose proof (readLoop_enters isLetter isLetter_NUL lx Hs) as He.
    match goal with H : isLetter _ = true |- _ => specialize (He H) end. lia.
  - pose proof (readLoop_enters isDigit isDigit_NUL lx Hs) as He.
    match goal with H : isDigit _ = true |- _ => specialize (He H) end. lia.
Qed.

Lemma position_afterTokens (j : nat) :
  forall l, cursor_ok l -> position l + j <= position (afterTokens j l).
Proof.
  induction j as [|j IH]; intros l Hok; cbn [afterTokens]; [lia|].
  pose proof (NextToken_advances l Hok).
  pose proof (IH _ (cursor_ok_NextToken l Hok)). lia.
Qed.

(** X1.  A source of [n] bytes holds at most [n] tokens: from the [n]-th
    call on, whatever the bytes are, [NextToken] returns the end-of-input
    token. *)
Theorem token_stream_ends (src : string) (j : nat) :
  fst (NextToken (afterTokens (String.length src + j) (lexer.New src)))
  = {| Type_ := EOF; Literal := "" |}.
Proof.
  pose proof (cursor_ok_New src) as Hok.
  pose proof (position_afterTokens (String.length src + j) _ Hok) as Hpos.
  rewrite NextToken_past_end; [reflexivity| |].
  - now apply cursor_ok_afterTokens.
  - rewrite input_afterTokens. lia.
Qed.

(** ** The tokens that the lexer returns *)

Ltac pick_in := repeat first [left; reflexivity | right].

Lemma LookupIdentifier_cases (s : string) :
  In (LookupIdentifier s, s) fixedTokens \/
  (LookupIdentifier s = IDENTIFIER /\ lookup s keywords = None).
Proof.
  unfold LookupIdentifier, keywords. cbn [lookup].
  repeat match goal with
         | |- context [String.eqb s ?k] =>
             destruct (String.eqb_spec s k);
               [subst; left; unfold fixedTokens; cbn [In]; pick_in|]
         end.
  right. auto.
Qed.

(** X2.  Every token that [NextToken] returns is an identifier, an integer,
    an illegal byte, or one of the 24 tokens whose literal is fixed by its
    kind: an operator or delimiter has its own text as literal, a keyword
    its keyword, the end of input the empty string. *)
Theorem NextToken_kinds (l : Lexer) :
  In (Type_ (fst (NextToken l)), Literal (fst (NextToken l))) fixedTokens \/
  Type_ (fst (NextToken l)) = IDENTIFIER \/
  Type_ (fst (NextToken l)) = INT \/
  Type_ (fst (NextToken l)) = ILLEGAL.
Proof.
  unfold NextToken, readIdentifier, readNumber, newToken.
  set (lx := skipWhitespace l).
  change (char (readChar lx)) with (peekChar lx).
  repeat match goal with
         | |- context [if Ascii.eqb ?a ?b then _ else _] =>
             destruct (Ascii.eqb_spec a b)
         end;
    try (cbn [fst Type_ Literal];
         repeat match goal with
                | E : _ = _ :> ascii |- _ => rewrite E; clear E
                end;
         left; unfold fixedTokens; cbn [In]; pick_in; fail).
  destruct (isLetter (char lx)).
  - cbn [fst Type_ Literal].
    destruct (LookupIdentifier_cases
                (slice (input (readLoop isLetter lx)) (position lx)
                   (position (readLoop isLetter lx)))) as [H|[H _]]; auto.
  - destruct (isDigit (char lx)); cbn [fst Type_ Literal]; auto.
Qed.

Lemma allLetters_get (t : string) :
  (forall i c, String.get i t = Some c -> isLetter c = true) -> allLetters t = true.
Proof.
  induction t as [|c t IH]; intros H; [reflexivity|].
  cbn [allLetters]. apply andb_true_intro. split.
  - apply (H 0). reflexivity.
  - apply IH. intros i c' Hi. apply (H (S i)). exact Hi.
Qed.

Lemma allLetters_slice (s : string) (from to : nat) :
  (forall i, from <= i < to ->
     i < String.length s /\ isLetter (byteAt s i) = true) ->
  allLetters (slice s from to) = true.
Proof.
  intros H. apply allLetters_get. intros i c Hi. unfold slice in Hi.
  destruct (Nat.lt_ge_cases i (to - from)) as [Hlt|Hge].
  - rewrite String.substring_correct1 in Hi by assumption.
    destruct (H (i + from)) as [_ Hd]; [lia|].
    unfold byteAt in Hd. now rewrite Hi in Hd.
  - rewrite String.substring_correct2 in Hi by assumption. discriminate.
Qed.

Lemma get_in_range (s : string) :
  forall i, i < String.length s -> String.get i s <> None.
Proof.
  induction s as [|c s IH]; intros i Hi; cbn in Hi; [lia|].
  destruct i as [|i]; cbn; [discriminate|]. apply IH. lia.
Qed.

(** A slice that starts inside the string and is not empty by its bounds is
    not the empty string. *)
Lemma slice_nonempty (s : string) (from to : nat) :
  from < to -> from < String.length s -> slice s from to <> "".
Proof.
  intros Hlt Hin Hs.
  pose proof (String.substring_correct1 s from (to - from) 0 ltac:(lia)) as H.
  unfold slice in Hs. rewrite Hs in H. cbn in H.
  symmetry in H. now apply get_in_range in H.
Qed.

Lemma LookupIdentifier_not_IDENTIFIER_fixed (t : TokenType) (s : string) :
  In (t, s) fixedTokens -> t <> IDENTIFIER /\ t <> INT.
Proof.
  unfold fixedTokens. cbn [In]. intros H.
  repeat (destruct H as [H|H]; [injection H as <- <-; split; discriminate|]).
  contradiction.
Qed.

(** X3.  Maximal munch.  For a lexer that [New] and [NextToken] produce: an
    INT token's literal is a run of digits that is not empty, and the byte
    the lexer then stands on is not a digit; an IDENTIFIER token's literal is
    a run of letters and underscores that is not empty and is no keyword, and
    the byte the lexer then stands on is no letter. *)
Theorem NextToken_runs (l : Lexer) :
  cursor_ok l ->
  (Type_ (fst (NextToken l)) = INT ->
     Literal (fst (NextToken l)) <> "" /\
     allDigits (Literal (fst (NextToken l))) = true /\
     isDigit (char (snd (NextToken l))) = false) /\
  (Type_ (fst (NextToken l)) = IDENTIFIER ->
     Literal (fst (NextToken l)) <> "" /\
     allLetters (Literal (fst (NextToken l))) = true /\
     lookup (Literal (fst (NextToken l))) keywords = None /\
     isLetter (char (snd (NextToken l))) = false).
Proof.
  intros Hok.
  assert (Hs : cursor_ok (skipWhitespace l)) by now apply cursor_ok_readLoop.
  unfold NextToken, readIdentifier, readNumber, newToken.
  set (lx := skipWhitespace l) in *.
  repeat match goal with
         | |- context [if Ascii.eqb ?a ?b then _ else _] =>
             destruct (Ascii.eqb a b)
         end;
    try (cbn [fst snd Type_ Literal]; split; discriminate).
  destruct (isLetter (char lx)) eqn:Hl; [|destruct (isDigit (char lx)) eqn:Hd].
  - cbn [fst snd Type_ Literal].
    pose proof (readLoop_enters isLetter isLetter_NUL lx Hs Hl) as Hent.
    pose proof (readWhile_run isLetter isLetter_NUL
                  (S (String.length (input lx))) lx Hs) as [_ Hrun].
    fold (readLoop isLetter lx) in Hrun.
    assert (Hin : input (readLoop isLetter lx) = input lx) by apply input_readWhile.
    rewrite Hin. split.
    + intros H. now apply LookupIdentifier_not_INT in H.
    + intros Hid. split; [|split; [|split]].
      * apply slice_nonempty; [lia|]. apply (Hrun (position lx)). lia.
      * now apply allLetters_slice.
      * destruct (LookupIdentifier_cases
                    (slice (input lx) (position lx)
                       (position (readLoop isLetter lx)))) as [H|[_ H]];
          [|exact H].
        apply LookupIdentifier_not_IDENTIFIER_fixed in H. tauto.
      * apply (readLoop_exits isLetter isLetter_NUL).
  - cbn [fst snd Type_ Literal].
    pose proof (readLoop_enters isDigit isDigit_NUL lx Hs Hd) as Hent.
    pose proof (readWhile_run isDigit isDigit_NUL
                  (S (String.length (input lx))) lx Hs) as [_ Hrun].
    fold (readLoop isDigit lx) in Hrun.
    assert (Hin : input (readLoop isDigit lx) = input lx) by apply input_readWhile.
    rewrite Hin. split; [|discriminate].
    intros _. split; [|split].
    + apply slice_nonempty; [lia|]. apply (Hrun (position lx)). lia.
    + now apply allDigits_slice.
    + apply (readLoop_exits isDigit isDigit_NUL).
  - cbn [fst snd Type_ Literal]. split; discriminate.
Qed.

Lemma NextToken_runs_witness :
  cursor_ok (lexer.New "x1") /\
  Type_ (fst (NextToken (lexer.New "x1"))) = IDENTIFIER /\
  Literal (fst (NextToken (lexer.New "x1"))) = "x" /\
  isLetter (char (snd (NextToken (lexer.New "x1")))) = false.
Proof.
  split; [apply cursor_ok_New|]. split; [reflexivity|]. split; [reflexivity|].
  apply (proj2 (NextToken_runs (lexer.New "x1") (cursor_ok_New "x1"))).
  reflexivity.
Defined.

(** ** The token listing of [repl.StartLexer] *)

Lemma StartLexer_loop_ends (fuel : nat) :
  forall l, cursor_ok l ->
    String.length (input l) - position l < fuel ->
    exists k,
      StartLexer_loop fuel l = Some (map printToken (tokens k l)) /\
      Forall (fun t => Type_ t <> EOF) (tokens k l) /\
      Type_ (fst (NextToken (afterTokens k l))) = EOF /\
      k <= String.length (input l) - position l.
Proof.
  induction fuel as [|fuel IH]; intros l Hok Hlt; [lia|].
  cbn [StartLexer_loop].
  pose proof (NextToken_advances l Hok) as Hadv.
  pose proof (cursor_ok_NextToken l Hok) as Hok'.
  pose proof (input_NextToken l) as Hin.
  destruct (NextToken l) as [tok l'] eqn:E. cbn [snd] in *.
  destruct (String.eqb_spec (Type_ tok) EOF) as [Heof|Hne]; cbn [negb].
  - exists 0. cbn [tokens afterTokens map]. rewrite E. cbn [fst].
    repeat split; auto. lia.
  - assert (Hpos : position l < String.length (input l)).
    { destruct (Nat.lt_ge_cases (position l) (String.length (input l)));
        [assumption|].
      rewrite NextToken_past_end in E by assumption.
      injection E as <- _. now contradiction Hne. }
    destruct (IH l' Hok') as (k & Hk & Hall & Hend & Hle); [rewrite Hin; lia|].
    exists (S k). cbn [tokens afterTokens map]. rewrite E. cbn [snd].
    rewrite Hk. cbn [option_map]. repeat split; auto.
    rewrite Hin in Hle. lia.
Qed.

(** X4.  The token listing of [StartLexer] ends on every line: within
    [len(line) + 1] iterations the loop has printed the tokens before the
    first end-of-input token (at most [len(line)] of them, none of kind EOF),
    one line each, and stopped. *)
Theorem StartLexer_line_ends (line : string) :
  exists k,
    StartLexer_line (S (String.length line)) line
      = Some (map printToken (tokens k (lexer.New line))) /\
    Forall (fun t => Type_ t <> EOF) (tokens k (lexer.New line)) /\
    Type_ (fst (NextToken (afterTokens k (lexer.New line)))) = EOF /\
    k <= String.length line.
Proof.
  destruct (StartLexer_loop_ends (S (String.length line)) (lexer.New line)
              (cursor_ok_New line)) as (k & H1 & H2 & H3 & H4).
  - cbn. lia.
  - exists k. repeat split; auto. cbn in H4. lia.
Qed.

(** ** What every parse method leaves of the parser *)

Lemma grows_refl (p : Parser) : grows p p.
Proof.
  split; [apply reaches_refl|]. split; [|auto].
  exists []. now rewrite app_nil_r.
Qed.

Lemma grows_trans (p q r : Parser) : grows q r -> grows p q -> grows p r.
Proof.
  intros (R2 & [e2 E2] & P2 & I2) (R1 & [e1 E1] & P1 & I1).
  split; [eapply reaches_trans; eassumption|]. split; [|split; congruence].
  exists (e1 ++ e2)%list. now rewrite E2, E1, app_assoc.
Qed.

Lemma grows_step_nextToken (p : Parser) : grows p (nextToken p).
Proof.
  split; [apply reaches_nextToken, reaches_refl|].
  unfold nextToken. destruct (NextToken (lex p)). cbn.
  split; [|auto]. exists []. now rewrite app_nil_r.
Qed.

Lemma grows_step_addError (p : Parser) (msg : string) : grows p (addError p msg).
Proof.
  split; [apply reaches_addError, reaches_refl|]. cbn.
  split; [|auto]. now exists [msg].
Qed.

Lemma grows_nextToken (p q : Parser) : grows p q -> grows p (nextToken q).
Proof. intros H. eapply grows_trans; [apply grows_step_nextToken|exact H]. Qed.

Lemma grows_addError (p q : Parser) (msg : string) :
  grows p q -> grows p (addError q msg).
Proof. intros H. eapply grows_trans; [apply grows_step_addError|exact H]. Qed.

Lemma grows_expectPeek (p q q' : Parser) (tok : TokenType) (ok : bool) :
  expectPeek q tok = (ok, q') -> grows p q -> grows p q'.
Proof.
  unfold expectPeek, peekError. intros E H.
  destruct (peekTokenIs q tok); injection E as <- <-;
    auto using grows_nextToken, grows_addError.
Qed.

Lemma grows_parseIntegerLiteral (p q q' : Parser) (e : option Expression) :
  parseIntegerLiteral q = (e, q') -> grows p q -> grows p q'.
Proof.
  unfold parseIntegerLiteral. intros E H.
  destruct (strconv.ParseInt _); injection E as <- <-;
    auto using grows_addError.
Qed.

Ltac solve_grows :=
  match goal with
  | |- grows ?p ?p => apply grows_refl
  | |- grows _ (nextToken _) => apply grows_nextToken; solve_grows
  | |- grows _ (addError _ _) => apply grows_addError; solve_grows
  | |- grows _ (noPrefixParseFnError _ _) => apply grows_addError; solve_grows
  | H : expectPeek ?q _ = (_, ?q') |- grows _ ?q' =>
      apply (grows_expectPeek _ _ _ _ _ H); solve_grows
  | H : parseIntegerLiteral ?q = (_, ?q') |- grows _ ?q' =>
      apply (grows_parseIntegerLiteral _ _ _ _ H); solve_grows
  | H : grows ?q ?q' |- grows _ ?q' =>
      apply (grows_trans _ _ _ H); solve_grows
  end.

Lemma skipToSemicolon_grows (n : nat) :
  forall p a q, skipToSemicolon n p = Done a q -> grows p q.
Proof.
  induction n as [|n IH]; intros p a q H; [discriminate|].
  simpl in H. destruct (negb (curTokenIs p SEMICOLON)).
  - apply IH in H. solve_grows.
  - injection H as _ <-. solve_grows.
Qed.

Lemma parseFunctionParameters_loop_grows (n : nat) :
  forall ids p a q, parseFunctionParameters_loop n ids p = Done a q -> grows p q.
Proof.
  induction n as [|n IH]; intros ids p a q H; [discriminate|].
  simpl in H. destruct (peekTokenIs p COMMA).
  - apply IH in H. solve_grows.
  - injection H as _ <-. solve_grows.
Qed.

Lemma parseFunctionParameters_grows (n : nat) (p : Parser) a q :
  parseFunctionParameters n p = Done a q -> grows p q.
Proof.
  unfold parseFunctionParameters. intros H.
  destruct (peekTokenIs p RPAREN).
  - injection H as _ <-. solve_grows.
  - destruct (parseFunctionParameters_loop n _ _) as [ids p2|] eqn:E; [|discriminate].
    apply parseFunctionParameters_loop_grows in E. cbn [andThen] in H.
    destruct (expectPeek p2 RPAREN) as [ok p3] eqn:E3.
    destruct (negb ok); injection H as _ <-; solve_grows.
Qed.

Ltac split_all :=
  repeat lazymatch goal with |- _ /\ _ => split end.

Ltac follow_grows :=
  match goal with
  | _ => progress cbn [andThen] in *
  | H : andThen (match ?x with _ => _ end) _ = Done _ _ |- _ =>
      destruct x eqn:?
  | H : andThen ?o _ = Done _ _ |- _ =>
      let E := fresh "E" in
      destruct o as [? ?|] eqn:E; [|discriminate H];
      cbn [andThen] in H;
      first
        [ apply skipToSemicolon_grows in E
        | apply parseFunctionParameters_grows in E
        | match goal with
          | IHx : _ |- _ => apply IHx in E
          end ]
  | H : (if ?b then _ else _) = Done _ _ |- _ => destruct b eqn:?
  | H : match ?x with _ => _ end = Done _ _ |- _ => destruct x eqn:?
  | H : OutOfFuel = Done _ _ |- _ => discriminate H
  | H : Done _ _ = Done _ _ |- _ => injection H as <- <-
  | H : ?f = Done _ ?q |- grows _ ?q =>
      match goal with
      | IHx : _ |- _ => apply IHx in H
      end
  | |- context [if ?b then _ else _] => destruct b
  end.

Lemma parse_grows_all (n : nat) : parse_grows_at n.
Proof.
  induction n as [|n IH].
  - unfold parse_grows_at; split_all; intros; discriminate.
  - destruct IH as (I1 & I2 & I3 & I4 & I5 & I6 & I7 & I8 & I9 & I10 & I11
                    & I12 & I13 & I14 & I15 & I16).
    unfold parse_grows_at; split_all; intros;
      unfold_parse; repeat follow_grows; solve_grows.
Qed.

Lemma ParseProgram_loop_grows (n : nat) :
  forall l p a q, ParseProgram_loop n l p = Done a q ->
    grows p q /\ Type_ (curToken q) = EOF.
Proof.
  induction n as [|n IH]; intros l p a q H; [discriminate|].
  cbn [ParseProgram_loop] in H.
  destruct (String.eqb_spec (Type_ (curToken p)) EOF) as [Heof|Hne]; cbn [negb] in H.
  - injection H as _ <-. split; [apply grows_refl|exact Heof].
  - destruct (parseStatement n p) as [s p1|] eqn:E; [|discriminate].
    cbn [andThen] in H. apply (proj1 (parse_grows_all n)) in E.
    apply IH in H as [H Hq]. split; [solve_grows|exact Hq].
Qed.

(** X5.  When [ParseProgram] returns, the parser stands on the
    end-of-input token; it has only moved forward through the tokens of the
    lexer (no token is pushed back), the errors recorded before are still
    there, in front of the new ones in the order they were found, and the
    handler tables are untouched. *)
Theorem ParseProgram_consumes_input (fuel : nat) (p q : Parser) (prog : Program) :
  ParseProgram fuel p = Done prog q ->
  Type_ (curToken q) = EOF /\
  (exists k, window q = window (advance k p)) /\
  (exists es, Errors q = (Errors p ++ es)%list) /\
  prefixParseFns q = prefixParseFns p /\
  infixParseFns q = infixParseFns p.
Proof.
  unfold ParseProgram. intros H.
  destruct (ParseProgram_loop fuel [] p) as [l p1|] eqn:E; [|discriminate].
  cbn [andThen] in H. injection H as _ <-.
  apply ParseProgram_loop_grows in E as [(R & Er & P & I) Hq]. auto.
Qed.

Lemma ParseProgram_consumes_input_witness :
  exists prog q,
    parseSource 9 "let x = 1; x + " = Done prog q /\
    Type_ (curToken q) = EOF /\
    Errors q = ["no prefix parse function for EOF found"].
Proof.
  assert (E : exists prog q,
             ParseProgram 9 (New (lexer.New "let x = 1; x + ")) = Done prog q /\
             Errors q = ["no prefix parse function for EOF found"])
    by (vm_compute; do 2 eexists; split; reflexivity).
  destruct E as (prog & q & E & Herr). exists prog, q.
  split; [exact E|]. split; [|exact Herr].
  exact (proj1 (ParseProgram_consumes_input 9 _ q prog E)).
Defined.

(** ** A parse without errors has no nil node that [String] would read *)

Lemma CallExpression_String tok f args :
  ExpressionString (CallExpression tok f args)
  = (a <- match args with Some l => ArgumentsString l | None => Some [] end ;;
     f' <- match f with Some x => ExpressionString x | None => None end ;;
     ret (f' ++ "(" ++ join a ", " ++ ")")).
Proof. destruct args; reflexivity. Qed.

Lemma BlockStatement_String tok l :
  BlockStatementString (mkBlock tok l) = StatementsString l.
Proof. reflexivity. Qed.

Lemma append_assoc (a b c : string) : ((a ++ b) ++ c = a ++ (b ++ c))%string.
Proof. induction a as [|x a IH]; cbn; [reflexivity|now rewrite IH]. Qed.

Lemma append_nil_r (a : string) : (a ++ "")%string = a.
Proof. induction a as [|x a IH]; cbn; [reflexivity|now rewrite IH]. Qed.

Lemma StatementsString_app (l1 l2 : list Statement) :
  StatementsString (l1 ++ l2)
  = (x <- StatementsString l1 ;; y <- StatementsString l2 ;; ret (x ++ y)).
Proof.
  induction l1 as [|s l1 IH]; cbn [app StatementsString].
  - unfold ret, bind. now destruct (StatementsString l2).
  - rewrite IH. unfold ret, bind.
    destruct (StatementString s); [|reflexivity].
    destruct (StatementsString l1); [|reflexivity].
    destruct (StatementsString l2); [|reflexivity].
    now rewrite append_assoc.
Qed.

Lemma nerr_nextToken (p : Parser) : nerr (nextToken p) = nerr p.
Proof. unfold nerr, nextToken. now destruct (NextToken (lex p)). Qed.

Lemma nerr_addError (p : Parser) (msg : string) : nerr (addError p msg) = S (nerr p).
Proof. unfold nerr, addError. cbn. rewrite length_app. cbn. lia. Qed.

Lemma nerr_noPrefixParseFnError (p : Parser) (t : TokenType) :
  nerr (noPrefixParseFnError p t) = S (nerr p).
Proof. apply nerr_addError. Qed.

Lemma expectPeek_nerr (p q : Parser) (tok : TokenType) (ok : bool) :
  expectPeek p tok = (ok, q) -> nerr q = if ok then nerr p else S (nerr p).
Proof.
  unfold expectPeek, peekError. intros E.
  destruct (peekTokenIs p tok); injection E as <- <-;
    [apply nerr_nextToken|apply nerr_addError].
Qed.

Lemma grows_nerr (p q : Parser) : grows p q -> nerr p <= nerr q.
Proof.
  intros (_ & [es E] & _). unfold nerr. rewrite E, length_app. lia.
Qed.

Lemma parseIntegerLiteral_nerr (p q : Parser) (e : option Expression) :
  parseIntegerLiteral p = (e, q) ->
  (nerr q = nerr p /\ goodE e) \/ nerr q = S (nerr p).
Proof.
  unfold parseIntegerLiteral. intros E.
  destruct (strconv.ParseInt _); injection E as <- <-.
  - left. split; [reflexivity|]. eexists. split; [reflexivity|]. now eexists.
  - right. apply nerr_addError.
Qed.

Lemma goodE_identifier (p : Parser) : goodE (parseIdentifier p).
Proof. eexists. split; [reflexivity|]. now eexists. Qed.

Lemma goodE_boolean (p : Parser) : goodE (parseBoolean p).
Proof. eexists. split; [reflexivity|]. now eexists. Qed.

Lemma goodE_prefix tok op r : goodE r -> goodE (Some (PrefixExpression tok op r)).
Proof.
  intros (e & -> & s & E). eexists. split; [reflexivity|].
  cbn [ExpressionString]. rewrite E. now eexists.
Qed.

Lemma goodE_infix tok l op r :
  goodE l -> goodE r -> goodE (Some (InfixExpression tok l op r)).
Proof.
  intros (e1 & -> & s1 & E1) (e2 & -> & s2 & E2). eexists. split; [reflexivity|].
  cbn [ExpressionString]. rewrite E1, E2. now eexists.
Qed.

Lemma goodE_if tok c t :
  goodE c -> goodB t -> goodE (Some (IfExpression tok c t None)).
Proof.
  intros (e1 & -> & s1 & E1) (e2 & -> & s2 & E2). eexists. split; [reflexivity|].
  cbn [ExpressionString]. rewrite E1, E2. now eexists.
Qed.

Lemma goodE_if_else tok c t a :
  goodE c -> goodB t -> goodB a -> goodE (Some (IfExpression tok c t a)).
Proof.
  intros (e1 & -> & s1 & E1) (e2 & -> & s2 & E2) (e3 & -> & s3 & E3).
  eexists. split; [reflexivity|].
  cbn [ExpressionString]. rewrite E1, E2, E3. now eexists.
Qed.

Lemma goodE_function tok ps b : goodB b -> goodE (Some (FunctionLiteral tok ps b)).
Proof.
  intros (e1 & -> & s1 & E1). eexists. split; [reflexivity|].
  cbn [ExpressionString]. rewrite E1. now eexists.
Qed.

Lemma goodArgs_String (l : list (option Expression)) :
  goodArgs l -> present (ArgumentsString l).
Proof.
  induction 1 as [|a l (e & -> & s & E) _ [ss IH]]; cbn [ArgumentsString].
  - now eexists.
  - rewrite E, IH. now eexists.
Qed.

Lemma goodE_call tok f args :
  goodE f -> (forall l, args = Some l -> goodArgs l) ->
  goodE (Some (CallExpression tok f args)).
Proof.
  intros (e1 & -> & s1 & E1) H. eexists. split; [reflexivity|].
  rewrite CallExpression_String, E1. destruct args as [l|].
  - destruct (goodArgs_String l (H l eq_refl)) as [ss ->]. now eexists.
  - now eexists.
Qed.

Lemma goodB_block tok l : goodL l -> goodB (Some (mkBlock tok l)).
Proof.
  intros [s E]. eexists. split; [reflexivity|].
  rewrite BlockStatement_String, E. now eexists.
Qed.

Lemma goodL_nil : goodL [].
Proof. now eexists. Qed.

Lemma goodL_snoc l s : goodL l -> goodS (Some s) -> goodL (l ++ [s]).
Proof.
  intros [x E] (s' & [= <-] & y & Es). unfold goodL.
  rewrite StatementsString_app, E. cbn [StatementsString]. rewrite Es. now eexists.
Qed.

Lemma goodArgs_one a : goodE a -> goodArgs [a].
Proof. intros H. now constructor. Qed.

Lemma goodArgs_snoc l a : goodArgs l -> goodE a -> goodArgs (l ++ [a]).
Proof. intros H Ha. apply Forall_app. split; [exact H|now constructor]. Qed.

Lemma goodLet_let tok name value :
  value = None \/ goodE value -> goodLet (Some (mkLet tok (Some name) value)).
Proof.
  intros [->|(e & -> & s & E)]; (eexists; split; [reflexivity|]);
    cbn [LetStatementString]; [|rewrite E]; now eexists.
Qed.

Lemma goodReturn_return tok value :
  value = None \/ goodE value -> goodReturn (Some (mkReturn tok value)).
Proof.
  intros [->|(e & -> & s & E)]; (eexists; split; [reflexivity|]);
    cbn [ReturnStatementString]; [|rewrite E]; now eexists.
Qed.

Lemma goodExpressionStatement_expression tok e :
  e = None \/ goodE e ->
  goodExpressionStatement (Some (mkExpressionStatement tok e)).
Proof.
  intros [->|(x & -> & s & E)]; (eexists; split; [reflexivity|]);
    cbn [ExpressionStatementString]; [|rewrite E]; now eexists.
Qed.

Lemma goodS_let o : goodLet o -> goodS (Some (LetStmt o)).
Proof. intros (s & -> & H). eexists. split; [reflexivity|exact H]. Qed.

Lemma goodS_return o : goodReturn o -> goodS (Some (ReturnStmt o)).
Proof. intros (s & -> & H). eexists. split; [reflexivity|exact H]. Qed.

Lemma goodS_expression o : goodExpressionStatement o -> goodS (Some (ExpressionStmt o)).
Proof. intros (s & -> & H). eexists. split; [reflexivity|exact H]. Qed.

Ltac grows_in G :=
  first
    [ apply skipToSemicolon_grows in G
    | apply parseFunctionParameters_grows in G
    | apply (proj1 (parse_grows_all _)) in G
    | apply (proj1 (proj2 (parse_grows_all _))) in G
    | apply (proj1 (proj2 (proj2 (parse_grows_all _)))) in G
    | apply (proj1 (proj2 (proj2 (proj2 (parse_grows_all _))))) in G
    | apply (proj1 (proj2 (proj2 (proj2 (proj2 (parse_grows_all _)))))) in G
    | apply (proj1 (proj2 (proj2 (proj2 (proj2 (proj2 (parse_grows_all _))))))) in G
    | apply (proj1 (proj2 (proj2 (proj2 (proj2 (proj2 (proj2 (parse_grows_all _)))))))) in G
    | apply (proj1 (proj2 (proj2 (proj2 (proj2 (proj2 (proj2 (proj2 (parse_grows_all _))))))))) in G
    | apply (proj1 (proj2 (proj2 (proj2 (proj2 (proj2 (proj2 (proj2 (proj2 (parse_grows_all _)))))))))) in G
    | apply (proj1 (proj2 (proj2 (proj2 (proj2 (proj2 (proj2 (proj2 (proj2 (proj2 (parse_grows_all _))))))))))) in G
    | apply (proj1 (proj2 (proj2 (proj2 (proj2 (proj2 (proj2 (proj2 (proj2 (proj2 (proj2 (parse_grows_all _)))))))))))) in G
    | apply (proj1 (proj2 (proj2 (proj2 (proj2 (proj2 (proj2 (proj2 (proj2 (proj2 (proj2 (proj2 (parse_grows_all _))))))))))))) in G
    | apply (proj1 (proj2 (proj2 (proj2 (proj2 (proj2 (proj2 (proj2 (proj2 (proj2 (proj2 (proj2 (proj2 (parse_grows_all _)))))))))))))) in G
    | apply (proj1 (proj2 (proj2 (proj2 (proj2 (proj2 (proj2 (proj2 (proj2 (proj2 (proj2 (proj2 (proj2 (proj2 (parse_grows_all _))))))))))))))) in G
    | apply (proj1 (proj2 (proj2 (proj2 (proj2 (proj2 (proj2 (proj2 (proj2 (proj2 (proj2 (proj2 (proj2 (proj2 (proj2 (parse_grows_all _)))))))))))))))) in G
    | apply (proj2 (proj2 (proj2 (proj2 (proj2 (proj2 (proj2 (proj2 (proj2 (proj2 (proj2 (proj2 (proj2 (proj2 (proj2 (parse_grows_all _)))))))))))))))) in G ].

Ltac follow_nerr :=
  match goal with
  | _ => progress cbn [andThen] in *
  | H : context [expectPeek ?p ?t] |- _ =>
      let E := fresh "E" in
      let ok := fresh "ok" in
      destruct (expectPeek p t) as [ok ?] eqn:E;
      apply expectPeek_nerr in E; destruct ok; cbn [negb] in H
  | H : context [parseIntegerLiteral ?p] |- _ =>
      let E := fresh "E" in
      destruct (parseIntegerLiteral p) as [? ?] eqn:E;
      apply parseIntegerLiteral_nerr in E; destruct E as [[E ?]|E]
  | H : andThen (match ?x with _ => _ end) _ = Done _ _ |- _ =>
      destruct x eqn:?
  | H : andThen ?o _ = Done _ _ |- _ =>
      let E := fresh "E" in
      destruct o as [? ?|] eqn:E; [|discriminate H];
      cbn [andThen] in H
  | H : OutOfFuel = Done _ _ |- _ => discriminate H
  | H : Done _ _ = Done _ _ |- _ => injection H as <- <-
  | H : context [if ?b then _ else _] |- _ => destruct b eqn:?
  | H : match ?x with _ => _ end = Done _ _ |- _ => destruct x eqn:?
  end.

Ltac note_nerr :=
  match goal with
  | E : _ = Done _ ?q |- _ =>
      lazymatch goal with
      | G : nerr _ <= nerr q |- _ => fail
      | _ =>
          let G := fresh "G" in
          pose proof E as G; grows_in G; apply grows_nerr in G
      end
  end.

Ltac use_good :=
  match reverse goal with
  | IHx : _, E : _ = Done _ _ |- _ =>
      apply IHx in E;
        [|solve [rewrite ?nerr_nextToken; lia | assumption | eauto with render]..]
  end.

Create HintDb render.

#[local] Hint Resolve goodE_identifier goodE_boolean goodE_prefix goodE_infix
  goodE_if goodE_if_else goodE_function goodE_call goodB_block goodL_nil
  goodL_snoc goodArgs_one goodArgs_snoc goodLet_let goodReturn_return
  goodExpressionStatement_expression goodS_let goodS_return goodS_expression
  : render.

Lemma parse_good_all (n : nat) : parse_good_at n.
Proof.
  induction n as [|n IH].
  - unfold parse_good_at; split_all; intros; discriminate.
  - destruct IH as (I1 & I2 & I3 & I4 & I5 & I6 & I7 & I8 & I9 & I10 & I11
                    & I12 & I13 & I14 & I15 & I16).
    unfold parse_good_at; split_all; intros;
      unfold_parse; repeat follow_nerr; repeat note_nerr;
      rewrite ?nerr_nextToken, ?nerr_noPrefixParseFnError in *;
      try (exfalso; lia).
    all: repeat use_good.
    all: try match goal with
             | E : goodS ?a, H : context [match ?a with _ => _ end] |- _ =>
                 let X := fresh in
                 pose proof E as X; destruct X as (? & -> & _)
             end.
    all: repeat use_good.
    all: try match goal with
             | H : Some _ = Some ?l |- goodArgs ?l => injection H as <-
             end.
    all: try solve [constructor].
    all: eauto 6 with render.
Qed.

Lemma ParseProgram_loop_good (n : nat) :
  forall l p a q, ParseProgram_loop n l p = Done a q ->
    nerr q = nerr p -> goodL l -> goodL a.
Proof.
  induction n as [|n IH]; intros l p a q H Hn Hl; [discriminate|].
  cbn [ParseProgram_loop] in H.
  destruct (negb (Type_ (curToken p) =? EOF)%string).
  - destruct (parseStatement n p) as [s p1|] eqn:E; [|discriminate].
    cbn [andThen] in H.
    pose proof (grows_nerr _ _ (proj1 (parse_grows_all n) _ _ _ E)) as G1.
    pose proof (grows_nerr _ _ (proj1 (ParseProgram_loop_grows _ _ _ _ _ H))) as G2.
    rewrite nerr_nextToken in G2.
    apply (proj1 (parse_good_all n)) in E; [|lia].
    destruct E as (s' & -> & Hs).
    apply IH in H; [exact H|rewrite nerr_nextToken; lia|].
    apply goodL_snoc; [exact Hl|]. eexists; split; [reflexivity|exact Hs].
  - injection H as <- _. exact Hl.
Qed.

(** X6.  Where the parser gives up it records an error, so a parse that
    records none has built a complete tree: if [ParseProgram] returns with
    the errors it started with, then [String] of the program is defined,
    that is, no [String] method meets a nil expression, a nil statement
    pointer or a nil block. *)
Theorem ParseProgram_without_errors_renders
  (fuel : nat) (p q : Parser) (prog : Program) :
  ParseProgram fuel p = Done prog q ->
  Errors q = Errors p ->
  exists s, ProgramString prog = Some s.
Proof.
  unfold ParseProgram, Errors. intros H Herr.
  destruct (ParseProgram_loop fuel [] p) as [l p1|] eqn:E; [|discriminate].
  cbn [andThen] in H. injection H as <- <-.
  apply ParseProgram_loop_good in E; [exact E| |apply goodL_nil].
  unfold nerr. now rewrite Herr.
Qed.

Lemma ParseProgram_without_errors_renders_witness :
  exists prog q,
    parseSource 20 "let f = fn(x, y) { if (x < y) { x } else { -y } }; f(1, 2 * 3)"
    = Done prog q /\
    Errors q = [] /\
    exists s, ProgramString prog = Some s.
Proof.
  assert (E : exists prog q,
             ParseProgram 20 (New (lexer.New
               "let f = fn(x, y) { if (x < y) { x } else { -y } }; f(1, 2 * 3)"))
             = Done prog q /\ Errors q = [])
    by (vm_compute; do 2 eexists; split; reflexivity).
  destruct E as (prog & q & E & Herr). exists prog, q.
  split; [exact E|]. split; [exact Herr|].
  exact (ParseProgram_without_errors_renders 20 _ q prog E Herr).
Defined.


(** ** [ParseProgram] returns when no token is [let] or [return] *)

Lemma afterTokens_S (k : nat) (l : Lexer) :
  afterTokens (S k) l = snd (NextToken (afterTokens k l)).
Proof.
  replace (S k) with (k + 1) by lia. now rewrite afterTokens_add.
Qed.

Lemma peekToken_nextToken (p : Parser) :
  peekToken (nextToken p) = fst (NextToken (lex p)).
Proof. unfold nextToken. now destruct (NextToken (lex p)). Qed.

Lemma At_New (src : string) : At src 0 (New (lexer.New src)).
Proof.
  unfold At. split; [|split; [|split]].
  - unfold New. now rewrite curToken_nextToken, peekToken_nextToken.
  - unfold New. rewrite peekToken_nextToken, lex_nextToken. reflexivity.
  - apply lex_New.
  - apply handlersOfNew_New.
Qed.

Lemma At_nextToken (src : string) (j : nat) (p : Parser) :
  At src j p -> At src (S j) (nextToken p).
Proof.
  intros (Hc & Hp & Hl & Hh). unfold At.
  rewrite curToken_nextToken, peekToken_nextToken, lex_nextToken, Hl.
  split; [exact Hp|]. split; [reflexivity|].
  split; [now rewrite <- afterTokens_S|now apply handlersOfNew_nextToken].
Qed.

Lemma At_addError (src : string) (j : nat) (p : Parser) (msg : string) :
  At src j p -> At src j (addError p msg).
Proof. intros H. exact H. Qed.

Lemma At_noPrefixParseFnError (src : string) (j : nat) (p : Parser) (t : TokenType) :
  At src j p -> At src j (noPrefixParseFnError p t).
Proof. intros H. exact H. Qed.

Lemma tokAt_past_end (src : string) (i : nat) :
  String.length src <= i -> tokAt src i = EOFToken.
Proof.
  intros Hi. unfold tokAt.
  pose proof (cursor_ok_New src) as Hok.
  pose proof (position_afterTokens i _ Hok) as Hpos.
  rewrite NextToken_past_end; [reflexivity| |].
  - now apply cursor_ok_afterTokens.
  - rewrite input_afterTokens. cbn [input lexer.New] in *. lia.
Qed.

Lemma At_cur (src : string) (j : nat) (p : Parser) :
  At src j p -> Type_ (curToken p) <> EOF -> j < String.length src.
Proof.
  intros (Hc & _) Hne. destruct (Nat.lt_ge_cases j (String.length src)) as [H|H];
    [exact H|]. exfalso. apply Hne. now rewrite Hc, tokAt_past_end.
Qed.

Lemma At_peek (src : string) (j : nat) (p : Parser) :
  At src j p -> Type_ (peekToken p) <> EOF -> S j < String.length src.
Proof.
  intros (_ & Hp & _) Hne.
  destruct (Nat.lt_ge_cases (S j) (String.length src)) as [H|H];
    [exact H|]. exfalso. apply Hne. now rewrite Hp, tokAt_past_end.
Qed.

Lemma At_prefix_handler (src : string) (j : nat) (p : Parser) (f : prefixParseFn) :
  At src j p -> lookup (Type_ (curToken p)) (prefixParseFns p) = Some f ->
  j < String.length src.
Proof.
  intros HA H. apply (At_cur src j p HA). intros Heof.
  destruct HA as (_ & _ & _ & Hh & _). rewrite Heof, Hh in H. discriminate H.
Qed.

Lemma At_infix_handler (src : string) (j : nat) (p : Parser) (f : infixParseFn) :
  At src j p -> lookup (Type_ (peekToken p)) (infixParseFns p) = Some f ->
  S j < String.length src.
Proof.
  intros HA H. apply (At_peek src j p HA). intros Heof.
  destruct HA as (_ & _ & _ & _ & Hh). rewrite Heof, Hh in H. discriminate H.
Qed.

Lemma At_peekTokenIs (src : string) (j : nat) (p : Parser) (t : TokenType) :
  At src j p -> peekTokenIs p t = true -> t <> EOF -> S j < String.length src.
Proof.
  intros HA H Ht. apply (At_peek src j p HA).
  unfold peekTokenIs in H. apply String.eqb_eq in H. congruence.
Qed.

Lemma At_block_goes_on (src : string) (j : nat) (p : Parser) :
  At src j p ->
  negb (curTokenIs p RBRACE) && negb (curTokenIs p EOF) = true ->
  j < String.length src.
Proof.
  intros HA H. apply (At_cur src j p HA). intros Heof.
  apply andb_prop in H as [_ H]. unfold curTokenIs in H.
  rewrite Heof in H. discriminate H.
Qed.

Lemma At_expectPeek (src : string) (j : nat) (p q : Parser) (t : TokenType)
  (ok : bool) :
  At src j p -> expectPeek p t = (ok, q) -> t <> EOF ->
  if ok then S j < String.length src /\ At src (S j) q else At src j q.
Proof.
  unfold expectPeek, peekError. intros HA E Ht.
  destruct (peekTokenIs p t) eqn:Hp; injection E as <- <-.
  - split; [now apply (At_peekTokenIs src j p t)|now apply At_nextToken].
  - now apply At_addError.
Qed.

Lemma At_parseIntegerLiteral (src : string) (j : nat) (p q : Parser)
  (e : option Expression) :
  At src j p -> parseIntegerLiteral p = (e, q) -> At src j q.
Proof.
  unfold parseIntegerLiteral. intros HA E.
  destruct (strconv.ParseInt _); injection E as <- <-;
    [exact HA|now apply At_addError].
Qed.

Lemma At_not_LET (src : string) (j : nat) (p : Parser) :
  noLetReturn src -> At src j p -> String.eqb (Type_ (curToken p)) LET = false.
Proof.
  intros Hno (Hc & _). apply String.eqb_neq. rewrite Hc. apply Hno.
Qed.

Lemma At_not_RETURN (src : string) (j : nat) (p : Parser) :
  noLetReturn src -> At src j p -> String.eqb (Type_ (curToken p)) RETURN = false.
Proof.
  intros Hno (Hc & _). apply String.eqb_neq. rewrite Hc. apply Hno.
Qed.

Lemma returnsFrom_Done {A : Type} (src : string) (j j' : nat) (a : A) (q : Parser) :
  At src j' q -> j <= j' -> returnsFrom src j (Done a q).
Proof. intros HA Hle. now exists a, j', q. Qed.

Lemma parseFunctionParameters_loop_returns (src : string) (n : nat) :
  forall ids j p, At src j p -> String.length src - j < n ->
    returnsFrom src j (parseFunctionParameters_loop n ids p).
Proof.
  induction n as [|n IH]; intros ids j p HA Hn; [lia|].
  cbn [parseFunctionParameters_loop].
  destruct (peekTokenIs p COMMA) eqn:Hp.
  - pose proof (At_peekTokenIs src j p COMMA HA Hp ltac:(discriminate)).
    destruct (IH (ids ++ [identifierOfCurToken (nextToken (nextToken p))])%list
                 (S (S j)) (nextToken (nextToken p)))
      as (a & j' & q & E & HA' & Hle);
      [now apply At_nextToken, At_nextToken|lia|].
    rewrite E. apply (returnsFrom_Done src j j'); [exact HA'|lia].
  - now apply (returnsFrom_Done src j j).
Qed.

Lemma parseFunctionParameters_returns (src : string) (n : nat) (j : nat) (p : Parser) :
  At src j p -> String.length src - j < n ->
  returnsFrom src j (parseFunctionParameters n p).
Proof.
  intros HA Hn. unfold parseFunctionParameters.
  destruct (peekTokenIs p RPAREN).
  - apply (returnsFrom_Done src j (S j)); [now apply At_nextToken|lia].
  - destruct (parseFunctionParameters_loop_returns src n
                [identifierOfCurToken (nextToken p)] (S j) (nextToken p))
      as (a & j' & q & E & HA' & Hle); [now apply At_nextToken|lia|].
    rewrite E. cbn [andThen].
    destruct (expectPeek q RPAREN) as [ok q'] eqn:Ep.
    apply (At_expectPeek src j' q q' RPAREN ok HA') in Ep; [|discriminate].
    destruct ok; cbn [negb].
    + destruct Ep as [_ Ep]. apply (returnsFrom_Done src j (S j')); [exact Ep|lia].
    + apply (returnsFrom_Done src j j'); [exact Ep|lia].
Qed.

Ltac note_next :=
  match goal with
  | HA : At ?s ?j ?p |- context [nextToken ?p] =>
      lazymatch goal with
      | _ : At s _ (nextToken p) |- _ => fail
      | _ => pose proof (At_nextToken s j p HA)
      end
  | HA : At ?s ?j ?p |- context [noPrefixParseFnError ?p ?t] =>
      lazymatch goal with
      | _ : At s _ (noPrefixParseFnError p t) |- _ => fail
      | _ => pose proof (At_noPrefixParseFnError s j p t HA)
      end
  end.

Ltac call_returns :=
  match goal with
  | HA : At ?s ?j ?p |- context [parseFunctionParameters ?n ?p] =>
      let E := fresh "E" in
      destruct (parseFunctionParameters_returns s n j p HA) as (? & ? & ? & E & ? & ?);
      [lia|rewrite E; cbn [andThen]]
  | IHx : _, HA : At _ _ _ |- _ =>
      let E := fresh "E" in
      edestruct IHx as (? & ? & ? & E & ? & ?);
      [exact HA|lia|rewrite E; cbn [andThen]]
  end.

Ltac returns_step Hno :=
  match goal with
  | _ => progress cbn [andThen negb]
  | _ => note_next
  | HA : At ?s ?j ?p |- context [String.eqb (Type_ (curToken ?p)) LET] =>
      rewrite (At_not_LET s j p Hno HA)
  | HA : At ?s ?j ?p |- context [String.eqb (Type_ (curToken ?p)) RETURN] =>
      rewrite (At_not_RETURN s j p Hno HA)
  | HA : At ?s ?j ?p |- context [expectPeek ?p ?t] =>
      let E := fresh "E" in
      let ok := fresh "ok" in
      destruct (expectPeek p t) as [ok ?] eqn:E;
      apply (At_expectPeek s j p _ t ok HA) in E; [|discriminate];
      destruct ok; [destruct E as [? ?]|]; cbn [negb]
  | HA : At ?s ?j ?p |- context [parseIntegerLiteral ?p] =>
      let E := fresh "E" in
      destruct (parseIntegerLiteral p) as [? ?] eqn:E;
      apply (At_parseIntegerLiteral s j p _ _ HA) in E
  | HA : At ?s ?j ?p
    |- context [lookup (Type_ (curToken ?p)) (prefixParseFns ?p)] =>
      let E := fresh "E" in
      let f := fresh "f" in
      destruct (lookup (Type_ (curToken p)) (prefixParseFns p)) as [f|] eqn:E;
      [pose proof (At_prefix_handler s j p f HA E); destruct f|]
  | HA : At ?s ?j ?p
    |- context [lookup (Type_ (peekToken ?p)) (infixParseFns ?p)] =>
      let E := fresh "E" in
      let f := fresh "f" in
      destruct (lookup (Type_ (peekToken p)) (infixParseFns p)) as [f|] eqn:E;
      [pose proof (At_infix_handler s j p f HA E); destruct f|]
  | HA : At ?s ?j ?p |- context [if peekTokenIs ?p ?t then _ else _] =>
      let E := fresh "E" in
      destruct (peekTokenIs p t) eqn:E;
      [pose proof (At_peekTokenIs s j p t HA E ltac:(discriminate))|]
  | HA : At ?s ?j ?p
    |- context [if negb (curTokenIs ?p RBRACE) && negb (curTokenIs ?p EOF)
                then _ else _] =>
      let E := fresh "E" in
      destruct (negb (curTokenIs p RBRACE) && negb (curTokenIs p EOF)) eqn:E;
      [pose proof (At_block_goes_on s j p HA E)|]
  | |- context [if ?b then _ else _] => destruct b eqn:?
  | |- returnsFrom _ _ (Done _ _) =>
      eapply returnsFrom_Done; [eassumption|lia]
  | _ => call_returns
  end.

Lemma parse_returns_all (src : string) (n : nat) :
  noLetReturn src -> parse_returns_at src n.
Proof.
  intros Hno. induction n as [|n IH].
  - unfold parse_returns_at; cbv zeta; split_all; intros; lia.
  - unfold parse_returns_at in IH; cbv zeta in IH.
    destruct IH as (I1 & I2 & I3 & I4 & I5 & I6 & I7 & I8 & I9 & I10 & I11
                    & I12 & I13 & I14).
    unfold parse_returns_at; cbv zeta; split_all; intros;
      unfold_parse; repeat returns_step Hno.
Qed.

Lemma ParseProgram_loop_returns (src : string) (n : nat) :
  noLetReturn src ->
  forall l j p, At src j p -> 5 * (String.length src - j) + 4 < n ->
    returnsFrom src j (ParseProgram_loop n l p).
Proof.
  intros Hno. induction n as [|n IH]; intros l j p HA Hn; [lia|].
  cbn [ParseProgram_loop].
  destruct (String.eqb_spec (Type_ (curToken p)) EOF) as [Heof|Hne]; cbn [negb].
  - now apply (returnsFrom_Done src j j).
  - pose proof (At_cur src j p HA Hne) as Hj.
    destruct (proj1 (parse_returns_all src n Hno) j p HA) as (s & j1 & p1 & E & HA1 & Hle);
      [lia|].
    rewrite E. cbn [andThen].
    destruct (IH (match s with Some s0 => (l ++ [s0])%list | None => l end)
                 (S j1) (nextToken p1)) as (a & j2 & q & E2 & HA2 & Hle2);
      [now apply At_nextToken|lia|].
    rewrite E2. apply (returnsFrom_Done src j j2); [exact HA2|lia].
Qed.

Lemma tokens_nth (n : nat) :
  forall l i, i < n ->
    nth_error (tokens n l) i = Some (fst (NextToken (afterTokens i l))).
Proof.
  induction n as [|n IH]; intros l i Hi; [lia|].
  cbn [tokens]. destruct (NextToken l) as [tok l'] eqn:E.
  destruct i as [|i]; cbn [nth_error afterTokens].
  - now rewrite E.
  - rewrite E. cbn [snd]. apply IH. lia.
Qed.

Lemma noLetReturnTokens_sound (src : string) :
  noLetReturnTokens src = true -> noLetReturn src.
Proof.
  unfold noLetReturnTokens, noLetReturn. intros H i.
  destruct (Nat.lt_ge_cases i (String.length src)) as [Hi|Hi].
  - rewrite forallb_forall in H.
    pose proof (tokens_nth (String.length src) (lexer.New src) i Hi) as Hn.
    apply nth_error_In, H, andb_prop in Hn as [H1 H2].
    apply negb_true_iff in H1, H2.
    split; now apply String.eqb_neq.
  - rewrite tokAt_past_end by exact Hi. split; discriminate.
Qed.

(** X7.  The two skip loops are the only way not to return: on a source
    none of whose tokens is [let] or [return], [ParseProgram] returns, and
    fuel [5 * len(src) + 5] is enough for it, so the depth of calls and loop
    iterations is linear in the length of the source. *)
Theorem ParseProgram_returns_without_let_return (src : string) (fuel : nat) :
  noLetReturnTokens src = true ->
  5 * String.length src + 5 <= fuel ->
  exists prog q, parseSource fuel src = Done prog q.
Proof.
  intros Hno Hfuel. apply noLetReturnTokens_sound in Hno.
  unfold parseSource, ParseProgram.
  destruct (ParseProgram_loop_returns src fuel Hno [] 0 (New (lexer.New src)))
    as (l & j & q & E & _); [apply At_New|lia|].
  rewrite E. cbn [andThen]. now eexists _, _.
Qed.

Lemma ParseProgram_returns_without_let_return_witness :
  exists prog q, parseSource 140 "fn(x) { x + (1 * 2 }; if (a" = Done prog q.
Proof.
  apply (ParseProgram_returns_without_let_return "fn(x) { x + (1 * 2 }; if (a" 140).
  - vm_compute. reflexivity.
  - cbn [String.length]. lia.
Defined.


(** ** Two operators: the precedence table decides, parentheses override *)

Lemma rendersAs_mono (k n : nat) (source out : string) :
  rendersAs k source out -> rendersAs (k + n) source out.
Proof.
  intros (prog & q & E & H). exists prog, q.
  split; [exact (parseSource_mono k n _ _ _ E)|exact H].
Qed.

(** X8.  For every pair of binary operators [o1], [o2]: "a o1 b o2 c" is
    grouped to the right exactly when [o2] has the higher entry in the
    precedence table, and to the left otherwise (also when the entries are
    equal); parentheses in the source force either grouping, and the
    rendering shows the grouping that was parsed. *)
Theorem operator_pair_grouping (o1 o2 : string) (n : nat) :
  In o1 infixOperators -> In o2 infixOperators ->
  rendersAs (16 + n) ("a " ++ o1 ++ " b " ++ o2 ++ " c")
    (if (precedenceOf o1 <? precedenceOf o2)%Z
     then "(a " ++ o1 ++ " (b " ++ o2 ++ " c))"
     else "((a " ++ o1 ++ " b) " ++ o2 ++ " c)") /\
  rendersAs (16 + n) ("(a " ++ o1 ++ " b) " ++ o2 ++ " c")
    ("((a " ++ o1 ++ " b) " ++ o2 ++ " c)") /\
  rendersAs (16 + n) ("a " ++ o1 ++ " (b " ++ o2 ++ " c)")
    ("(a " ++ o1 ++ " (b " ++ o2 ++ " c))").
Proof.
  intros H1 H2.
  repeat split; apply rendersAs_mono;
    unfold infixOperators in H1, H2; cbn [In] in H1, H2;
    repeat (destruct H1 as [<-|H1]; [|]); try contradiction;
    repeat (destruct H2 as [<-|H2]; [|]); try contradiction;
    vm_compute; do 2 eexists; repeat split; reflexivity.
Qed.

Lemma operator_pair_grouping_witness :
  rendersAs 16 "a == b < c" "(a == (b < c))" /\
  rendersAs 16 "(a == b) < c" "((a == b) < c)" /\
  rendersAs 16 "a == (b < c)" "(a == (b < c))".
Proof.
  apply (operator_pair_grouping "==" "<" 0); cbn [In infixOperators]; tauto.
Defined.

(** ** The handler tables and the precedence table *)

Lemma lookup_precedences (t : TokenType) (prec : Z) :
  lookup t precedences = Some prec ->
  In t [EQ; NOT_EQ; LT; GT; PLUS; MINUS; SLASH; ASTERISK; LPAREN].
Proof.
  unfold precedences. cbn [lookup].
  repeat match goal with
         | |- context [String.eqb t ?k] =>
             destruct (String.eqb_spec t k) as [->|_];
             [intros _; cbn [In]; pick_in|]
         end.
  discriminate.
Qed.

(** X9.  The precedence table and the infix handlers of [New] name the same
    token kinds: whenever the loop of [parseExpression] goes on (the
    lookahead binds tighter than a precedence from [LOWEST] up), the
    lookahead has an infix handler, so the branch that returns the left
    expression for a missing handler is never taken. *)
Theorem infix_handler_never_missing (p : Parser) (prec : Z) :
  handlersOfNew p -> (LOWEST <= prec)%Z -> (prec <? peekPrecedence p)%Z = true ->
  exists f, lookup (Type_ (peekToken p)) (infixParseFns p) = Some f.
Proof.
  intros [_ Hi] Hlow Hlt. apply Z.ltb_lt in Hlt. unfold peekPrecedence in Hlt.
  destruct (lookup (Type_ (peekToken p)) precedences) as [x|] eqn:E; [|lia].
  apply lookup_precedences in E. rewrite Hi. cbn [In] in E.
  repeat (destruct E as [<-|E]; [now eexists|]). contradiction.
Qed.

Lemma infix_handler_never_missing_witness :
  exists f,
    lookup (Type_ (peekToken (New (lexer.New "f(x)"))))
      (infixParseFns (New (lexer.New "f(x)"))) = Some f.
Proof.
  apply (infix_handler_never_missing (New (lexer.New "f(x)")) LOWEST).
  - apply handlersOfNew_New.
  - unfold LOWEST. lia.
  - vm_compute. reflexivity.
Defined.

(** X10.  On a token kind without a prefix handler (any kind but the nine
    that [New] registers) [parseExpression] returns nil at once: it appends
    the one message "no prefix parse function for K found", K the kind, and
    consumes no token; on the nine kinds a handler is found. *)
Theorem parseExpression_no_prefix (p : Parser) (prec : Z) (n : nat) :
  handlersOfNew p ->
  (In (Type_ (curToken p)) prefixKinds ->
   exists f, lookup (Type_ (curToken p)) (prefixParseFns p) = Some f) /\
  (~ In (Type_ (curToken p)) prefixKinds ->
   parseExpression (S n) prec p
   = Done None
       (addError p
          ("no prefix parse function for " ++ Type_ (curToken p) ++ " found"))).
Proof.
  intros [Hp _]. split.
  - intros Hin. rewrite Hp. unfold prefixKinds in Hin. cbn [In] in Hin.
    repeat (destruct Hin as [<-|Hin]; [now eexists|]). contradiction.
  - intros Hnot. cbn [parseExpression]. rewrite Hp.
    assert (E : lookup (Type_ (curToken p)) (prefixParseFns (New (lexer.New "")))
                = None).
    { unfold prefixKinds in Hnot. cbn [In] in Hnot.
      change (prefixParseFns (New (lexer.New "")))
        with [ (FUNCTION, fn_parseFunctionLiteral); (IF, fn_parseIfExpression);
               (LPAREN, fn_parseGroupedExpression); (FALSE, fn_parseBoolean);
               (TRUE, fn_parseBoolean); (MINUS, fn_parsePrefixExpression);
               (BANG, fn_parsePrefixExpression); (INT, fn_parseIntegerLiteral);
               (IDENTIFIER, fn_parseIdentifier) ].
      cbn [lookup].
      repeat match goal with
             | |- context [String.eqb (Type_ (curToken p)) ?k] =>
                 destruct (String.eqb_spec (Type_ (curToken p)) k) as [Heq|_];
                 [exfalso; apply Hnot; rewrite Heq; pick_in|]
             end.
      reflexivity. }
    rewrite E. reflexivity.
Qed.

Lemma parseExpression_no_prefix_witness :
  parseExpression 1 LOWEST (New (lexer.New "* 2"))
  = Done None
      (addError (New (lexer.New "* 2")) "no prefix parse function for * found").
Proof.
  apply (proj2 (parseExpression_no_prefix (New (lexer.New "* 2")) LOWEST 0
                  (handlersOfNew_New _))).
  vm_compute. intros H.
  repeat (destruct H as [H|H]; [discriminate H|]). exact H.
Defined.

(** ** [String] of a program and of a block *)

(** X11.  [Program.String] writes the statements one after the other: the
    rendering of two statement lists put together is the rendering of the
    first followed by that of the second, and it panics exactly when one of
    them does; a block renders as the program of its statements. *)
Theorem ProgramString_app (l1 l2 : list Statement) (tok : Token) :
  ProgramString {| Statements := l1 ++ l2 |}
  = match ProgramString {| Statements := l1 |},
          ProgramString {| Statements := l2 |} with
    | Some a, Some b => Some (a ++ b)
    | _, _ => None
    end /\
  BlockStatementString (mkBlock tok l1) = ProgramString {| Statements := l1 |}.
Proof.
  split; [|reflexivity].
  unfold ProgramString. cbn [Statements]. rewrite StatementsString_app.
  unfold bind, ret.
  destruct (StatementsString l1); [|reflexivity].
  now destruct (StatementsString l2).
Qed.

(** ** The tokens keep every byte but the whitespace *)

Lemma dropBytes_get (s : string) :
  forall i c, String.get i s = Some c -> dropBytes i s = String c (dropBytes (S i) s).
Proof.
  induction s as [|a s IH]; intros i c H; [destruct i; discriminate H|].
  destruct i as [|i]; cbn in H |- *.
  - injection H as ->. now destruct s.
  - now apply IH.
Qed.

Lemma dropBytes_past (s : string) :
  forall i, String.length s <= i -> dropBytes i s = EmptyString.
Proof.
  induction s as [|a s IH]; intros i H; [now destruct i|].
  destruct i as [|i]; cbn in H |- *; [lia|]. apply IH. lia.
Qed.

Lemma substring_take_drop (s : string) :
  forall b, (String.substring 0 b s ++ dropBytes b s)%string = s.
Proof.
  induction s as [|a s IH]; intros b; [now destruct b|].
  destruct b as [|b]; cbn; [reflexivity|]. now rewrite IH.
Qed.

Lemma dropBytes_split (s : string) :
  forall a b, a <= b -> dropBytes a s = (slice s a b ++ dropBytes b s)%string.
Proof.
  unfold slice. induction s as [|c s IH]; intros a b Hle.
  - destruct a, b; cbn; reflexivity.
  - destruct a as [|a].
    + rewrite Nat.sub_0_r. cbn [dropBytes]. now rewrite substring_take_drop.
    + destruct b as [|b]; [lia|]. cbn. apply IH. lia.
Qed.

Lemma allOf_get (cond : ascii -> bool) (t : string) :
  (forall i c, String.get i t = Some c -> cond c = true) -> allOf cond t = true.
Proof.
  induction t as [|c t IH]; intros H; [reflexivity|].
  cbn [allOf]. apply andb_true_intro. split.
  - apply (H 0). reflexivity.
  - apply IH. intros i c' Hi. apply (H (S i)). exact Hi.
Qed.

Lemma allOf_slice (cond : ascii -> bool) (s : string) (from to : nat) :
  (forall i, from <= i < to ->
     i < String.length s /\ cond (byteAt s i) = true) ->
  allOf cond (slice s from to) = true.
Proof.
  intros H. apply allOf_get. intros i c Hi. unfold slice in Hi.
  destruct (Nat.lt_ge_cases i (to - from)) as [Hlt|Hge].
  - rewrite String.substring_correct1 in Hi by assumption.
    destruct (H (i + from)) as [_ Hd]; [lia|].
    unfold byteAt in Hd. now rewrite Hi in Hd.
  - rewrite String.substring_correct2 in Hi by assumption. discriminate.
Qed.

Lemma strip_whitespace_run (w r : string) :
  allOf isWhitespace w = true ->
  stripWhitespace (w ++ r) = stripWhitespace r.
Proof.
  induction w as [|c w IH]; intros H; [reflexivity|].
  cbn [allOf] in H. apply andb_prop in H as [Hc Hw].
  cbn [append stripWhitespace]. rewrite Hc. now apply IH.
Qed.

Lemma strip_solid_run (w r : string) :
  allOf (fun c => negb (isWhitespace c)) w = true ->
  stripWhitespace (w ++ r) = (w ++ stripWhitespace r)%string.
Proof.
  induction w as [|c w IH]; intros H; [reflexivity|].
  cbn [allOf] in H. apply andb_prop in H as [Hc Hw].
  apply negb_true_iff in Hc.
  cbn [append stripWhitespace]. rewrite Hc. now rewrite IH.
Qed.

Lemma allOf_impl (f g : ascii -> bool) (s : string) :
  (forall c, f c = true -> g c = true) -> allOf f s = true -> allOf g s = true.
Proof.
  intros Hfg. induction s as [|c s IH]; intros H; [reflexivity|].
  cbn [allOf] in *. apply andb_prop in H as [Hc Hs].
  now rewrite (Hfg c Hc), IH.
Qed.

Lemma isLetter_solid (c : ascii) : isLetter c = true -> negb (isWhitespace c) = true.
Proof.
  destruct c as [[] [] [] [] [] [] [] []]; vm_compute; intros H;
    first [reflexivity | discriminate H].
Qed.

Lemma isDigit_solid (c : ascii) : isDigit c = true -> negb (isWhitespace c) = true.
Proof.
  destruct c as [[] [] [] [] [] [] [] []]; vm_compute; intros H;
    first [reflexivity | discriminate H].
Qed.

Lemma plain_app (a b : string) : plain (a ++ b) = true -> plain b = true.
Proof.
  induction a as [|c a IH]; intros H; [exact H|].
  cbn [append plain] in H. apply andb_prop in H as [_ H]. now apply IH.
Qed.

Lemma string_of_byte_plain (c : ascii) :
  (nat_of_ascii c <? 128)%nat = true -> string_of_byte c = String c EmptyString.
Proof. unfold string_of_byte. now intros ->. Qed.

(** ** One step of the cursor *)

Lemma remaining_step (l : Lexer) :
  cursor_ok l -> position l < String.length (input l) ->
  remaining l = String (char l) (remaining (readChar l)).
Proof.
  intros [Hr Hc] Hlt. unfold remaining.
  change (position (readChar l)) with (readPosition l).
  change (input (readChar l)) with (input l). rewrite Hr.
  apply Nat.leb_gt in Hlt. rewrite Hlt in Hc. rewrite Hc.
  apply dropBytes_get. unfold byteAt.
  apply Nat.leb_gt in Hlt.
  pose proof (get_in_range (input l) (position l) Hlt) as Hg.
  now destruct (String.get (position l) (input l)).
Qed.

Lemma remaining_end (l : Lexer) :
  String.length (input l) <= position l -> remaining l = EmptyString.
Proof. apply dropBytes_past. Qed.

Lemma remaining_readLoop (cond : ascii -> bool) (l : Lexer) :
  cond NUL = false -> cursor_ok l ->
  remaining l
  = (slice (input l) (position l) (position (readLoop cond l))
     ++ remaining (readLoop cond l))%string /\
  allOf cond (slice (input l) (position l) (position (readLoop cond l))) = true.
Proof.
  intros Hnul Hok.
  pose proof (readWhile_run cond Hnul (S (String.length (input l))) l Hok)
    as [Hle Hrun].
  fold (readLoop cond l) in Hle, Hrun. split.
  - assert (Hin : input (readLoop cond l) = input l) by apply input_readWhile.
    unfold remaining. rewrite Hin. now apply dropBytes_split.
  - now apply allOf_slice.
Qed.

Lemma char_readChar (l : Lexer) : char (readChar l) = peekChar l.
Proof. reflexivity. Qed.

(** A byte that is there, in a plain text: not the zero byte, and ASCII. *)
Lemma plain_char (l : Lexer) :
  cursor_ok l -> plain (remaining l) = true ->
  position l < String.length (input l) ->
  char l <> NUL /\ (nat_of_ascii (char l) <? 128)%nat = true /\
  plain (remaining (readChar l)) = true.
Proof.
  intros Hok Hp Hlt. rewrite (remaining_step l Hok Hlt) in Hp.
  cbn [plain] in Hp. apply andb_prop in Hp as [Hp Hrest].
  apply andb_prop in Hp as [Hn Ha]. apply negb_true_iff in Hn.
  split; [|auto]. intros E. rewrite E in Hn. discriminate Hn.
Qed.

Lemma char_inside (l : Lexer) :
  cursor_ok l -> char l <> NUL -> position l < String.length (input l).
Proof.
  intros Hok Hne.
  destruct (Nat.lt_ge_cases (position l) (String.length (input l))) as [H|H];
    [exact H|]. now apply cursor_ok_past_end in H.
Qed.

(** One token: its literal is what [NextToken] takes off the text that is
    left, whitespace apart. *)
Lemma NextToken_keeps (l : Lexer) :
  cursor_ok l -> plain (remaining l) = true ->
  stripWhitespace (remaining l)
  = (Literal (fst (NextToken l))
     ++ stripWhitespace (remaining (snd (NextToken l))))%string /\
  plain (remaining (snd (NextToken l))) = true.
Proof.
  intros Hok Hplain.
  assert (Hs : cursor_ok (skipWhitespace l)) by now apply cursor_ok_readLoop.
  destruct (remaining_readLoop isWhitespace l isWhitespace_NUL Hok) as [Hsplit Hws].
  fold (skipWhitespace l) in Hsplit, Hws.
  pose proof (readLoop_exits isWhitespace isWhitespace_NUL l) as Hnw.
  fold (skipWhitespace l) in Hnw.
  rewrite Hsplit in Hplain. apply plain_app in Hplain.
  rewrite Hsplit, (strip_whitespace_run _ _ Hws). clear Hsplit Hws.
  unfold NextToken. set (lx := skipWhitespace l) in *.
  destruct (Nat.lt_ge_cases (position lx) (String.length (input lx))) as [Hin|Hend].
  - (* a byte is there *)
    destruct (plain_char lx Hs Hplain Hin) as (Hnn & Hascii & Hp1).
    pose proof (remaining_step lx Hs Hin) as Hrem.
    assert (Hstrip : stripWhitespace (remaining lx)
                     = String (char lx) (stripWhitespace (remaining (readChar lx)))).
    { rewrite Hrem. cbn [stripWhitespace]. now rewrite Hnw. }
    assert (Hsingle : forall t,
               stripWhitespace (remaining lx)
               = (Literal (newToken t (char lx))
                  ++ stripWhitespace (remaining (readChar lx)))%string).
    { intros t. cbn [newToken Literal].
      now rewrite (string_of_byte_plain _ Hascii), Hstrip. }
    assert (Hdouble : peekChar lx = "="%char ->
               stripWhitespace (remaining lx)
               = ((string_of_byte (char lx) ++ string_of_byte (char (readChar lx)))
                  ++ stripWhitespace (remaining (readChar (readChar lx))))%string /\
               plain (remaining (readChar (readChar lx))) = true).
    { intros Hpk. pose proof (cursor_ok_readChar lx) as Hs1.
      assert (Hc1 : char (readChar lx) = "="%char) by exact Hpk.
      assert (Hin1 : position (readChar lx) < String.length (input (readChar lx))).
      { apply char_inside; [exact Hs1|]. rewrite Hc1. discriminate. }
      destruct (plain_char _ Hs1 Hp1 Hin1) as (_ & _ & Hp2).
      split; [|exact Hp2].
      rewrite Hstrip, (remaining_step _ Hs1 Hin1), Hc1.
      now rewrite (string_of_byte_plain _ Hascii). }
    unfold readIdentifier, readNumber.
    repeat match goal with
           | |- context [if Ascii.eqb ?a ?b then _ else _] =>
               destruct (Ascii.eqb_spec a b)
           end;
      try (cbn [fst snd]; split; [apply Hsingle|exact Hp1]; fail);
      try (cbn [fst snd Literal]; now apply Hdouble);
      try contradiction.
    destruct (isLetter (char lx)) eqn:Hl; [|destruct (isDigit (char lx)) eqn:Hd].
    + cbn [fst snd Literal].
      destruct (remaining_readLoop isLetter lx isLetter_NUL Hs) as [Hsp Hall].
      assert (Hi : input (readLoop isLetter lx) = input lx) by apply input_readWhile.
      rewrite Hi. rewrite Hsp in Hplain |- *. split; [|now apply plain_app in Hplain].
      apply strip_solid_run. revert Hall. apply allOf_impl, isLetter_solid.
    + cbn [fst snd Literal].
      destruct (remaining_readLoop isDigit lx isDigit_NUL Hs) as [Hsp Hall].
      assert (Hi : input (readLoop isDigit lx) = input lx) by apply input_readWhile.
      rewrite Hi. rewrite Hsp in Hplain |- *. split; [|now apply plain_app in Hplain].
      apply strip_solid_run. revert Hall. apply allOf_impl, isDigit_solid.
    + cbn [fst snd]. split; [apply Hsingle|exact Hp1].
  - (* the end of the input *)
    pose proof (NextToken_past_end lx Hs Hend) as E. unfold NextToken in E.
    pose proof (cursor_ok_past_end lx Hs Hend) as Hc.
    assert (Hskip : skipWhitespace lx = lx).
    { unfold skipWhitespace. rewrite readLoop_unfold by reflexivity.
      now rewrite Hc, isWhitespace_NUL. }
    rewrite Hskip in E. fold lx. rewrite E. cbn [fst snd Literal EOFToken].
    rewrite (remaining_end lx Hend).
    rewrite (remaining_end (readChar lx)); [auto|].
    destruct Hs as [Hr _].
    change (position (readChar lx)) with (readPosition lx).
    change (input (readChar lx)) with (input lx). lia.
Qed.

Lemma tokens_keep (k : nat) :
  forall l, cursor_ok l -> plain (remaining l) = true ->
    (literals (tokens k l) ++ stripWhitespace (remaining (afterTokens k l)))%string
    = stripWhitespace (remaining l).
Proof.
  induction k as [|k IH]; intros l Hok Hp; [reflexivity|].
  destruct (NextToken_keeps l Hok Hp) as [Hstep Hp1].
  cbn [tokens afterTokens]. destruct (NextToken l) as [tok l1] eqn:E.
  cbn [fst snd] in *. cbn [literals]. rewrite append_assoc.
  rewrite IH; [now rewrite Hstep| |exact Hp1].
  pose proof (cursor_ok_NextToken l Hok) as H. now rewrite E in H.
Qed.

(** X13.  Lexing loses nothing but whitespace: for a source of ASCII bytes
    without a zero byte, the literals of its tokens, put one after the other,
    are the source without its blanks, tabs and line ends.  ([len(src)]
    tokens always reach the end of the input; the end-of-input tokens after
    it have empty literals.) *)
Theorem tokens_keep_all_but_whitespace (src : string) (k : nat) :
  plain src = true -> String.length src <= k ->
  literals (tokens k (lexer.New src)) = stripWhitespace src.
Proof.
  intros Hp Hk.
  pose proof (tokens_keep k (lexer.New src) (cursor_ok_New src) Hp) as H.
  rewrite remaining_end in H.
  - cbn [stripWhitespace] in H. now rewrite append_nil_r in H.
  - rewrite input_afterTokens.
    pose proof (position_afterTokens k _ (cursor_ok_New src)). lia.
Qed.

Lemma tokens_keep_all_but_whitespace_witness :
  literals (tokens 15 (lexer.New "let x = 5 != y;")) = "letx=5!=y;".
Proof.
  apply (tokens_keep_all_but_whitespace "let x = 5 != y;" 15).
  - reflexivity.
  - cbn [String.length]. lia.
Defined.

(** ** Function parameters *)

Lemma parseFunctionParameters_loop_quiet (n : nat) :
  forall ids p a q, parseFunctionParameters_loop n ids p = Done a q ->
    errors q = errors p /\ peekTokenIs q COMMA = false /\
    exists more, a = (ids ++ more)%list.
Proof.
  induction n as [|n IH]; intros ids p a q H; [discriminate|].
  cbn [parseFunctionParameters_loop] in H.
  destruct (peekTokenIs p COMMA) eqn:Hp.
  - apply IH in H as (He & Hq & more & ->).
    split; [|split; [exact Hq|]].
    + rewrite He. unfold nextToken.
      destruct (NextToken (lex p)); cbn. now destruct (NextToken _).
    + eexists. now rewrite <- app_assoc.
  - injection H as <- <-. split; [reflexivity|]. split; [exact Hp|].
    exists []. now rewrite app_nil_r.
Qed.

(** X14.  [parseFunctionParameters] takes the token at every parameter
    position as a name without looking at its kind, so the only error it
    can record is the one for a missing closing parenthesis: it returns nil
    with that one error appended, naming the token found instead (never a
    comma), or it returns the list of names, no error added, standing on
    the closing parenthesis. *)
Theorem parseFunctionParameters_only_error (n : nat) (p q : Parser)
  (a : option (list Identifier)) :
  parseFunctionParameters n p = Done a q ->
  (a = None /\
   exists got, got <> COMMA /\ got <> RPAREN /\
     errors q = (errors p ++ [peekErrorMessage RPAREN got])%list) \/
  (exists ids, a = Some ids /\ errors q = errors p /\
     Type_ (curToken q) = RPAREN).
Proof.
  unfold parseFunctionParameters. intros H.
  destruct (peekTokenIs p RPAREN) eqn:Hp.
  - injection H as <- <-. right. exists []. split; [reflexivity|].
    rewrite curToken_nextToken. unfold peekTokenIs in Hp.
    apply String.eqb_eq in Hp. split; [|exact Hp].
    unfold nextToken. now destruct (NextToken (lex p)).
  - destruct (parseFunctionParameters_loop n _ (nextToken p)) as [ids p2|] eqn:E;
      [|discriminate].
    cbn [andThen] in H.
    apply parseFunctionParameters_loop_quiet in E as (He & Hc & _).
    assert (He' : errors p2 = errors p).
    { rewrite He. unfold nextToken. now destruct (NextToken (lex p)). }
    unfold expectPeek, peekError in H.
    destruct (peekTokenIs p2 RPAREN) eqn:Hr; cbn [negb] in H;
      injection H as <- <-.
    + right. exists ids. split; [reflexivity|].
      rewrite curToken_nextToken. unfold peekTokenIs in Hr.
      apply String.eqb_eq in Hr. split; [|exact Hr].
      unfold nextToken. now destruct (NextToken (lex p2)).
    + left. split; [reflexivity|]. exists (Type_ (peekToken p2)).
      unfold peekTokenIs in Hc, Hr.
      apply String.eqb_neq in Hc, Hr. cbn [errors addError].
      now rewrite He'.
Qed.

Lemma parseFunctionParameters_only_error_witness :
  exists ids q,
    parseFunctionParameters 3 (nextToken (New (lexer.New "fn(1, +) { }")))
    = Done (Some ids) q /\
    map IdentValue ids = ["1"; "+"] /\
    errors q = [].
Proof.
  assert (E : exists ids q,
             parseFunctionParameters 3 (nextToken (New (lexer.New "fn(1, +) { }")))
             = Done (Some ids) q /\ map IdentValue ids = ["1"; "+"])
    by (vm_compute; do 2 eexists; split; reflexivity).
  destruct E as (ids & q & E & Hv). exists ids, q.
  split; [exact E|]. split; [exact Hv|].
  destruct (parseFunctionParameters_only_error 3 _ q _ E)
    as [[Hnone _]|(ids' & _ & He & _)]; [discriminate Hnone|exact He].
Defined.

(** ** The statements of a program *)

Lemma parseStatement_some (n : nat) (p q : Parser) (a : option Statement) :
  parseStatement n p = Done a q -> exists s, a = Some s /\ statementFor (curToken p) s.
Proof.
  destruct n as [|n]; intros H; [discriminate|]. unfold_parse.
  destruct (String.eqb_spec (Type_ (curToken p)) LET) as [Hl|Hl].
  - destruct (parseLetStatement n p); [|discriminate].
    injection H as <- _. eexists. split; [reflexivity|exact Hl].
  - destruct (String.eqb_spec (Type_ (curToken p)) RETURN) as [Hr|Hr].
    + destruct (parseReturnStatement n p); [|discriminate].
      injection H as <- _. eexists. split; [reflexivity|exact Hr].
    + destruct (parseExpressionStatement n p) as [x p1|] eqn:E; [|discriminate].
      injection H as <- _. destruct n as [|n]; [discriminate|]. unfold_parse.
      destruct (parseExpression n LOWEST p); [|discriminate].
      injection E as <- _. eexists. split; [reflexivity|]. now split.
Qed.

Lemma ParseProgram_loop_appends (n : nat) :
  forall l p a q, ParseProgram_loop n l p = Done a q ->
    exists more, a = (l ++ more)%list.
Proof.
  induction n as [|n IH]; intros l p a q H; [discriminate|].
  cbn [ParseProgram_loop] in H.
  destruct (negb (String.eqb (Type_ (curToken p)) EOF)).
  - destruct (parseStatement n p) as [s p1|] eqn:E; [|discriminate].
    cbn [andThen] in H. apply parseStatement_some in E as (s' & -> & _).
    apply IH in H as [more ->]. eexists. now rewrite <- app_assoc.
  - injection H as <- _. exists []. now rewrite app_nil_r.
Qed.

(** X15.  [parseStatement] never returns the nil interface: what it returns
    is a let, return or expression statement according to the current
    token, also when the let statement inside is a nil pointer.  So the
    test [stmt != nil] of [ParseProgram] never drops anything, and a
    program whose first token is not the end of the input has at least one
    statement. *)
Theorem ParseProgram_keeps_every_statement (fuel : nat) (p q : Parser)
  (prog : Program) :
  ParseProgram fuel p = Done prog q ->
  Type_ (curToken p) <> EOF ->
  exists s rest,
    Statements prog = s :: rest /\ statementFor (curToken p) s.
Proof.
  unfold ParseProgram. intros H Hne.
  destruct (ParseProgram_loop fuel [] p) as [l p1|] eqn:E; [|discriminate].
  cbn [andThen] in H. injection H as <- _. cbn [Statements].
  destruct fuel as [|n]; [discriminate|]. cbn [ParseProgram_loop] in E.
  destruct (String.eqb_spec (Type_ (curToken p)) EOF) as [He|_];
    [contradiction|]. cbn [negb] in E.
  destruct (parseStatement n p) as [s p2|] eqn:Es; [|discriminate].
  cbn [andThen] in E. apply parseStatement_some in Es as (s' & -> & Hs).
  apply ParseProgram_loop_appends in E as [more ->].
  exists s', more. split; [reflexivity|exact Hs].
Qed.

Lemma ParseProgram_keeps_every_statement_witness :
  exists prog q rest,
    parseSource 9 "let 5;" = Done prog q /\
    Statements prog = LetStmt None :: rest.
Proof.
  assert (E : exists prog q rest,
             ParseProgram 9 (New (lexer.New "let 5;")) = Done prog q /\
             Statements prog = LetStmt None :: rest)
    by (vm_compute; do 3 eexists; split; reflexivity).
  destruct E as (prog & q & rest & E & Hs). exists prog, q, rest.
  split; [exact E|].
  destruct (ParseProgram_keeps_every_statement 9 _ q prog E)
    as (s & rest' & Hs' & _); [vm_compute; discriminate|].
  exact Hs.
Defined.


(** ** The error message of [parseIntegerLiteral] *)

(** The message for a literal that [%q] writes as it is. *)
Lemma integerErrorMessage_printable (literal : string) :
  printableASCII literal = true ->
  integerErrorMessage literal = quotedLiteralMessage literal.
Proof.
  intros H. unfold integerErrorMessage, quotedLiteralMessage.
  rewrite (Quote_printable literal H). f_equal. cbn [append]. f_equal.
  apply append_assoc.
Qed.

(** C8, as the code has it.  [parseIntegerLiteral] on a token whose literal
    [strconv.ParseInt] cannot convert to a 64-bit integer returns nil,
    moves no token and appends exactly one error to the error list; for a
    literal of printable ASCII bytes without a quote or a backslash (every
    INT token of the lexer is such a literal: a run of digits) that error
    is [could not parse "<literal>" as integer], the literal between two
    double quotes, as [%q] prints it.  On a literal that converts, it
    returns the [IntegerLiteral] of the token with the converted value,
    which fits 64 bits, and records nothing; a decimal run (no leading
    zero) converts exactly when its number is below 2^63. *)
Theorem parseIntegerLiteral_conversion (p : Parser) :
  (strconv.ParseInt (Literal (curToken p)) = None ->
     fst (parseIntegerLiteral p) = None /\
     window (snd (parseIntegerLiteral p)) = window p /\
     (exists msg,
        Errors (snd (parseIntegerLiteral p)) = (Errors p ++ [msg])%list) /\
     (printableASCII (Literal (curToken p)) = true ->
        Errors (snd (parseIntegerLiteral p)) =
          (Errors p ++ [quotedLiteralMessage (Literal (curToken p))])%list)) /\
  (forall v, strconv.ParseInt (Literal (curToken p)) = Some v ->
     parseIntegerLiteral p = (Some (IntegerLiteral (curToken p) v), p) /\
     (- 2 ^ 63 <= v < 2 ^ 63)%Z) /\
  (forall l0, cursor_ok l0 -> curToken p = fst (NextToken l0) ->
     Type_ (curToken p) = INT ->
     allDigits (Literal (curToken p)) = true /\
     printableASCII (Literal (curToken p)) = true) /\
  (isDecimalRun (Literal (curToken p)) = true ->
     strconv.ParseInt (Literal (curToken p)) =
     if (decimalValue 0 (Literal (curToken p)) <? 2 ^ 63)%Z
     then Some (decimalValue 0 (Literal (curToken p)))
     else None).
Proof.
  split; [|split; [|split]].
  - intros H. unfold parseIntegerLiteral. rewrite H. cbn [fst snd].
    split; [reflexivity|]. split; [reflexivity|]. split; [now eexists|].
    intros Hp. unfold Errors. cbn [errors addError].
    now rewrite (integerErrorMessage_printable _ Hp).
  - intros v H. split; [|now apply ParseInt_range in H].
    unfold parseIntegerLiteral. now rewrite H.
  - intros l0 Hok Hlexed Hint.
    assert (Hd : allDigits (Literal (curToken p)) = true)
      by (rewrite Hlexed in *; now apply NextToken_INT).
    split; [exact Hd|now apply allDigits_printable].
  - apply ParseInt_decimal.
Qed.

Lemma parseIntegerLiteral_conversion_witness :
  curToken atOverflow = {| Type_ := INT; Literal := "9223372036854775808" |} /\
  strconv.ParseInt (Literal (curToken atOverflow)) = None /\
  fst (parseIntegerLiteral atOverflow) = None /\
  window (snd (parseIntegerLiteral atOverflow)) = window atOverflow /\
  Errors (snd (parseIntegerLiteral atOverflow)) =
    (Errors atOverflow ++ [quotedLiteralMessage "9223372036854775808"])%list.
Proof.
  split; [reflexivity|]. split; [reflexivity|].
  destruct (proj1 (parseIntegerLiteral_conversion atOverflow) eq_refl)
    as (Hnil & Hwin & _ & Hmsg).
  split; [exact Hnil|]. split; [exact Hwin|]. exact (Hmsg eq_refl).
Defined.

(** C8 as worded fails on the code: on the token 9223372036854775808 (2^63,
    beyond the 64-bit range) the error that [parseIntegerLiteral] appends
    is not [could not parse 9223372036854775808 as integer]; it is that
    text with the literal between double quotes. *)
Theorem integer_error_message_is_quoted :
  curToken atOverflow = {| Type_ := INT; Literal := "9223372036854775808" |} /\
  fst (parseIntegerLiteral atOverflow) = None /\
  Errors (snd (parseIntegerLiteral atOverflow)) =
    [quotedLiteralMessage "9223372036854775808"] /\
  Errors (snd (parseIntegerLiteral atOverflow)) <>
    [unquotedLiteralMessage "9223372036854775808"] /\
  String.length (quotedLiteralMessage "9223372036854775808")
  = 2 + String.length (unquotedLiteralMessage "9223372036854775808").
Proof.
  split; [reflexivity|]. split; [reflexivity|].
  split; [vm_compute; reflexivity|]. split; [|reflexivity].
  vm_compute. intros H. discriminate H.
Qed.

(** ** A leading zero *)

Section Octal.
Import strconv.
Local Open Scope Z_scope.

Lemma octal_code (c : ascii) :
  byte_le "0" c && byte_le c "7" = true -> 48 <= code c <= 55.
Proof.
  unfold byte_le, code. intros H. apply andb_prop in H as [H1 H2].
  apply Nat.leb_le in H1, H2. cbn in H1, H2. lia.
Qed.

Lemma not_octal_code (c : ascii) :
  isDigit c = true -> byte_le "0" c && byte_le c "7" = false -> 56 <= code c <= 57.
Proof.
  intros Hd H. apply isDigit_code in Hd.
  apply andb_false_iff in H. unfold byte_le, code in *.
  destruct H as [H|H]; apply Nat.leb_gt in H; cbn in H; lia.
Qed.

Lemma allOctal_allDigits (s : string) : allOctal s = true -> allDigits s = true.
Proof.
  induction s as [|c rest IH]; intros H; [reflexivity|].
  cbn [allOctal] in H. apply andb_prop in H as [Hc Hrest].
  cbn [allDigits]. rewrite (IH Hrest), andb_true_r.
  apply octal_code in Hc. unfold isDigit, byte_le, code in *.
  apply andb_true_intro. split; apply Nat.leb_le; cbn; lia.
Qed.

Lemma octalValue_ge (s : string) :
  forall acc, 0 <= acc -> allOctal s = true -> acc <= octalValue acc s.
Proof.
  induction s as [|c rest IH]; intros acc Hacc Hd; cbn [octalValue]; [lia|].
  cbn [allOctal] in Hd. apply andb_prop in Hd as [Hc Hrest].
  apply octal_code in Hc.
  specialize (IH (acc * 8 + (code c - 48)) ltac:(lia) Hrest). lia.
Qed.

(** The digit loop in base 8 on a run of octal digits: the octal number, or
    a range error. *)
Lemma parseDigits_octal (s : string) :
  forall n u, allOctal s = true -> 0 <= n <= maxUint64 ->
    parseDigits 8 s n u =
    (if octalValue n s <=? maxUint64 then Num (octalValue n s) else ErrRange, u).
Proof.
  induction s as [|c rest IH]; intros n u Hd Hn.
  - cbn [parseDigits octalValue].
    destruct (Z.leb_spec n maxUint64); [reflexivity|lia].
  - cbn [allOctal] in Hd. apply andb_prop in Hd as [Hc Hrest].
    assert (Hdig : isDigit c = true).
    { pose proof (allOctal_allDigits (String c EmptyString)) as H.
      cbn [allOctal allDigits] in H. rewrite !andb_true_r in H. now apply H. }
    pose proof (octal_code c Hc) as Hcode.
    pose proof (octalValue_ge rest (n * 8 + (code c - 48)) ltac:(lia) Hrest)
      as Hge.
    cbn [parseDigits octalValue]. rewrite (isDigit_not_underscore c Hdig).
    change (code "0") with 48. change (code "9") with 57.
    replace ((48 <=? code c) && (code c <=? 57)) with true
      by (symmetry; apply andb_true_intro; split; apply Z.leb_le; lia).
    replace (8 <=? code c - 48) with false by (symmetry; apply Z.leb_gt; lia).
    unfold maxUint64 in *.
    change (2 ^ 64 - 1) with 18446744073709551615 in *.
    change (18446744073709551615 / 8 + 1) with 2305843009213693952.
    destruct (Z.leb_spec 2305843009213693952 n).
    + destruct (Z.leb_spec (octalValue (n * 8 + (code c - 48)) rest)
                  18446744073709551615); [lia|reflexivity].
    + destruct (Z.ltb_spec 18446744073709551615 (n * 8 + (code c - 48))).
      * destruct (Z.leb_spec (octalValue (n * 8 + (code c - 48)) rest)
                    18446744073709551615); [lia|reflexivity].
      * apply IH; [assumption|lia].
Qed.

(** The digit loop in base 8 on a run of digits with an 8 or a 9 in it
    returns no number: the digit is checked against the base. *)
Lemma parseDigits_not_octal (s : string) :
  forall n u m u', allDigits s = true -> allOctal s = false ->
    parseDigits 8 s n u <> (Num m, u').
Proof.
  induction s as [|c rest IH]; intros n u m u' Hd Ho; [discriminate Ho|].
  cbn [allDigits] in Hd. apply andb_prop in Hd as [Hc Hrest].
  pose proof (isDigit_code c Hc) as Hcode.
  cbn [parseDigits]. rewrite (isDigit_not_underscore c Hc).
  change (code "0") with 48. change (code "9") with 57.
  replace ((48 <=? code c) && (code c <=? 57)) with true
    by (symmetry; apply andb_true_intro; split; apply Z.leb_le; lia).
  cbn [allOctal] in Ho.
  destruct (byte_le "0" c && byte_le c "7") eqn:Hoc.
  - cbn [andb] in Ho.
    repeat match goal with
           | |- (if ?b then _ else _) <> _ => destruct b; [discriminate|]
           end.
    now apply IH.
  - apply (not_octal_code c Hc) in Hoc.
    replace (8 <=? code c - 48) with true by (symmetry; apply Z.leb_le; lia).
    discriminate.
Qed.

Lemma digit_is_no_prefix_letter (c : ascii) :
  isDigit c = true ->
  (lower c =? code "b") = false /\ (lower c =? code "o") = false /\
  (lower c =? code "x") = false.
Proof.
  intros H.
  destruct c as [[] [] [] [] [] [] [] []]; try discriminate H;
    repeat split; reflexivity.
Qed.

(** [ParseInt] on "0" followed by digits reads the digits in base 8. *)
Lemma ParseInt_leading_zero (rest : string) :
  allDigits rest = true ->
  ParseInt (String "0" rest) =
  if allOctal rest && (octalValue 0 rest <? 2 ^ 63)
  then Some (octalValue 0 rest) else None.
Proof.
  intros Hd. unfold ParseInt.
  change (Ascii.eqb "0" "+") with false. change (Ascii.eqb "0" "-") with false.
  unfold ParseUint. change (Ascii.eqb "0" "0") with true.
  assert (Hbase : (let '(base, digits) :=
                     match rest with
                     | String c1 rest1 =>
                         if (3 <=? String.length (String "0" rest))%nat
                            && (lower c1 =? code "b") then (2, rest1)
                         else if (3 <=? String.length (String "0" rest))%nat
                                 && (lower c1 =? code "o") then (8, rest1)
                         else if (3 <=? String.length (String "0" rest))%nat
                                 && (lower c1 =? code "x") then (16, rest1)
                         else (8, rest)
                     | EmptyString => (8, rest)
                     end in (base, digits)) = (8, rest)).
  { destruct rest as [|c1 rest1]; [reflexivity|].
    cbn [allDigits] in Hd. apply andb_prop in Hd as [Hc _].
    destruct (digit_is_no_prefix_letter c1 Hc) as (-> & -> & ->).
    now rewrite !andb_false_r. }
  destruct (match rest with
            | String c1 rest1 => _
            | EmptyString => _
            end) as [base digits].
  injection Hbase as -> ->.
  destruct (allOctal rest) eqn:Ho.
  - rewrite parseDigits_octal by (auto; unfold maxUint64; lia).
    pose proof (octalValue_ge rest 0 ltac:(lia) Ho) as Hge.
    unfold maxUint64. change (2 ^ 64 - 1) with 18446744073709551615.
    change (2 ^ 63) with 9223372036854775808. cbn [andb negb].
    destruct (Z.leb_spec (octalValue 0 rest) 18446744073709551615).
    + destruct (Z.leb_spec 9223372036854775808 (octalValue 0 rest));
        destruct (Z.ltb_spec (octalValue 0 rest) 9223372036854775808);
        try lia; reflexivity.
    + destruct (Z.ltb_spec (octalValue 0 rest) 9223372036854775808);
        [lia|reflexivity].
  - cbn [andb].
    destruct (parseDigits 8 rest 0 false) as [[m| |] u'] eqn:E; try reflexivity.
    now apply parseDigits_not_octal in E.
Qed.

End Octal.

(** C9.  An INT literal with a leading zero is read as octal, though the
    lexer produced it as a run of decimal digits.  On a token whose literal
    is "0" followed by digits (what the lexer gives for such a number),
    [strconv.ParseInt] with base 0 reads the digits after the zero in
    base 8: when they are all below 8 (and the number fits 63 bits)
    [parseIntegerLiteral] returns the [IntegerLiteral] whose value is that
    octal number and records nothing; when one of them is 8 or 9 (or the
    number does not fit) the conversion fails, and [parseIntegerLiteral]
    returns nil and appends one error.  On "010" the value is 8, not 10. *)
Theorem leading_zero_is_octal (p : Parser) (rest : string) :
  Literal (curToken p) = String "0" rest ->
  allDigits rest = true ->
  strconv.ParseInt (Literal (curToken p)) =
    (if allOctal rest && (octalValue 0 rest <? 2 ^ 63)%Z
     then Some (octalValue 0 rest) else None) /\
  (allOctal rest && (octalValue 0 rest <? 2 ^ 63)%Z = true ->
     parseIntegerLiteral p
     = (Some (IntegerLiteral (curToken p) (octalValue 0 rest)), p)) /\
  (allOctal rest && (octalValue 0 rest <? 2 ^ 63)%Z = false ->
     fst (parseIntegerLiteral p) = None /\
     exists msg, Errors (snd (parseIntegerLiteral p)) = (Errors p ++ [msg])%list).
Proof.
  intros Hlit Hd.
  pose proof (ParseInt_leading_zero rest Hd) as H. rewrite <- Hlit in H.
  split; [exact H|]. unfold parseIntegerLiteral. rewrite H. split.
  - now intros ->.
  - intros ->. split; [reflexivity|]. now eexists.
Qed.

Lemma leading_zero_is_octal_witness :
  curToken (New (lexer.New "010")) = {| Type_ := INT; Literal := "010" |} /\
  parseIntegerLiteral (New (lexer.New "010"))
  = (Some (IntegerLiteral {| Type_ := INT; Literal := "010" |} 8),
     New (lexer.New "010")).
Proof.
  split; [reflexivity|].
  apply (proj1 (proj2 (leading_zero_is_octal (New (lexer.New "010")) "10"
                         eq_refl eq_refl))).
  reflexivity.
Defined.

(** Through the lexer and [ParseProgram]: "010" is one INT token with the
    literal "010", and the program (with any fuel from 5 on, no error
    recorded) is the one statement whose expression is the integer literal
    of value 8. *)
Example parse_010 (n : nat) :
  tokens 2 (lexer.New "010") =
    [ {| Type_ := INT; Literal := "010" |}; {| Type_ := EOF; Literal := "" |} ] /\
  exists q,
    parseSource (5 + n) "010" =
      Done {| Statements :=
                [exprStmt {| Type_ := INT; Literal := "010" |} (intLit "010" 8)] |} q /\
    Errors q = [].
Proof.
  split; [vm_compute; reflexivity|].
  assert (E : exists q,
             parseSource 5 "010" =
               Done {| Statements :=
                         [exprStmt {| Type_ := INT; Literal := "010" |}
                            (intLit "010" 8)] |} q /\
             Errors q = [])
    by (vm_compute; eexists; split; reflexivity).
  destruct E as (q & E & Herr). exists q.
  split; [exact (parseSource_mono 5 n _ _ _ E)|exact Herr].
Qed.

(** A digit that base 8 does not have: "09" is one INT token, its
    conversion fails, and the program holds an expression statement without
    an expression, with one error recorded. *)
Example parse_09 :
  tokens 2 (lexer.New "09") =
    [ {| Type_ := INT; Literal := "09" |}; {| Type_ := EOF; Literal := "" |} ] /\
  strconv.ParseInt "09" = None /\
  exists q,
    parseSource 5 "09" =
      Done {| Statements :=
                [ExpressionStmt
                   (Some (mkExpressionStatement
                            {| Type_ := INT; Literal := "09" |} None))] |} q /\
    List.length (Errors q) = 1.
Proof. vm_compute. repeat split. eexists. split; reflexivity. Qed.

(** ** Chains of one precedence *)

Lemma leftNested_rendering (rest : list (Token * Expression)) :
  forall l, ExpressionString (leftNested l rest)
            = leftNestedString (ExpressionString l) rest.
Proof.
  induction rest as [|[op e] rest IH]; intros l; cbn [leftNested leftNestedString];
    [reflexivity|].
  now rewrite IH.
Qed.

(** The loop of [parseExpression] at a lower precedence does what the loop
    at [P] does, and goes on where that one stops. *)
Lemma parseExpression_loop_lower (n : nat) :
  forall (P prec : Z) l p a q,
    (prec <= P)%Z ->
    parseExpression_loop n P l p = Done a q ->
    forall K r pend,
      (forall j, parseExpression_loop (K + j) prec a q = Done r pend) ->
      forall j, parseExpression_loop (n + K + j) prec l p = Done r pend.
Proof.
  induction n as [|n IH]; intros P prec l p a q Hle H K r pend Hgo j;
    [discriminate|].
  assert (Hstop : a = l -> q = p ->
                  parseExpression_loop (S n + K + j) prec l p = Done r pend).
  { intros -> ->. replace (S n + K + j) with (K + (S n + j)) by lia. apply Hgo. }
  cbn [parseExpression_loop] in H.
  destruct (negb (peekTokenIs p SEMICOLON) && (P <? peekPrecedence p)%Z) eqn:Hc;
    [|injection H as <- <-; now apply Hstop].
  destruct (lookup (Type_ (peekToken p)) (infixParseFns p)) as [f|] eqn:Hf;
    [|injection H as <- <-; now apply Hstop].
  assert (Hc' : negb (peekTokenIs p SEMICOLON) && (prec <? peekPrecedence p)%Z = true).
  { apply andb_prop in Hc as [Hs Hp]. rewrite Hs. apply Z.ltb_lt in Hp.
    apply Z.ltb_lt. lia. }
  change (S n + K + j) with (S (n + K + j)).
  cbn [parseExpression_loop]. rewrite Hc', Hf.
  destruct f.
  - destruct (parseInfixExpression n l (nextToken p)) as [l' p2|] eqn:E;
      [|discriminate].
    cbn [andThen] in H.
    apply (proj1 (proj2 (proj2 (proj2 (proj2 (proj2 (proj2 (proj2
             (parse_mono_all n)))))))) (n + K + j)) in E; [|lia].
    rewrite E. cbn [andThen]. now apply (IH P prec l' p2 a q).
  - destruct (parseCallExpression n l (nextToken p)) as [l' p2|] eqn:E;
      [|discriminate].
    cbn [andThen] in H.
    apply (proj1 (proj2 (proj2 (proj2 (proj2 (proj2 (proj2 (proj2 (proj2 (proj2
             (proj2 (proj2 (proj2 (proj2 (parse_mono_all n))))))))))))))
             (n + K + j)) in E; [|lia].
    rewrite E. cbn [andThen]. now apply (IH P prec l' p2 a q).
Qed.

(** So an expression parsed at a lower precedence starts with what it is at
    [P], and goes on from there. *)
Lemma parseExpression_lower (k : nat) (P prec : Z) (p q : Parser) (l : Expression) :
  (prec <= P)%Z ->
  parseExpression k P p = Done (Some l) q ->
  forall K r pend,
    (forall j, parseExpression_loop (K + j) prec (Some l) q = Done r pend) ->
    forall j, parseExpression (k + K + j) prec p = Done r pend.
Proof.
  intros Hle H K r pend Hgo j. destruct k as [|n]; [discriminate|].
  change (S n + K + j) with (S (n + K + j)).
  cbn [parseExpression] in H |- *.
  destruct (lookup (Type_ (curToken p)) (prefixParseFns p)) as [f|];
    [|discriminate].
  assert (Hn : n <= n + K + j) by lia.
  destruct f; cbn [andThen] in H |- *.
  - now apply (parseExpression_loop_lower n P prec _ _ _ _ Hle H).
  - destruct (parseIntegerLiteral p) as [e p']. cbn [andThen] in H |- *.
    now apply (parseExpression_loop_lower n P prec _ _ _ _ Hle H).
  - destruct (parsePrefixExpression n p) as [e p'|] eqn:E; [|discriminate].
    cbn [andThen] in H.
    apply (proj1 (proj2 (proj2 (proj2 (proj2 (proj2 (proj2
             (parse_mono_all n))))))) (n + K + j)) in E; [|exact Hn].
    rewrite E. cbn [andThen].
    now apply (parseExpression_loop_lower n P prec _ _ _ _ Hle H).
  - now apply (parseExpression_loop_lower n P prec _ _ _ _ Hle H).
  - destruct (parseGroupedExpression n p) as [e p'|] eqn:E; [|discriminate].
    cbn [andThen] in H.
    apply (proj1 (proj2 (proj2 (proj2 (proj2 (proj2 (proj2 (proj2 (proj2
             (parse_mono_all n))))))))) (n + K + j)) in E; [|exact Hn].
    rewrite E. cbn [andThen].
    now apply (parseExpression_loop_lower n P prec _ _ _ _ Hle H).
  - destruct (parseIfExpression n p) as [e p'|] eqn:E; [|discriminate].
    cbn [andThen] in H.
    apply (proj1 (proj2 (proj2 (proj2 (proj2 (proj2 (proj2 (proj2 (proj2 (proj2
             (parse_mono_all n)))))))))) (n + K + j)) in E; [|exact Hn].
    rewrite E. cbn [andThen].
    now apply (parseExpression_loop_lower n P prec _ _ _ _ Hle H).
  - destruct (parseFunctionLiteral n p) as [e p'|] eqn:E; [|discriminate].
    cbn [andThen] in H.
    apply (proj1 (proj2 (proj2 (proj2 (proj2 (proj2 (proj2 (proj2 (proj2 (proj2
             (proj2 (parse_mono_all n))))))))))) (n + K + j)) in E; [|exact Hn].
    rewrite E. cbn [andThen].
    now apply (parseExpression_loop_lower n P prec _ _ _ _ Hle H).
Qed.

(** The loop on a chain: every operator takes what was built so far as its
    left operand. *)
Lemma operands_loop (P prec : Z) (p pend : Parser)
  (rest : list (Token * Expression)) :
  (prec < P)%Z ->
  operands P p rest pend ->
  handlersOfNew p ->
  expressionEnds prec pend ->
  forall l, exists K, forall j,
    parseExpression_loop (K + j) prec (Some l) p
    = Done (Some (leftNested l rest)) pend.
Proof.
  intros Hlt Hops. induction Hops as [p|p q pend op e k rest Hop Hin Hprec He Hrest IH];
    intros Hh Hend l.
  - exists 1. intros j. cbn [Nat.add parseExpression_loop leftNested].
    unfold expressionEnds in Hend. now rewrite Hend.
  - assert (Hq : handlersOfNew q).
    { pose proof (proj1 (proj2 (proj2 (proj2 (proj2 (parse_grows_all k)))))
                   _ _ _ _ He) as (_ & _ & Hp & Hi).
      destruct (handlersOfNew_nextToken _ (handlersOfNew_nextToken _ Hh))
        as [Hp' Hi'].
      split; congruence. }
    destruct (IH Hq Hend (InfixExpression op (Some l) (Literal op) (Some e)))
      as [K HK].
    destruct (infix_handler p (Type_ op) Hh Hin) as [Hfn Hsemi].
    exists (S (S (k + K))). intros j.
    change (S (S (k + K)) + j) with (S (S (k + K) + j)).
    cbn [parseExpression_loop].
    assert (Hcond : negb (peekTokenIs p SEMICOLON) && (prec <? peekPrecedence p)%Z
                    = true).
    { apply andb_true_intro. split.
      - apply negb_true_iff. unfold peekTokenIs. rewrite Hop.
        now apply String.eqb_neq.
      - unfold peekPrecedence. rewrite Hop, Hprec. now apply Z.ltb_lt. }
    rewrite Hcond, Hop, Hfn.
    change (S (k + K) + j) with (S (k + K + j)).
    cbn [parseInfixExpression].
    assert (Hcur : curPrecedence (nextToken p) = P)
      by (unfold curPrecedence; now rewrite curToken_nextToken, Hop, Hprec).
    rewrite Hcur.
    apply (proj1 (proj2 (proj2 (proj2 (proj2 (parse_mono_all k)))))
             (k + K + j)) in He; [|lia].
    rewrite He. cbn [andThen]. rewrite curToken_nextToken, Hop.
    cbn [leftNested] in HK |- *.
    replace (S (k + K + j)) with (K + (S k + j)) by lia. apply HK.
Qed.

(** C4.  Chains of infix operators of the same precedence parse
    left-associatively, whatever the operands are.  Let an expression start
    at [p] with an operand [l] (what parsing at precedence [P] gives
    there: an identifier, a number, a prefix or parenthesised expression, a
    call, a product in a chain of sums, ...), followed by any number of
    operators of precedence [P], each with the operand that
    [parseInfixExpression] parses for it at that same precedence [P], and
    then by a token that ends the expression.  Parsed at a precedence below
    [P] (with enough fuel), the expression is the tree that nests to the
    left, [((l op1 e1) op2 e2) ...], and it renders with the parentheses
    nested to the left.  On "a + b + c" the rendering is "((a + b) + c)",
    on "5 + 5 + 5 + 5 - 10" it is "((((5 + 5) + 5) + 5) - 10)". *)
Theorem same_precedence_chain_left_assoc (P prec : Z) (k : nat)
  (p p1 pend : Parser) (l : Expression) (rest : list (Token * Expression)) :
  handlersOfNew p ->
  (prec < P)%Z ->
  parseExpression k P p = Done (Some l) p1 ->
  operands P p1 rest pend ->
  expressionEnds prec pend ->
  (exists K, forall n,
     parseExpression (K + n) prec p = Done (Some (leftNested l rest)) pend) /\
  ExpressionString (leftNested l rest)
  = leftNestedString (ExpressionString l) rest.
Proof.
  intros Hh Hlt Hl Hops Hend. split; [|apply leftNested_rendering].
  assert (Hp1 : handlersOfNew p1).
  { pose proof (proj1 (proj2 (proj2 (proj2 (proj2 (parse_grows_all k)))))
                 _ _ _ _ Hl) as (_ & _ & Hp & Hi).
    destruct Hh as [Hp' Hi']. split; congruence. }
  destruct (operands_loop P prec p1 pend rest Hlt Hops Hp1 Hend l) as [K HK].
  exists (k + K). intros n.
  apply (parseExpression_lower k P prec p p1 l ltac:(lia) Hl K _ _ HK).
Qed.

Lemma same_precedence_chain_left_assoc_witness :
  (exists K, forall n,
     parseExpression (K + n) LOWEST (New (lexer.New "5 + 5 + 5 + 5 - 10"))
     = Done (Some (leftNested (intLit "5" 5) chain_5_5_5_5_10))
         (advance 8 (New (lexer.New "5 + 5 + 5 + 5 - 10")))) /\
  ExpressionString (leftNested (intLit "5" 5) chain_5_5_5_5_10)
  = Some "((((5 + 5) + 5) + 5) - 10)".
Proof.
  apply (same_precedence_chain_left_assoc SUM LOWEST 2
           (New (lexer.New "5 + 5 + 5 + 5 - 10"))
           (New (lexer.New "5 + 5 + 5 + 5 - 10"))
           (advance 8 (New (lexer.New "5 + 5 + 5 + 5 - 10")))
           (intLit "5" 5) chain_5_5_5_5_10).
  - apply handlersOfNew_New.
  - reflexivity.
  - vm_compute. reflexivity.
  - unfold chain_5_5_5_5_10.
    apply (operands_cons SUM _ (advance 2 (New (lexer.New "5 + 5 + 5 + 5 - 10")))
             _ _ _ 2);
      [vm_compute; reflexivity|cbn; tauto|reflexivity|vm_compute; reflexivity|].
    apply (operands_cons SUM _ (advance 4 (New (lexer.New "5 + 5 + 5 + 5 - 10")))
             _ _ _ 2);
      [vm_compute; reflexivity|cbn; tauto|reflexivity|vm_compute; reflexivity|].
    apply (operands_cons SUM _ (advance 6 (New (lexer.New "5 + 5 + 5 + 5 - 10")))
             _ _ _ 2);
      [vm_compute; reflexivity|cbn; tauto|reflexivity|vm_compute; reflexivity|].
    apply (operands_cons SUM _ (advance 8 (New (lexer.New "5 + 5 + 5 + 5 - 10")))
             _ _ _ 2);
      [vm_compute; reflexivity|cbn; tauto|reflexivity|vm_compute; reflexivity|].
    apply operands_nil.
  - vm_compute. reflexivity.
Defined.

(** The same on two chains through [ParseProgram] and [String]: operands
    that are numbers, and operands that are themselves compound. *)
Example chains_of_numbers_and_of_compounds :
  rendersAs 16 "1 - 2 - 3" "((1 - 2) - 3)" /\
  rendersAs 16 "5 + 5 + 5 + 5 - 10" "((((5 + 5) + 5) + 5) - 10)" /\
  rendersAs 16 "-a * (b + c) / f(d) * !e" "((((-a) * (b + c)) / f(d)) * (!e))" /\
  rendersAs 16 "a * b + c * d - e / f" "(((a * b) + (c * d)) - (e / f))".
Proof.
  repeat split; vm_compute; do 2 eexists; repeat split; reflexivity.
Qed.
